(** * midori: transition orchestration and scene units

    A shallow embedding of [src/background.js] (class [Background], the
    "Scene Unit") and [src/pipeline/transition-pass.ts] (class
    [TransitionPass], the "Transition Orchestrator"), followed by the
    properties of the specification that are stated about them.

    Conventions of the embedding.
    - JavaScript numbers are exact rationals ([Q]); the properties below are
      about which expression is computed, not about rounding.
    - Objects live in stores indexed by references ([ref]); a method that
      mutates an object rewrites its cell.  [null] and [undefined] are
      [None].
    - A method is a computation in the monad [M]: it threads the store and
      either returns normally or throws, keeping every write made before
      the throw.
    - Calls into the renderer and releases of GPU resources are recorded,
      in order, in the [trace] of the store. *)

From Stdlib Require Import QArith Lqa.
From stdpp Require Import base option list strings gmap.

Set Default Proof Using "Type".

(** ** Exceptions and the state-and-exception monad *)

Inductive Exn :=
| TypeError (what : string).

Inductive Completion (A : Type) :=
| Normal (a : A)
| Throw (e : Exn).
Arguments Normal {A} a.
Arguments Throw {A} e.

Definition M (S A : Type) : Type := S -> Completion A * S.

#[global] Instance M_ret {S} : MRet (M S) := λ A a s, (Normal a, s).
#[global] Instance M_bind {S} : MBind (M S) := λ A B f m s,
  match m s with
  | (Normal a, s') => f a s'
  | (Throw e, s') => (Throw e, s')
  end.

Definition gets {S A} (f : S -> A) : M S A := λ s, (Normal (f s), s).
Definition modify {S} (f : S -> S) : M S unit := λ s, (Normal tt, f s).
Definition throw {S A} (e : Exn) : M S A := λ s, (Throw e, s).

Definition unless {S} (b : bool) (m : M S unit) : M S unit :=
  if b then mret tt else m.

Definition completed {A} (c : Completion A) : bool :=
  match c with Normal _ => true | Throw _ => false end.

Abbreviation ref := nat.

(** ** The rendering engine's objects (three.js), as far as the code reads
    and writes them *)

Record Image := { img_width : Q; img_height : Q }.

(** A texture; [image] is absent until one is attached. *)
Record Texture := { image : option Image }.

Record DepthTexture := { dt_width : Q; dt_height : Q }.

Record WebGLRenderTarget := {
  rt_width : Q;
  rt_height : Q;
  depthTexture : option DepthTexture
}.

Definition WebGLRenderTarget_new (width height : Q) : WebGLRenderTarget :=
  {| rt_width := width; rt_height := height; depthTexture := None |}.

(** [target.setSize(width, height)] of the rendering engine:

      if (this.width !== width || this.height !== height) {
        this.width = width; this.height = height; ...; this.dispose();
      }

    [WebGLRenderTarget_resizes] is its test and [WebGLRenderTarget_setSize]
    are its writes; the [dispose()] it then calls on the target is recorded
    by the caller, which knows whose target it is (see [Background_setSize]
    and [TransitionPass.setSize]). *)
Definition WebGLRenderTarget_resizes (width height : Q) (rt : WebGLRenderTarget) : bool :=
  negb (Qeq_bool (rt_width rt) width) || negb (Qeq_bool (rt_height rt) height).

Definition WebGLRenderTarget_setSize (width height : Q) (rt : WebGLRenderTarget)
  : WebGLRenderTarget :=
  if WebGLRenderTarget_resizes width height rt
  then {| rt_width := width; rt_height := height; depthTexture := depthTexture rt |}
  else rt.

Record PlaneGeometry := { pg_width : Q; pg_height : Q }.

(** [new MeshBasicMaterial({ map: texture })]: the material's [map] is the
    texture handed in, [null] when that is [null]. *)
Record MeshBasicMaterial := { map : option Texture }.

Record Mesh := { geometry : PlaneGeometry; material : MeshBasicMaterial }.

Record Vector2 := { vx : Q; vy : Q }.

(** Where a render call writes or reads.  The screen is [None : option Target]. *)
Inductive Target :=
| UnitBuffer (b : ref)        (* the internal buffer of a scene unit *)
| IntermediateBuffer          (* [TransitionPass._buffer] *)
| CallerBuffer (n : nat).     (* a render target handed in by the caller *)

(** ** Collaborators of this repository whose modules are not part of the
    sources at hand *)

(** Modelled from the spec: [BackgroundCamera] ([./background-camera]) is
    missing.  Its constructor arguments and [setSize] are kept; of its
    "time-dependent state (camera framing)", which [update()] advances
    "once per call", the record keeps how many times it was advanced. *)
Record BackgroundCamera := {
  cam_plane : Mesh;
  cam_width : Q;
  cam_height : Q;
  cam_updates : nat
}.

(** Modelled from the spec: [getMaxFullScreenDepthForPlane]
    ([./background-camera]) is missing.  Its result is kept symbolic: "the
    camera's maximum depth at which the full backdrop still exactly fills
    the viewport", for the given plane, camera and rotation. *)
Inductive Depth :=
| MaxFullScreenDepthForPlane (plane : Mesh) (camera : BackgroundCamera) (rotation : Q).

(** Modelled from the spec: [Particles] ([./particles]) is missing; the
    record keeps the three constructor arguments and, of its
    "time-dependent state (particle positions)", which [update()] advances
    "once per call", how many times it was advanced. *)
Record Particles := {
  p_width : Q;
  p_height : Q;
  p_maxDepth : Depth;
  p_updates : nat
}.

Inductive EffectType := MOTION_BLUR.

(** The motion blur of a scene unit is configured with the camera and the
    depth texture of that unit, which it holds by reference: the two
    constructors name those objects of the unit that owns the effect. *)
Inductive UnitObject := UnitCamera | UnitDepthTexture.

Record MotionBlurConfig := {
  mb_camera : UnitObject;
  mb_depthBuffer : UnitObject;
  mb_intensity : Q
}.

(** Modelled from the spec: [EffectPass] ([./postprocessing/effect-pass]) is
    missing: "a post-effect chain object exposing hasEffects(), render(...),
    dispose()".  The chain is the list of effects set on it. *)
Record EffectPass := {
  ep_width : Q;
  ep_height : Q;
  ep_effects : list (EffectType * MotionBlurConfig)
}.

Definition EffectPass_new (width height : Q) : EffectPass :=
  {| ep_width := width; ep_height := height; ep_effects := [] |}.

Definition EffectPass_effect (ty : EffectType) (c : MotionBlurConfig) (p : EffectPass)
  : EffectPass :=
  {| ep_width := ep_width p; ep_height := ep_height p;
     ep_effects := ep_effects p ++ [(ty, c)] |}.

Definition EffectPass_hasEffects (p : EffectPass) : bool :=
  match ep_effects p with [] => false | _ => true end.

(** The shader programs ([three]'s [BlendShader] and the shaders under
    [../effects/shaders/transition]) are opaque GPU programs. *)
Inductive Shader := BlendShader | WipeShader | SlideShader | BlurShader | GlitchShader.

(** [WipeDirection] and [SlideDirection] are declared with the shaders; the
    code names [Right] of each. *)
Inductive Direction := Left | Right | Top | Bottom.
Definition WipeDirection_Right : Direction := Right.
Definition SlideDirection_Right : Direction := Right.

(** The value of a uniform.  [Radians d] is [MathUtils.degToRad(d)];
    [ShaderDefault sh n] is the value the shader [sh] declares for a
    uniform [n] that was never written. *)
Inductive Value :=
| Number (q : Q)
| Radians (degrees : Q)
| Dir (d : Direction)
| Vec (v : ref)
| ShaderDefault (sh : Shader) (name : string).

Abbreviation Uniforms := (gmap string Value).

(** ** Scene units: the data of [class Background] *)

Module Background.

Record t := {
  _buffer : WebGLRenderTarget;
  _camera : BackgroundCamera;
  _plane : Mesh;
  _particles : Particles;
  _effects : EffectPass
}.

Local Open Scope Q_scope.

(** [texture && texture.image ? texture.image.width / texture.image.height : 1] *)
Definition textureAspectRatio (texture : option Texture) : Q :=
  match texture with
  | Some tex =>
      match image tex with
      | Some img => img_width img / img_height img
      | None => 1
      end
  | None => 1
  end.

(** The constructor, [new Background(texture, width, height)]. *)
Definition constructor (texture : option Texture) (width height : Q) : t :=
  let buffer :=
    {| rt_width := width; rt_height := height;
       depthTexture := Some {| dt_width := width; dt_height := height |} |} in
  let plane :=
    {| geometry := {| pg_width := 1; pg_height := 1 / textureAspectRatio texture |};
       material := {| map := texture |} |} in
  let camera :=
    {| cam_plane := plane; cam_width := width; cam_height := height; cam_updates := 0 |} in
  (* Use slightly larger boundaries for the particles to avoid sudden particle pop-ins. *)
  let particles :=
    {| p_width := pg_width (geometry plane) * (11 # 10);
       p_height := pg_height (geometry plane) * (11 # 10);
       p_maxDepth := MaxFullScreenDepthForPlane plane camera 0;
       p_updates := 0 |} in
  let effects :=
    EffectPass_effect MOTION_BLUR
      (* [camera: this._camera.camera, depthBuffer: this._buffer.depthTexture] *)
      {| mb_camera := UnitCamera; mb_depthBuffer := UnitDepthTexture; mb_intensity := 0 |}
      (EffectPass_new width height) in
  {| _buffer := buffer; _camera := camera; _plane := plane;
     _particles := particles; _effects := effects |}.

(** The writes of [setSize(width, height)]: the camera takes the size, the
    buffer takes it when it differs from its own, and the image of the
    depth texture takes it. *)
Definition resized (width height : Q) (bg : t) : t :=
  let buffer := WebGLRenderTarget_setSize width height (_buffer bg) in
  {| _buffer :=
       {| rt_width := rt_width buffer; rt_height := rt_height buffer;
          depthTexture :=
            match depthTexture buffer with
            | Some _ => Some {| dt_width := width; dt_height := height |}
            | None => None
            end |};
     _camera := {| cam_plane := cam_plane (_camera bg);
                   cam_width := width; cam_height := height;
                   cam_updates := cam_updates (_camera bg) |};
     _plane := _plane bg;
     _particles := _particles bg;
     _effects := _effects bg |}.

(** The writes of [this._camera.update()] and of [this._particles.update()]. *)
Definition camera_updated (bg : t) : t :=
  {| _buffer := _buffer bg;
     _camera := {| cam_plane := cam_plane (_camera bg);
                   cam_width := cam_width (_camera bg);
                   cam_height := cam_height (_camera bg);
                   cam_updates := S (cam_updates (_camera bg)) |};
     _plane := _plane bg;
     _particles := _particles bg;
     _effects := _effects bg |}.

Definition particles_updated (bg : t) : t :=
  {| _buffer := _buffer bg;
     _camera := _camera bg;
     _plane := _plane bg;
     _particles := {| p_width := p_width (_particles bg);
                      p_height := p_height (_particles bg);
                      p_maxDepth := p_maxDepth (_particles bg);
                      p_updates := S (p_updates (_particles bg)) |};
     _effects := _effects bg |}.

(** The writes of one [render()]. *)
Definition advanced (bg : t) : t := particles_updated (camera_updated bg).

End Background.

(** ** Transition kinds and their configuration *)

Inductive TransitionType :=
| None_    (* TransitionType.None *)
| Blend
| Blur
| Wipe
| Slide
| Glitch.

(** [BackgroundTransitionConfig] with the fields the per-kind interfaces
    add.  Every field is optional; [None] is a field left out.  The
    callbacks [onInit], [onStart], [onUpdate], [onComplete] and [onStop] of
    a configuration are code of the caller: a call of one of them is
    recorded in the trace (see [Called]) and has no other effect here. *)
Module Config.

Record t := {
  easing : option (Q -> Q);
  duration : option Q;
  delay : option Q;
  gradient : option Q;
  angle : option Q;
  direction : option Direction;
  slides : option Q;
  intensity : option Q;
  samples : option Q;
  seed : option Q
}.

(** [{}], the default of the [config] parameter. *)
Definition empty : t :=
  {| easing := None; duration := None; delay := None; gradient := None;
     angle := None; direction := None; slides := None; intensity := None;
     samples := None; seed := None |}.

End Config.

(** The variables a callback built by [_getTransitionConfig] closes over,
    one constructor per [case] of its [switch]: the [background] argument
    and the parameters resolved from [additionalConfig]. *)
Inductive Closure :=
| InNone (background : option ref)
| InBlend (background : option ref)
| InWipe (background : option ref) (gradient angle : Q) (direction : Direction)
| InSlide (background : option ref) (slides intensity samples : Q) (direction : Direction)
| InBlur (background : option ref) (intensity samples : Q)
| InGlitch (background : option ref) (seed : Q).

Definition closure_background (c : Closure) : option ref :=
  match c with
  | InNone b | InBlend b | InWipe b _ _ _ | InSlide b _ _ _ _
  | InBlur b _ _ | InGlitch b _ => b
  end.

Definition closure_kind (c : Closure) : TransitionType :=
  match c with
  | InNone _ => None_
  | InBlend _ => Blend
  | InWipe _ _ _ _ => Wipe
  | InSlide _ _ _ _ _ => Slide
  | InBlur _ _ _ => Blur
  | InGlitch _ _ => Glitch
  end.

(** ** The animation engine's objects *)

(** Modelled from the spec: the animation engine ([@tweenjs/tween.js]) is an
    external collaborator, "a time-progress controller constructed with
    {from, to, duration, easing} and callbacks {onInit, onStart, onUpdate,
    onComplete, onStop}; exposes isPlaying(), stop(), start()".  A tween
    animates the single property [amount] of its object.  The program sets
    the four callback slots ([onStart], [onUpdate], [onComplete], [onStop])
    together, from one configuration object whose callbacks share their
    captured variables: [_callbacks] holds that closure, and is absent
    while the slots are [null]. *)
Module Tween.

Record t := {
  _object : option Q;            (* [{ amount }]; absent for [new TWEEN.Tween()] *)
  _valuesStart : option Q;
  _valuesEnd : option Q;
  _duration : Q;
  _delayTime : Q;
  _startTime : Q;
  _easingFunction : Q -> Q;
  _isPlaying : bool;
  _onStartCallbackFired : bool;
  _callbacks : option Closure     (* the four callback slots *)
}.

(** [TWEEN.Easing.Linear.None] *)
Definition Linear_None : Q -> Q := λ k, k.

(** [new TWEEN.Tween(object)] *)
Definition constructor (object : option Q) : t :=
  {| _object := object; _valuesStart := None; _valuesEnd := None;
     _duration := 1000; _delayTime := 0; _startTime := 0;
     _easingFunction := Linear_None;
     _isPlaying := false; _onStartCallbackFired := false;
     _callbacks := None |}.

(** The chained setters [.to(to, duration).easing(e).onStart(c)...delay(d)]. *)
Definition configure (to_ duration : Q) (easing : Q -> Q) (c : Closure) (delay : Q)
    (tw : t) : t :=
  {| _object := _object tw; _valuesStart := _valuesStart tw;
     _valuesEnd := Some to_;
     _duration := duration; _delayTime := delay; _startTime := _startTime tw;
     _easingFunction := easing;
     _isPlaying := _isPlaying tw;
     _onStartCallbackFired := _onStartCallbackFired tw;
     _callbacks := Some c |}.

(** The writes of [start()] at time [now]. *)
Definition started (now : Q) (tw : t) : t :=
  {| _object := _object tw; _valuesStart := _object tw;
     _valuesEnd := _valuesEnd tw;
     _duration := _duration tw; _delayTime := _delayTime tw;
     _startTime := (now + _delayTime tw)%Q;
     _easingFunction := _easingFunction tw;
     _isPlaying := true; _onStartCallbackFired := false;
     _callbacks := _callbacks tw |}.

Definition set_isPlaying (b : bool) (tw : t) : t :=
  {| _object := _object tw; _valuesStart := _valuesStart tw;
     _valuesEnd := _valuesEnd tw;
     _duration := _duration tw; _delayTime := _delayTime tw;
     _startTime := _startTime tw;
     _easingFunction := _easingFunction tw;
     _isPlaying := b; _onStartCallbackFired := _onStartCallbackFired tw;
     _callbacks := _callbacks tw |}.

Definition set_onStartCallbackFired (b : bool) (tw : t) : t :=
  {| _object := _object tw; _valuesStart := _valuesStart tw;
     _valuesEnd := _valuesEnd tw;
     _duration := _duration tw; _delayTime := _delayTime tw;
     _startTime := _startTime tw;
     _easingFunction := _easingFunction tw;
     _isPlaying := _isPlaying tw; _onStartCallbackFired := b;
     _callbacks := _callbacks tw |}.

Definition set_object (o : option Q) (tw : t) : t :=
  {| _object := o; _valuesStart := _valuesStart tw;
     _valuesEnd := _valuesEnd tw;
     _duration := _duration tw; _delayTime := _delayTime tw;
     _startTime := _startTime tw;
     _easingFunction := _easingFunction tw;
     _isPlaying := _isPlaying tw;
     _onStartCallbackFired := _onStartCallbackFired tw;
     _callbacks := _callbacks tw |}.

Local Open Scope Q_scope.

(** [elapsed = (time - startTime) / duration], clamped:
    [elapsed = (duration === 0 || elapsed > 1) ? 1 : elapsed]. *)
Definition elapsed (time : Q) (tw : t) : Q :=
  let e := (time - _startTime tw) / _duration tw in
  if Qeq_bool (_duration tw) 0 || negb (Qle_bool e 1) then 1 else e.

(** [object[property] = start + (end - start) * value] *)
Definition interpolate (tw : t) (value : Q) : option Q :=
  match _valuesStart tw, _valuesEnd tw with
  | Some start, Some end_ => Some (start + (end_ - start) * value)
  | _, _ => _object tw
  end.

End Tween.

(** Modelled from the spec: [TransitionEffect] ([../effects/effect]) is
    missing.  It "wraps one shader program plus its live uniform values";
    "updateUniforms(partial) merges new values into the live uniform set
    without replacing unrelated entries; getUniforms() returns the current
    set"; "dispose() releases the shader's GPU-side resources". *)
Module TransitionEffect.

Record t := {
  shader : Shader;
  uniforms : Uniforms;
  disposed : bool
}.

Definition constructor (sh : Shader) (u : Uniforms) : t :=
  {| shader := sh; uniforms := u; disposed := false |}.

(** One entry of [getUniforms()]. *)
Definition getUniform (name : string) (fx : t) : Value :=
  default (ShaderDefault (shader fx) name) (uniforms fx !! name).

Definition updated (partial : Uniforms) (fx : t) : t :=
  {| shader := shader fx; uniforms := partial ∪ uniforms fx; disposed := disposed fx |}.

Definition released (fx : t) : t :=
  {| shader := shader fx; uniforms := uniforms fx; disposed := true |}.

End TransitionEffect.

(** ** The store *)

(** GPU resources that [dispose] methods release. *)
Inductive Resource :=
| OfUnitBuffer (b : ref)
| OfUnitBufferTexture (b : ref)
| OfUnitDepthTexture (b : ref)
| OfUnitGeometry (b : ref)
| OfUnitMaterial (b : ref)
| OfUnitMap (b : ref)
| OfUnitScene (b : ref)
| OfUnitEffects (b : ref)
| OfUnitParticles (b : ref)
| OfIntermediateBuffer
| OfEffect (e : ref).

Inductive CallbackName := OnInit | OnStart | OnUpdate | OnComplete | OnStop.

Inductive Event :=
| CameraUpdate (b : ref)
| ParticlesUpdate (b : ref)
| SetRenderTarget (target : option Target)
| RenderScene (b : ref)
| EffectPassRender (b : ref) (out : option Target) (input : Target)
| EffectRender (e : ref) (out : option Target) (from to_ : Target)
| Released (r : Resource)
(* a call of the caller's callback, with the arguments it receives *)
| Called (cb : CallbackName) (args : option (ref * option ref))
(* life cycle of the progress animation [id] *)
| TweenCreated (id : ref)
| TweenStopped (id : ref).

(** Everything outside the orchestrator: the objects it can reach, the
    animation engine's group of running tweens ([TWEEN._tweens], by id), the
    clock ([TWEEN.now()]), the outcomes of [Math.random()] and the trace. *)
Record Heap := {
  backgrounds : list Background.t;
  effects : list TransitionEffect.t;
  vectors : list Vector2;
  tweens : list Tween.t;
  group : list ref;
  now : Q;
  random : nat -> Q;
  draws : nat;
  trace : list Event
}.

Definition set_backgrounds (f : list Background.t -> list Background.t) (h : Heap) : Heap :=
  {| backgrounds := f (backgrounds h); effects := effects h; vectors := vectors h;
     tweens := tweens h; group := group h; now := now h; random := random h;
     draws := draws h; trace := trace h |}.

Definition set_effects (f : list TransitionEffect.t -> list TransitionEffect.t) (h : Heap)
  : Heap :=
  {| backgrounds := backgrounds h; effects := f (effects h); vectors := vectors h;
     tweens := tweens h; group := group h; now := now h; random := random h;
     draws := draws h; trace := trace h |}.

Definition set_vectors (f : list Vector2 -> list Vector2) (h : Heap) : Heap :=
  {| backgrounds := backgrounds h; effects := effects h; vectors := f (vectors h);
     tweens := tweens h; group := group h; now := now h; random := random h;
     draws := draws h; trace := trace h |}.

Definition set_tweens (f : list Tween.t -> list Tween.t) (h : Heap) : Heap :=
  {| backgrounds := backgrounds h; effects := effects h; vectors := vectors h;
     tweens := f (tweens h); group := group h; now := now h; random := random h;
     draws := draws h; trace := trace h |}.

Definition set_group (f : list ref -> list ref) (h : Heap) : Heap :=
  {| backgrounds := backgrounds h; effects := effects h; vectors := vectors h;
     tweens := tweens h; group := f (group h); now := now h; random := random h;
     draws := draws h; trace := trace h |}.

Definition set_now (t : Q) (h : Heap) : Heap :=
  {| backgrounds := backgrounds h; effects := effects h; vectors := vectors h;
     tweens := tweens h; group := group h; now := t; random := random h;
     draws := draws h; trace := trace h |}.

Definition set_draws (n : nat) (h : Heap) : Heap :=
  {| backgrounds := backgrounds h; effects := effects h; vectors := vectors h;
     tweens := tweens h; group := group h; now := now h; random := random h;
     draws := n; trace := trace h |}.

Definition log (e : Event) (h : Heap) : Heap :=
  {| backgrounds := backgrounds h; effects := effects h; vectors := vectors h;
     tweens := tweens h; group := group h; now := now h; random := random h;
     draws := draws h; trace := trace h ++ [e] |}.

Definition log_all (es : list Event) (h : Heap) : Heap :=
  {| backgrounds := backgrounds h; effects := effects h; vectors := vectors h;
     tweens := tweens h; group := group h; now := now h; random := random h;
     draws := draws h; trace := trace h ++ es |}.

(** The orchestrator object: the fields of [class TransitionPass] and the
    two fields of [Pass] it uses. *)
Module Pass.
Record t := {
  _width : Q;
  _height : Q;
  _prevBackground : ref;
  _buffer : WebGLRenderTarget;
  _transition : ref;
  _transitionEffect : option ref;
  enabled : bool;
  renderToScreen : bool
}.
End Pass.

Record World := {
  this : Pass.t;
  heap : Heap
}.


Definition lift {A} (m : M Heap A) : M World A := λ w,
  let '(c, h) := m (heap w) in (c, {| this := this w; heap := h |}).

Definition set_this (f : Pass.t -> Pass.t) (w : World) : World :=
  {| this := f (this w); heap := heap w |}.

(** Reading through a reference.  A reference that designates no object of
    the store behaves as [undefined] does: the access throws. *)
Definition deref {A} (sel : Heap -> list A) (r : ref) : M Heap A := λ h,
  match sel h !! r with
  | Some a => (Normal a, h)
  | None => (Throw (TypeError "undefined object"), h)
  end.

Definition emit (e : Event) : M Heap unit := modify (log e).

(** [Math.random()] *)
Definition Math_random : M Heap Q := λ h,
  (Normal (random h (draws h)), set_draws (S (draws h)) h).

(** ** Methods of [class Background] *)

(** [new Background(texture, width, height)], allocated in the store. *)
Definition Background_new (texture : option Texture) (width height : Q) : M Heap ref :=
  b ← gets (λ h, length (backgrounds h));
  modify (set_backgrounds (λ l, l ++ [Background.constructor texture width height]));;
  mret b.

(** [this._buffer.setSize(width, height)] disposes of the buffer when it
    changes its size. *)
Definition Background_setSize (b : ref) (width height : Q) : M Heap unit :=
  bg ← deref backgrounds b;
  modify (set_backgrounds (alter (Background.resized width height) b));;
  if WebGLRenderTarget_resizes width height (Background._buffer bg)
  then emit (Released (OfUnitBuffer b))
  else mret tt.

Definition Background_render (b : ref) (writeBuffer : option Target) : M Heap unit :=
  bg ← deref backgrounds b;
  modify (set_backgrounds (alter Background.camera_updated b));;
  emit (CameraUpdate b);;
  modify (set_backgrounds (alter Background.particles_updated b));;
  emit (ParticlesUpdate b);;
  (* render to internal buffer to update depth texture *)
  emit (SetRenderTarget (Some (UnitBuffer b)));;
  emit (RenderScene b);;
  (* render to the given write buffer *)
  if EffectPass_hasEffects (Background._effects bg) then
    emit (EffectPassRender b writeBuffer (UnitBuffer b))
  else
    emit (SetRenderTarget writeBuffer);;
    emit (RenderScene b).

Definition Background_dispose (b : ref) : M Heap unit :=
  bg ← deref backgrounds b;
  emit (Released (OfUnitBuffer b));;
  emit (Released (OfUnitBufferTexture b));;
  emit (Released (OfUnitDepthTexture b));;
  emit (Released (OfUnitGeometry b));;
  emit (Released (OfUnitMaterial b));;
  (* [this._plane.material.map.dispose()] *)
  match map (material (Background._plane bg)) with
  | Some _ => emit (Released (OfUnitMap b))
  | None => throw (TypeError "Cannot read properties of null (reading 'dispose')")
  end;;
  emit (Released (OfUnitScene b));;
  emit (Released (OfUnitEffects b));;
  emit (Released (OfUnitParticles b)).

(** ** Methods of [TransitionEffect] and [Vector2] *)

Definition TransitionEffect_new (sh : Shader) (u : Uniforms) : M Heap ref :=
  e ← gets (λ h, length (effects h));
  modify (set_effects (λ l, l ++ [TransitionEffect.constructor sh u]));;
  mret e.

(** [getUniforms()]: the current set, read by name. *)
Definition TransitionEffect_getUniforms (e : ref) : M Heap (string -> Value) :=
  fx ← deref effects e;
  mret (λ name, TransitionEffect.getUniform name fx).

Definition TransitionEffect_updateUniforms (e : ref) (partial : Uniforms) : M Heap unit :=
  _ ← deref effects e;
  modify (set_effects (alter (TransitionEffect.updated partial) e)).

Definition TransitionEffect_render (e : ref) (out : option Target) (from to_ : Target)
  : M Heap unit :=
  _ ← deref effects e;
  emit (EffectRender e out from to_).

Definition TransitionEffect_dispose (e : ref) : M Heap unit :=
  _ ← deref effects e;
  modify (set_effects (alter TransitionEffect.released e));;
  emit (Released (OfEffect e)).

Definition Vector2_new (x y : Q) : M Heap ref :=
  v ← gets (λ h, length (vectors h));
  modify (set_vectors (λ l, l ++ [{| vx := x; vy := y |}]));;
  mret v.

(** [v.set(x, y)] *)
Definition Vector2_set (v : ref) (x y : Q) : M Heap unit :=
  _ ← deref vectors v;
  modify (set_vectors (<[v := {| vx := x; vy := y |}]>)).

(** ** Methods of the animation engine *)

(** [TWEEN.add]: the group is keyed by tween id and enumerated in
    ascending order of the ids. *)
Fixpoint group_add (id : ref) (g : list ref) : list ref :=
  match g with
  | [] => [id]
  | x :: g' =>
      if decide (id = x) then g
      else if decide (id < x) then id :: g
      else x :: group_add id g'
  end.

(** [TWEEN.remove] *)
Definition group_remove (id : ref) (g : list ref) : list ref :=
  filter (λ x, x ≠ id) g.

Section Engine.

(** How a callback slot is run on the tween's object; the orchestrator
    supplies it below (see [TransitionPass.invoke]). *)
Variable invoke : CallbackName -> Closure -> option Q -> M World unit.

Definition fire (cb : CallbackName) (slot : option Closure) (object : option Q)
  : M World unit :=
  match slot with
  | Some c => invoke cb c object
  | None => mret tt
  end.

(** [new TWEEN.Tween(from).to(to, duration).easing(...)....delay(delay)] *)
Definition Tween_new (tw : Tween.t) : M Heap ref :=
  id ← gets (λ h, length (tweens h));
  modify (set_tweens (λ l, l ++ [tw]));;
  emit (TweenCreated id);;
  mret id.

(** [tween.start()] *)
Definition Tween_start (id : ref) : M Heap unit :=
  _ ← deref tweens id;
  t ← gets now;
  modify (set_group (group_add id));;
  modify (set_tweens (alter (Tween.started t) id)).

(** [tween.isPlaying()] *)
Definition Tween_isPlaying (id : ref) : M Heap bool :=
  tw ← deref tweens id;
  mret (Tween._isPlaying tw).

(** [tween.stop()] *)
Definition Tween_stop (id : ref) : M World unit :=
  tw ← lift (deref tweens id);
  if negb (Tween._isPlaying tw) then mret tt
  else
    lift (modify (set_group (group_remove id)));;
    lift (modify (set_tweens (alter (Tween.set_isPlaying false) id)));;
    lift (emit (TweenStopped id));;
    fire OnStop (Tween._callbacks tw) (Tween._object tw).

(** [tween.update(time)]; [false] when the tween has finished. *)
Definition Tween_update (id : ref) (time : Q) : M World bool :=
  tw ← lift (deref tweens id);
  if negb (Qle_bool (Tween._startTime tw) time) then mret true
  else
    unless (Tween._onStartCallbackFired tw)
      (fire OnStart (Tween._callbacks tw) (Tween._object tw);;
       lift (modify (set_tweens (alter (Tween.set_onStartCallbackFired true) id))));;
    let elapsed := Tween.elapsed time tw in
    let value := Tween._easingFunction tw elapsed in
    let object := Tween.interpolate tw value in
    lift (modify (set_tweens (alter (Tween.set_object object) id)));;
    fire OnUpdate (Tween._callbacks tw) object;;
    if Qeq_bool elapsed 1 then
      fire OnComplete (Tween._callbacks tw) object;;
      mret false
    else mret true.

(** The body of the loop of [TWEEN.update(time)] for one id of the
    snapshot [Object.keys(this._tweens)]. *)
Definition TWEEN_update_one (time : Q) (id : ref) : M World unit :=
  g ← lift (gets group);
  if decide (id ∈ g) then
    alive ← Tween_update id time;
    unless alive
      (lift (modify (set_tweens (alter (Tween.set_isPlaying false) id)));;
       lift (modify (set_group (group_remove id))))
  else mret tt.

Fixpoint TWEEN_update_loop (time : Q) (tweenIds : list ref) : M World unit :=
  match tweenIds with
  | [] => mret tt
  | id :: rest => TWEEN_update_one time id;; TWEEN_update_loop time rest
  end.

(** [TWEEN.update(time)], called by the frame loop.  No callback of this
    program starts a tween, so the ids added during the update are none. *)
Definition TWEEN_update (time : Q) : M World unit :=
  lift (modify (set_now time));;
  tweenIds ← lift (gets group);
  TWEEN_update_loop time tweenIds.

End Engine.

(** ** [class TransitionPass] *)

Module TransitionPass.

Import Pass.

Definition set_dimensions (width height : Q) (p : Pass.t) : Pass.t :=
  {| _width := width; _height := height; _prevBackground := _prevBackground p;
     _buffer := _buffer p;
     _transition := _transition p; _transitionEffect := _transitionEffect p;
     enabled := enabled p; renderToScreen := renderToScreen p |}.

Definition set_buffer (f : WebGLRenderTarget -> WebGLRenderTarget) (p : Pass.t) : Pass.t :=
  {| _width := _width p; _height := _height p; _prevBackground := _prevBackground p;
     _buffer := f (_buffer p);
     _transition := _transition p; _transitionEffect := _transitionEffect p;
     enabled := enabled p; renderToScreen := renderToScreen p |}.

Definition set_prevBackground (b : ref) (p : Pass.t) : Pass.t :=
  {| _width := _width p; _height := _height p; _prevBackground := b;
     _buffer := _buffer p;
     _transition := _transition p; _transitionEffect := _transitionEffect p;
     enabled := enabled p; renderToScreen := renderToScreen p |}.

Definition set_transition (id : ref) (p : Pass.t) : Pass.t :=
  {| _width := _width p; _height := _height p; _prevBackground := _prevBackground p;
     _buffer := _buffer p;
     _transition := id; _transitionEffect := _transitionEffect p;
     enabled := enabled p; renderToScreen := renderToScreen p |}.

Definition set_transitionEffect (e : option ref) (p : Pass.t) : Pass.t :=
  {| _width := _width p; _height := _height p; _prevBackground := _prevBackground p;
     _buffer := _buffer p;
     _transition := _transition p; _transitionEffect := e;
     enabled := enabled p; renderToScreen := renderToScreen p |}.

Definition set_enabled (b : bool) (p : Pass.t) : Pass.t :=
  {| _width := _width p; _height := _height p; _prevBackground := _prevBackground p;
     _buffer := _buffer p;
     _transition := _transition p; _transitionEffect := _transitionEffect p;
     enabled := b; renderToScreen := renderToScreen p |}.

Definition set_renderToScreen (b : bool) (p : Pass.t) : Pass.t :=
  {| _width := _width p; _height := _height p; _prevBackground := _prevBackground p;
     _buffer := _buffer p;
     _transition := _transition p; _transitionEffect := _transitionEffect p;
     enabled := enabled p; renderToScreen := b |}.

(** Reading a field of [this]. *)
Definition field {A} (f : Pass.t -> A) : M World A := gets (λ w, f (this w)).

(** [this._transitionEffect.m(...)]: [undefined] has no properties. *)
Definition the_effect : M World ref :=
  e ← field _transitionEffect;
  match e with
  | Some e => mret e
  | None => throw (TypeError "Cannot read properties of undefined")
  end.

(** [constructor(background, width, height)], run on a store [h]. *)
Definition constructor (background : option ref) (width height : Q) (h : Heap) : World :=
  (* field initialiser: [_transition = new TWEEN.Tween()] *)
  let id := length (tweens h) in
  let h := log (TweenCreated id) (set_tweens (λ l, l ++ [Tween.constructor None]) h) in
  (* [background || new Background(null, width, height)] *)
  let '(prev, h) :=
    match background with
    | Some b => (b, h)
    | None =>
        (length (backgrounds h),
         set_backgrounds (λ l, l ++ [Background.constructor None width height]) h)
    end in
  {| this := {| _width := width; _height := height; _prevBackground := prev;
                _buffer := WebGLRenderTarget_new width height;
                _transition := id; _transitionEffect := None;
                (* this pass only needs to render when a transition occurs,
                   so it should be disabled by default. *)
                enabled := false; renderToScreen := false |};
     heap := h |}.

(** [setSize(width, height)]; [this._buffer.setSize(width, height)]
    disposes of the intermediate buffer when it changes its size. *)
Definition setSize (width height : Q) : M World unit :=
  modify (set_this (set_dimensions width height));;
  prev ← field _prevBackground;
  lift (Background_setSize prev width height);;
  buffer ← field _buffer;
  modify (set_this (set_buffer (WebGLRenderTarget_setSize width height)));;
  if WebGLRenderTarget_resizes width height buffer
  then lift (emit (Released OfIntermediateBuffer))
  else mret tt.

(** [isTransitioning()] *)
Definition isTransitioning : M World bool :=
  id ← field _transition;
  lift (Tween_isPlaying id).

(** [_setTransitionEffect(shader, uniforms)] *)
Definition _setTransitionEffect (sh : Shader) (u : Uniforms) : M World unit :=
  old ← field _transitionEffect;
  match old with
  | Some e =>
      lift (TransitionEffect_dispose e);;
      modify (set_this (set_transitionEffect None))
  | None => mret tt
  end;;
  e ← lift (TransitionEffect_new sh u);
  modify (set_this (set_transitionEffect (Some e))).

(** *** The callbacks built by [_getTransitionConfig] *)

(** A call [cb(this._prevBackground, background)] of the configuration's
    callback [cb]. *)
Definition config_callback (cb : CallbackName) (background : option ref) : M World unit :=
  prev ← field _prevBackground;
  lift (emit (Called cb (Some (prev, background)))).

Definition onTransitionStart : M World unit :=
  (* enable this pass when a transition starts. *)
  modify (set_this (set_enabled true)).

Definition onTransitionEnd (background : option ref) : M World unit :=
  (* disable this pass after a transition finishes. *)
  modify (set_this (set_enabled false));;
  prev ← field _prevBackground;
  lift (Background_dispose prev);;
  (* cache the new background to be used for the next transition. *)
  b ← match background with
      | Some b => mret b
      | None =>
          width ← field _width;
          height ← field _height;
          lift (Background_new None width height)
      end;
  modify (set_this (set_prevBackground b)).

(** The callbacks of [baseTransitionConfig]. *)
Module base.

Definition onInit (background : option ref) : M World unit :=
  config_callback OnInit background.

Definition onStart (background : option ref) : M World unit :=
  config_callback OnStart background;;
  onTransitionStart.

Definition onUpdate (background : option ref) : M World unit :=
  config_callback OnUpdate background.

Definition onComplete (background : option ref) : M World unit :=
  config_callback OnComplete background;;
  onTransitionEnd background.

Definition onStop (background : option ref) : M World unit :=
  config_callback OnStop background;;
  onTransitionEnd background.

End base.

Local Open Scope Q_scope.

(** [onInit], [onComplete] and [onStop] of the returned configuration are
    those of [baseTransitionConfig] in every [case]. *)
Definition onInit (c : Closure) : M World unit := base.onInit (closure_background c).
Definition onComplete (c : Closure) : M World unit := base.onComplete (closure_background c).
Definition onStop (c : Closure) : M World unit := base.onStop (closure_background c).

(** [onStart] of the returned configuration, per [case]. *)
Definition onStart (c : Closure) : M World unit :=
  match c with
  | InNone background =>
      _setTransitionEffect BlendShader {[ "mixRatio" := Number 1 ]};;
      (* [onStart()] is here the configuration's own callback, called
         without arguments: this [case] does not rebind [onStart]. *)
      lift (emit (Called OnStart None))
  | InBlend background =>
      _setTransitionEffect BlendShader ∅;;
      base.onStart background
  | InWipe background gradient angle direction =>
      width ← field _width;
      height ← field _height;
      _setTransitionEffect WipeShader
        (<["gradient" := Number gradient]>
         (<["angle" := Radians angle]>
          (<["direction" := Dir direction]>
           {[ "aspect" := Number (width / height) ]})));;
      base.onStart background
  | InSlide background slides intensity samples direction =>
      _setTransitionEffect SlideShader
        (<["slides" := Number slides]>
         (<["intensity" := Number intensity]>
          (<["samples" := Number samples]>
           {[ "direction" := Dir direction ]})));;
      base.onStart background
  | InBlur background intensity samples =>
      _setTransitionEffect BlurShader
        (<["intensity" := Number intensity]> {[ "samples" := Number samples ]});;
      base.onStart background
  | InGlitch background seed =>
      width ← field _width;
      height ← field _height;
      resolution ← lift (Vector2_new width height);
      _setTransitionEffect GlitchShader
        (<["seed" := Number seed]> {[ "resolution" := Vec resolution ]});;
      base.onStart background
  end.

(** [({ amount }) => ...]: the parameter of an [onUpdate] destructures the
    tween's object. *)
Definition destructure_amount (object : option Q) : M World Q :=
  match object with
  | Some amount => mret amount
  | None => throw (TypeError "Cannot destructure property 'amount' of undefined")
  end.

(** [onUpdate] of the returned configuration, per [case], applied to the
    tween's object. *)
Definition onUpdate (c : Closure) (object : option Q) : M World unit :=
  match c with
  | InNone background => base.onUpdate background
  | InBlend background =>
      mixRatio ← destructure_amount object;
      e ← the_effect;
      lift (TransitionEffect_updateUniforms e {[ "mixRatio" := Number mixRatio ]});;
      base.onUpdate background
  | InWipe background _ _ _ =>
      amount ← destructure_amount object;
      (* update the aspect ratio incase it changes in the middle of the transition *)
      e ← the_effect;
      width ← field _width;
      height ← field _height;
      lift (TransitionEffect_updateUniforms e
              (<["amount" := Number amount]> {[ "aspect" := Number (width / height) ]}));;
      base.onUpdate background
  | InSlide background _ _ _ _
  | InBlur background _ _ =>
      amount ← destructure_amount object;
      e ← the_effect;
      u ← lift (TransitionEffect_getUniforms e);
      let prevAmount := u "amount" in
      e ← the_effect;
      lift (TransitionEffect_updateUniforms e
              (<["prevAmount" := prevAmount]> {[ "amount" := Number amount ]}));;
      base.onUpdate background
  | InGlitch background _ =>
      amount ← destructure_amount object;
      (* update the resolution incase it changes in the middle of the transition *)
      e ← the_effect;
      u ← lift (TransitionEffect_getUniforms e);
      width ← field _width;
      height ← field _height;
      match u "resolution" with
      | Vec resolution => lift (Vector2_set resolution width height)
      | _ => throw (TypeError "resolution.set is not a function")
      end;;
      e ← the_effect;
      lift (TransitionEffect_updateUniforms e {[ "amount" := Number amount ]});;
      base.onUpdate background
  end.

(** Running a callback slot of a tween on the tween's object. *)
Definition invoke (cb : CallbackName) (c : Closure) (object : option Q) : M World unit :=
  match cb with
  | OnInit => onInit c
  | OnStart => onStart c
  | OnUpdate => onUpdate c object
  | OnComplete => onComplete c
  | OnStop => onStop c
  end.

(** What [_getTransitionConfig] returns. *)
Module Resolved.
Record t := {
  from : Q;
  to_ : Q;
  easing : Q -> Q;
  duration : Q;
  delay : Q;
  callbacks : Closure
}.
End Resolved.

(** [_getTransitionConfig(background, transition, config)] *)
Definition _getTransitionConfig (background : option ref) (transition : TransitionType)
    (config : Config.t) : M World Resolved.t :=
  let easing := default Tween.Linear_None (Config.easing config) in
  let duration := default 0 (Config.duration config) in
  let delay := default 0 (Config.delay config) in
  c ← match transition with
      | None_ => mret (InNone background)
      | Blend => mret (InBlend background)
      | Wipe =>
          mret (InWipe background
                  (default 0 (Config.gradient config))
                  (default 0 (Config.angle config))
                  (default WipeDirection_Right (Config.direction config)))
      | Slide =>
          mret (InSlide background
                  (default 1 (Config.slides config))
                  (default 1 (Config.intensity config))
                  (default 32 (Config.samples config))
                  (default SlideDirection_Right (Config.direction config)))
      | Blur =>
          mret (InBlur background
                  (default 1 (Config.intensity config))
                  (default 32 (Config.samples config)))
      | Glitch =>
          seed ← match Config.seed config with
                 | Some seed => mret seed
                 | None => lift Math_random
                 end;
          mret (InGlitch background seed)
      end;
  mret {| Resolved.from := 0; Resolved.to_ := 1;
          Resolved.easing := easing;
          Resolved.duration := duration * 1000;
          Resolved.delay := delay * 1000;
          Resolved.callbacks := c |}.

(** [transition(background, transition, config)]: first the destructuring
    of [this._getTransitionConfig(background, transition, config)], then
    the rest of the body, [begin]. *)
Definition begin (r : Resolved.t) : M World unit :=
  old ← field _transition;
  Tween_stop invoke old;;
  invoke OnInit (Resolved.callbacks r) None;;
  id ← lift (Tween_new
               (Tween.configure (Resolved.to_ r) (Resolved.duration r) (Resolved.easing r)
                  (Resolved.callbacks r) (Resolved.delay r)
                  (Tween.constructor (Some (Resolved.from r)))));
  lift (Tween_start id);;
  modify (set_this (set_transition id)).

Definition transition (background : option ref) (transition : TransitionType)
    (config : Config.t) : M World unit :=
  r ← _getTransitionConfig background transition config;
  begin r.

(** [render(renderer, writeBuffer, readBuffer)] *)
Definition render (writeBuffer : option Target) (readBuffer : Target) : M World unit :=
  playing ← isTransitioning;
  if (playing : bool) then
    prev ← field _prevBackground;
    lift (Background_render prev (Some IntermediateBuffer));;
    e ← the_effect;
    toScreen ← field renderToScreen;
    lift (TransitionEffect_render e (if (toScreen : bool) then None else writeBuffer)
            IntermediateBuffer readBuffer)
  else mret tt.

(** [dispose()] *)
Definition dispose : M World unit :=
  id ← field _transition;
  Tween_stop invoke id;;
  prev ← field _prevBackground;
  lift (Background_dispose prev);;
  lift (emit (Released OfIntermediateBuffer));;
  e ← the_effect;
  lift (TransitionEffect_dispose e).

(** The frame loop's [TWEEN.update(time)]. *)
Definition tick (time : Q) : M World unit := TWEEN_update invoke time.

End TransitionPass.

(** ** The public interface, as a transition system *)

(** What the host application can do to an orchestrator and its store. *)
Inductive Op :=
| NewBackground (texture : option Texture) (width height : Q)
| SetSize (width height : Q)
| Transition (background : option ref) (transition : TransitionType) (config : Config.t)
| Render (writeBuffer : option Target) (readBuffer : Target)
| SetRenderToScreen (b : bool)
| Dispose
| Tick (time : Q).

Definition exec (op : Op) : M World unit :=
  match op with
  | NewBackground texture width height =>
      _ ← lift (Background_new texture width height); mret tt
  | SetSize width height => TransitionPass.setSize width height
  | Transition background transition config =>
      TransitionPass.transition background transition config
  | Render writeBuffer readBuffer => TransitionPass.render writeBuffer readBuffer
  | SetRenderToScreen b => modify (set_this (TransitionPass.set_renderToScreen b))
  | Dispose => TransitionPass.dispose
  | Tick time => TransitionPass.tick time
  end.

(** A scene unit handed to the orchestrator is an object of the store. *)
Definition known (background : option ref) (h : Heap) : Prop :=
  match background with
  | Some b => b < length (backgrounds h)
  | None => True
  end.

Definition allowed (op : Op) (w : World) : Prop :=
  match op with
  | Transition background _ _ => known background (heap w)
  | _ => True
  end.

(** A store before the orchestrator exists: it holds scene units only. *)
Definition pristine (h : Heap) : Prop :=
  effects h = [] ∧ vectors h = [] ∧ tweens h = [] ∧ group h = [].

(** The worlds the host application can bring about.  A call that throws
    leaves the world as it is at the throw. *)
Inductive Reachable : World -> Prop :=
| reach_new background width height h :
    pristine h -> known background h ->
    Reachable (TransitionPass.constructor background width height h)
| reach_step op w :
    Reachable w -> allowed op w -> Reachable (snd (exec op w)).

(** The tween the orchestrator holds, and whether its start callback has
    fired. *)
Definition current (w : World) : option Tween.t :=
  tweens (heap w) !! Pass._transition (this w).

Definition playing (w : World) : bool :=
  match current w with
  | Some tw => Tween._isPlaying tw
  | None => false
  end.

Definition started (w : World) : bool :=
  match current w with
  | Some tw => Tween._onStartCallbackFired tw
  | None => false
  end.

Definition kind (w : World) : option TransitionType :=
  tw ← current w; closure_kind <$> Tween._callbacks tw.

(** The release events of a scene unit whose backdrop has a texture. *)
Definition unit_released (b : ref) : list Event :=
  [Released (OfUnitBuffer b); Released (OfUnitBufferTexture b);
   Released (OfUnitDepthTexture b); Released (OfUnitGeometry b);
   Released (OfUnitMaterial b); Released (OfUnitMap b);
   Released (OfUnitScene b); Released (OfUnitEffects b);
   Released (OfUnitParticles b)].

(** The release events of a blank unit, up to the throw. *)
Definition blank_unit_released (b : ref) : list Event :=
  [Released (OfUnitBuffer b); Released (OfUnitBufferTexture b);
   Released (OfUnitDepthTexture b); Released (OfUnitGeometry b);
   Released (OfUnitMaterial b)].

Definition null_map : Exn :=
  TypeError "Cannot read properties of null (reading 'dispose')".

Definition undefined_effect : Exn :=
  TypeError "Cannot read properties of undefined".

(** A scene unit without a backdrop texture. *)
Definition blank (bg : Background.t) : Prop :=
  map (material (Background._plane bg)) = None.

(** ** Invariants of the reachable worlds *)

Definition shader_of (c : Closure) : Shader :=
  match c with
  | InNone _ | InBlend _ => BlendShader
  | InWipe _ _ _ _ => WipeShader
  | InSlide _ _ _ _ _ => SlideShader
  | InBlur _ _ _ => BlurShader
  | InGlitch _ _ => GlitchShader
  end.

(** The uniform that carries the progress of the animation holds the
    amount [a] of the tween's object. *)
Definition amount_ok (c : Closure) (a : Q) (fx : TransitionEffect.t) : Prop :=
  match c with
  | InNone _ => True
  | InBlend _ => TransitionEffect.uniforms fx !! "mixRatio" = Some (Number a)
  | _ => TransitionEffect.uniforms fx !! "amount" = Some (Number a)
  end.

(** Effects: the orchestrator's effect is an object of the store, every
    other effect of the store has been disposed of, and the [resolution] of
    a glitch effect is a vector of the store. *)
Record Fx (eff : option ref) (fxs : list TransitionEffect.t) (vecs : list Vector2)
  : Prop := {
  fx_valid : ∀ e, eff = Some e -> e < length fxs;
  fx_others : ∀ e fx,
    fxs !! e = Some fx -> eff ≠ Some e -> TransitionEffect.disposed fx = true;
  fx_resolution : ∀ e fx,
    fxs !! e = Some fx -> TransitionEffect.shader fx = GlitchShader ->
    ∃ v, TransitionEffect.uniforms fx !! "resolution" = Some (Vec v) ∧ v < length vecs
}.

(** A tween that plays or has started was configured by [transition]: it
    animates [amount] from 0 to 1 and its callback slots are set. *)
Definition configured (tw : Tween.t) : Prop :=
  ∃ c a, Tween._callbacks tw = Some c ∧ Tween._object tw = Some a
         ∧ Tween._valuesStart tw = Some 0%Q ∧ Tween._valuesEnd tw = Some 1%Q.

(** The animation engine: the orchestrator's tween is an object of the
    store; the group holds that tween while it plays and nothing else; no
    other tween plays. *)
Record Engine (tws : list Tween.t) (g : list ref) (cur : ref) : Prop := {
  eng_current : is_Some (tws !! cur);
  eng_group : ∀ tw, tws !! cur = Some tw ->
    g = if Tween._isPlaying tw then [cur] else [];
  eng_single : ∀ i tw, tws !! i = Some tw -> Tween._isPlaying tw = true -> i = cur;
  eng_configured : ∀ i tw, tws !! i = Some tw ->
    Tween._isPlaying tw = true ∨ Tween._onStartCallbackFired tw = true -> configured tw
}.

(** Scene units: the previous unit and the units the tweens will adopt are
    objects of the store. *)
Record Units (prev : ref) (tws : list Tween.t) (n : nat) : Prop := {
  units_prev : prev < n;
  units_next : ∀ i tw c b, tws !! i = Some tw -> Tween._callbacks tw = Some c ->
    closure_background c = Some b -> b < n
}.

(** Once the orchestrator's tween has started, the orchestrator's effect is
    the one its start callback built, and it carries the tween's amount. *)
Definition Linked (w : World) : Prop :=
  ∀ tw, current w = Some tw -> Tween._onStartCallbackFired tw = true ->
  ∃ c a e fx,
    Tween._callbacks tw = Some c ∧ Tween._object tw = Some a
    ∧ Pass._transitionEffect (this w) = Some e ∧ effects (heap w) !! e = Some fx
    ∧ TransitionEffect.shader fx = shader_of c ∧ amount_ok c a fx.

(** The pass is enabled only while its tween plays and has started. *)
Definition Gated (w : World) : Prop :=
  Pass.enabled (this w) = true -> playing w = true ∧ started w = true.

Record Inv0 (w : World) : Prop := {
  inv_engine : Engine (tweens (heap w)) (group (heap w)) (Pass._transition (this w));
  inv_units : Units (Pass._prevBackground (this w)) (tweens (heap w))
                (length (backgrounds (heap w)));
  inv_fx : Fx (Pass._transitionEffect (this w)) (effects (heap w)) (vectors (heap w));
  inv_linked : Linked w
}.

Definition Inv (w : World) : Prop := Inv0 w ∧ Gated w.

(** ** What the callbacks and the engine's steps establish *)

Section Specifications.
Import Pass TransitionPass.

Definition FxW (w : World) : Prop :=
  Fx (_transitionEffect (this w)) (effects (heap w)) (vectors (heap w)).

Definition engine_view (w : World) : list Tween.t * list ref * ref :=
  (tweens (heap w), group (heap w), _transition (this w)).

(** What the start callback leaves in the uniforms of the effect it builds. *)
Definition start_uniforms (c : Closure) (w : World) (fx : TransitionEffect.t)
    (vecs : list Vector2) : Prop :=
  match c with
  | InNone _ => TransitionEffect.uniforms fx !! "mixRatio" = Some (Number 1)
  | InBlend _ => True
  | InWipe _ gradient angle direction =>
      TransitionEffect.uniforms fx !! "gradient" = Some (Number gradient)
      ∧ TransitionEffect.uniforms fx !! "angle" = Some (Radians angle)
      ∧ TransitionEffect.uniforms fx !! "direction" = Some (Dir direction)
      ∧ TransitionEffect.uniforms fx !! "aspect"
        = Some (Number (_width (this w) / _height (this w)))
  | InSlide _ slides intensity samples direction =>
      TransitionEffect.uniforms fx !! "slides" = Some (Number slides)
      ∧ TransitionEffect.uniforms fx !! "intensity" = Some (Number intensity)
      ∧ TransitionEffect.uniforms fx !! "samples" = Some (Number samples)
      ∧ TransitionEffect.uniforms fx !! "direction" = Some (Dir direction)
  | InBlur _ intensity samples =>
      TransitionEffect.uniforms fx !! "intensity" = Some (Number intensity)
      ∧ TransitionEffect.uniforms fx !! "samples" = Some (Number samples)
  | InGlitch _ seed =>
      TransitionEffect.uniforms fx !! "seed" = Some (Number seed)
      ∧ ∃ v, TransitionEffect.uniforms fx !! "resolution" = Some (Vec v)
             ∧ vecs !! v = Some {| vx := _width (this w); vy := _height (this w) |}
  end.

Record Started (c : Closure) (w w' : World) : Prop := {
  st_engine : engine_view w' = engine_view w;
  st_prev : _prevBackground (this w') = _prevBackground (this w);
  st_units : backgrounds (heap w') = backgrounds (heap w);
  st_width : _width (this w') = _width (this w);
  st_height : _height (this w') = _height (this w);
  st_enabled :
    enabled (this w') = match c with InNone _ => enabled (this w) | _ => true end;
  st_fx : FxW w';
  st_effect : _transitionEffect (this w') = Some (length (effects (heap w)));
  st_built :
    ∃ fx, effects (heap w') !! length (effects (heap w)) = Some fx
          ∧ TransitionEffect.shader fx = shader_of c
          ∧ start_uniforms c w fx (vectors (heap w'));
  st_old : ∀ e0, _transitionEffect (this w) = Some e0 ->
    ∃ fx0, effects (heap w') !! e0 = Some fx0 ∧ TransitionEffect.disposed fx0 = true
}.

(** What an update callback leaves in the uniforms of the effect. *)
Definition update_uniforms (c : Closure) (w : World) (fx fx' : TransitionEffect.t)
    (vecs : list Vector2) : Prop :=
  match c with
  | InNone _ | InBlend _ => True
  | InWipe _ _ _ _ =>
      TransitionEffect.uniforms fx' !! "aspect"
      = Some (Number (_width (this w) / _height (this w)))
  | InSlide _ _ _ _ _ | InBlur _ _ _ =>
      TransitionEffect.uniforms fx' !! "prevAmount"
      = Some (TransitionEffect.getUniform "amount" fx)
  | InGlitch _ _ =>
      ∃ v, TransitionEffect.uniforms fx' !! "resolution" = Some (Vec v)
           ∧ vecs !! v = Some {| vx := _width (this w); vy := _height (this w) |}
  end.

Record Updated (c : Closure) (a : Q) (e : ref) (fx : TransitionEffect.t)
    (w w' : World) : Prop := {
  up_this : this w' = this w;
  up_engine : engine_view w' = engine_view w;
  up_units : backgrounds (heap w') = backgrounds (heap w);
  up_fx : FxW w';
  up_others : ∀ e', e' ≠ e -> effects (heap w') !! e' = effects (heap w) !! e';
  up_effect :
    ∃ fx', effects (heap w') !! e = Some fx'
           ∧ TransitionEffect.shader fx' = TransitionEffect.shader fx
           ∧ TransitionEffect.disposed fx' = TransitionEffect.disposed fx
           ∧ amount_ok c a fx'
           ∧ update_uniforms c w fx fx' (vectors (heap w'))
}.

Record Ended (w w' : World) : Prop := {
  en_engine : engine_view w' = engine_view w;
  en_enabled : enabled (this w') = false;
  en_effects : effects (heap w') = effects (heap w);
  en_vectors : vectors (heap w') = vectors (heap w);
  en_effect : _transitionEffect (this w') = _transitionEffect (this w);
  en_width : _width (this w') = _width (this w);
  en_height : _height (this w') = _height (this w);
  en_prev : _prevBackground (this w') < length (backgrounds (heap w'));
  en_units : length (backgrounds (heap w)) ≤ length (backgrounds (heap w'))
}.

(** The uniforms an update re-derives from the live size. *)
Definition live_uniforms (c : Closure) (w : World) (fx : TransitionEffect.t)
    (vecs : list Vector2) : Prop :=
  match c with
  | InWipe _ _ _ _ =>
      TransitionEffect.uniforms fx !! "aspect"
      = Some (Number (_width (this w) / _height (this w)))
  | InGlitch _ _ =>
      ∃ v, TransitionEffect.uniforms fx !! "resolution" = Some (Vec v)
           ∧ vecs !! v = Some {| vx := _width (this w); vy := _height (this w) |}
  | _ => True
  end.

(** The world [w'] after the start (if due) and update callbacks of one
    [update] of the orchestrator's tween [tw], which delivers [a]. *)
Record Stepped (tw : Tween.t) (c : Closure) (a : Q) (w w' : World) : Prop := {
  sp_inv : Inv w';
  sp_current :
    current w' = Some (Tween.set_object (Some a) (Tween.set_onStartCallbackFired true tw));
  sp_group : group (heap w') = group (heap w);
  sp_transition : _transition (this w') = _transition (this w);
  sp_length : length (tweens (heap w')) = length (tweens (heap w));
  sp_width : _width (this w') = _width (this w);
  sp_height : _height (this w') = _height (this w);
  sp_prev : _prevBackground (this w') = _prevBackground (this w);
  sp_units : backgrounds (heap w') = backgrounds (heap w);
  sp_effect :
    ∃ e fx, _transitionEffect (this w') = Some e ∧ effects (heap w') !! e = Some fx
            ∧ TransitionEffect.shader fx = shader_of c ∧ amount_ok c a fx
            ∧ live_uniforms c w fx (vectors (heap w'));
  sp_started :
    Tween._onStartCallbackFired tw = true ->
    ∀ e fx, _transitionEffect (this w) = Some e -> effects (heap w) !! e = Some fx ->
    _transitionEffect (this w') = Some e
    ∧ ∃ fx', effects (heap w') !! e = Some fx'
             ∧ update_uniforms c w fx fx' (vectors (heap w'));
  sp_fresh :
    Tween._onStartCallbackFired tw = false ->
    _transitionEffect (this w') = Some (length (effects (heap w)))
    ∧ enabled (this w') = match c with InNone _ => enabled (this w) | _ => true end
    ∧ ∀ e0, _transitionEffect (this w) = Some e0 ->
        ∃ fx0, effects (heap w') !! e0 = Some fx0 ∧ TransitionEffect.disposed fx0 = true
}.

(** The world with the clock set, as [TWEEN.update(time)] starts. *)
Definition at_time (time : Q) (w : World) : World :=
  {| this := this w; heap := set_now time (heap w) |}.

(** The closure and the store after [_getTransitionConfig]. *)
Definition resolve (background : option ref) (k : TransitionType) (config : Config.t)
    (h : Heap) : Closure :=
  match k with
  | None_ => InNone background
  | Blend => InBlend background
  | Wipe =>
      InWipe background (default 0%Q (Config.gradient config))
        (default 0%Q (Config.angle config))
        (default WipeDirection_Right (Config.direction config))
  | Slide =>
      InSlide background (default 1%Q (Config.slides config))
        (default 1%Q (Config.intensity config)) (default 32%Q (Config.samples config))
        (default SlideDirection_Right (Config.direction config))
  | Blur =>
      InBlur background (default 1%Q (Config.intensity config))
        (default 32%Q (Config.samples config))
  | Glitch => InGlitch background (default (random h (draws h)) (Config.seed config))
  end.

Definition drawn (k : TransitionType) (config : Config.t) (h : Heap) : Heap :=
  match k, Config.seed config with
  | Glitch, None => set_draws (S (draws h)) h
  | _, _ => h
  end.

Definition resolved (background : option ref) (k : TransitionType) (config : Config.t)
    (h : Heap) : Resolved.t :=
  {| Resolved.from := 0; Resolved.to_ := 1;
     Resolved.easing := default Tween.Linear_None (Config.easing config);
     Resolved.duration := (default 0 (Config.duration config) * 1000)%Q;
     Resolved.delay := (default 0 (Config.delay config) * 1000)%Q;
     Resolved.callbacks := resolve background k config h |}.

(** The tween [transition] constructs from a resolved configuration. *)
Definition tween_of (r : Resolved.t) : Tween.t :=
  Tween.configure (Resolved.to_ r) (Resolved.duration r) (Resolved.easing r)
    (Resolved.callbacks r) (Resolved.delay r) (Tween.constructor (Some (Resolved.from r))).

(** The world after [onInit] and the construction and start of the new
    tween, in a world [w] whose tween does not play. *)
Definition begun (r : Resolved.t) (w : World) : World :=
  let id := length (tweens (heap w)) in
  {| this := set_transition id (this w);
     heap :=
       set_tweens (λ l, alter (Tween.started (now (heap w))) id (l ++ [tween_of r]))
         (set_group (group_add id)
            (log_all [Called OnInit (Some (_prevBackground (this w),
                                           closure_background (Resolved.callbacks r)));
                      TweenCreated id] (heap w))) |}.

(** The world after the writes of [stop()] on the orchestrator's tween,
    before its stop callback runs. *)
Definition stopped (w : World) : World :=
  let id := _transition (this w) in
  {| this := this w;
     heap := log (TweenStopped id)
               (set_tweens (alter (Tween.set_isPlaying false) id)
                  (set_group (group_remove id) (heap w))) |}.

(** The world after the end of a transition to [background], signalled by
    the callback [cb], when the previous unit has a backdrop texture. *)
Definition adopted (cb : CallbackName) (background : option ref) (w : World) : World :=
  let prev := _prevBackground (this w) in
  let h := log_all (Called cb (Some (prev, background)) :: unit_released prev) (heap w) in
  match background with
  | Some b =>
      {| this := set_prevBackground b (set_enabled false (this w)); heap := h |}
  | None =>
      {| this := set_prevBackground (length (backgrounds h)) (set_enabled false (this w));
         heap := set_backgrounds
                   (λ l, l ++ [Background.constructor None (_width (this w))
                                 (_height (this w))]) h |}
  end.

(** The world in which the end of a transition throws, the previous unit
    being blank. *)
Definition aborted (cb : CallbackName) (background : option ref) (w : World) : World :=
  let prev := _prevBackground (this w) in
  {| this := set_enabled false (this w);
     heap := log_all (Called cb (Some (prev, background)) :: blank_unit_released prev)
               (heap w) |}.

End Specifications.

(** ** Example runs *)

Module Example.

Definition photo : Texture :=
  {| image := Some {| img_width := 1920; img_height := 1080 |} |}.

(** Three scene units made by the host application. *)
Definition store : Heap :=
  {| backgrounds := [Background.constructor (Some photo) 800 600;
                     Background.constructor (Some photo) 800 600;
                     Background.constructor (Some photo) 800 600];
     effects := []; vectors := []; tweens := []; group := [];
     now := 0; random := λ _, (1 # 2)%Q; draws := 0; trace := [] |}.

(** [{ duration: seconds }] *)
Definition lasting (seconds : Q) : Config.t :=
  {| Config.easing := None; Config.duration := Some seconds; Config.delay := None;
     Config.gradient := None; Config.angle := None; Config.direction := None;
     Config.slides := None; Config.intensity := None; Config.samples := None;
     Config.seed := None |}.

(** [{ slides: 2, duration: 2, direction: SlideDirection.Right }] *)
Definition two_slides : Config.t :=
  {| Config.easing := None; Config.duration := Some 2%Q; Config.delay := None;
     Config.gradient := None; Config.angle := None;
     Config.direction := Some SlideDirection_Right;
     Config.slides := Some 2%Q; Config.intensity := None; Config.samples := None;
     Config.seed := None |}.

Definition after (op : Op) (w : World) : World := snd (exec op w).

(** [new TransitionPass(unit0, 800, 600)] and [new TransitionPass(null, 800, 600)] *)
Definition pass : World := TransitionPass.constructor (Some 0) 800 600 store.
Definition blank_pass : World := TransitionPass.constructor None 800 600 store.

(** A blend to unit 1: called, then started by the first update. *)
Definition pending : World := after (Transition (Some 1) Blend (lasting 1)) pass.
Definition active : World := after (Tick 0) pending.

(** A second blend, to unit 2, called while the first one runs. *)
Definition interrupted : World := after (Transition (Some 2) Blend (lasting 1)) active.

Definition wiping : World :=
  after (Tick 0) (after (Transition (Some 1) Wipe (lasting 2)) pass).
Definition glitching : World :=
  after (Tick 0) (after (Transition (Some 1) Glitch (lasting 2)) pass).
Definition sliding : World :=
  after (Tick 500) (after (Tick 0) (after (Transition (Some 1) Slide two_slides) pass)).

(** A blend to unit 1 on the pass whose previous unit is blank. *)
Definition blank_active : World :=
  after (Tick 0) (after (Transition (Some 1) Blend (lasting 1)) blank_pass).

(** The orchestrator's tween in a world. *)
Definition tween (w : World) : Tween.t := default (Tween.constructor None) (current w).

End Example.

(** ** Scene units over their life *)

(** A sequence of [setSize] calls on the unit [b]. *)
Fixpoint Background_setSizes (b : ref) (sizes : list (Q * Q)) : M Heap unit :=
  match sizes with
  | [] => mret tt
  | (width, height) :: rest =>
      Background_setSize b width height;; Background_setSizes b rest
  end.

(** The buffer, the depth texture and the camera of a unit have the size
    [width] x [height].  (A buffer that is asked to take the size it has
    keeps its own numbers, which equal the new ones.) *)
Definition sized (width height : Q) (bg : Background.t) : Prop :=
  (rt_width (Background._buffer bg) == width)%Q
  ∧ (rt_height (Background._buffer bg) == height)%Q
  ∧ depthTexture (Background._buffer bg)
    = Some {| dt_width := width; dt_height := height |}
  ∧ cam_width (Background._camera bg) = width
  ∧ cam_height (Background._camera bg) = height.

(** The releases of the buffer of the unit [b] over a sequence of [setSize]
    calls, the unit having the size [size] before them: one for each call
    whose size differs from the size before it. *)
Fixpoint resize_events (b : ref) (size : Q * Q) (sizes : list (Q * Q)) : list Event :=
  match sizes with
  | [] => []
  | s :: rest =>
      (if negb (Qeq_bool size.1 s.1) || negb (Qeq_bool size.2 s.2)
       then [Released (OfUnitBuffer b)]
       else [])
      ++ resize_events b s rest
  end.

(** ** The callbacks in closed form *)

Section ClosedForms.
Import Pass TransitionPass.

(** The uniforms the start callback hands to the effect it builds, at the
    size [width] x [height]; [resolution] is the vector a glitch
    allocates. *)
Definition initial_uniforms (c : Closure) (width height : Q) (resolution : ref) : Uniforms :=
  match c with
  | InNone _ => {[ "mixRatio" := Number 1 ]}
  | InBlend _ => ∅
  | InWipe _ gradient angle direction =>
      <["gradient" := Number gradient]>
        (<["angle" := Radians angle]>
           (<["direction" := Dir direction]>
              {[ "aspect" := Number (width / height) ]}))
  | InSlide _ slides intensity samples direction =>
      <["slides" := Number slides]>
        (<["intensity" := Number intensity]>
           (<["samples" := Number samples]> {[ "direction" := Dir direction ]}))
  | InBlur _ intensity samples =>
      <["intensity" := Number intensity]> {[ "samples" := Number samples ]}
  | InGlitch _ seed => <["seed" := Number seed]> {[ "resolution" := Vec resolution ]}
  end.

(** The store after [_setTransitionEffect(shader, uniforms)]. *)
Definition replaced (old : option ref) (fx : TransitionEffect.t) (h : Heap) : Heap :=
  set_effects (λ l, l ++ [fx])
    match old with
    | Some e0 =>
        log (Released (OfEffect e0)) (set_effects (alter TransitionEffect.released e0) h)
    | None => h
    end.

(** The world after the start callback of [c]. *)
Definition started_at (c : Closure) (w : World) : World :=
  let p := this w in
  let h0 :=
    match c with
    | InGlitch _ _ =>
        set_vectors (λ l, l ++ [{| vx := _width p; vy := _height p |}]) (heap w)
    | _ => heap w
    end in
  let fx :=
    TransitionEffect.constructor (shader_of c)
      (initial_uniforms c (_width p) (_height p) (length (vectors (heap w)))) in
  let p' := set_transitionEffect (Some (length (effects (heap w)))) p in
  match c with
  | InNone _ =>
      {| this := p'; heap := log (Called OnStart None) (replaced (_transitionEffect p) fx h0) |}
  | _ =>
      {| this := set_enabled true p';
         heap := log (Called OnStart (Some (_prevBackground p, closure_background c)))
                   (replaced (_transitionEffect p) fx h0) |}
  end.

(** The uniforms an update callback of [c] writes for the amount [a]. *)
Definition written (c : Closure) (a width height : Q) (fx : TransitionEffect.t)
  : Uniforms :=
  match c with
  | InNone _ => ∅
  | InBlend _ => {[ "mixRatio" := Number a ]}
  | InWipe _ _ _ _ =>
      <["amount" := Number a]> {[ "aspect" := Number (width / height) ]}
  | InSlide _ _ _ _ _ | InBlur _ _ _ =>
      <["prevAmount" := TransitionEffect.getUniform "amount" fx]>
        {[ "amount" := Number a ]}
  | InGlitch _ _ => {[ "amount" := Number a ]}
  end.

(** The world after the update callback of [c] for the amount [a], the
    orchestrator's effect being [e], with the state [fx]. *)
Definition updated_at (c : Closure) (a : Q) (e : ref) (fx : TransitionEffect.t)
    (w : World) : World :=
  let p := this w in
  let called := log (Called OnUpdate (Some (_prevBackground p, closure_background c))) in
  match c with
  | InNone _ => {| this := p; heap := called (heap w) |}
  | InGlitch _ _ =>
      let h0 :=
        match TransitionEffect.getUniform "resolution" fx with
        | Vec v => set_vectors (<[v := {| vx := _width p; vy := _height p |}]>) (heap w)
        | _ => heap w
        end in
      {| this := p;
         heap := called (set_effects
                   (alter (TransitionEffect.updated (written c a (_width p) (_height p) fx)) e)
                   h0) |}
  | _ =>
      {| this := p;
         heap := called (set_effects
                   (alter (TransitionEffect.updated (written c a (_width p) (_height p) fx)) e)
                   (heap w)) |}
  end.

(** The world with the orchestrator's tween rewritten by [f]. *)
Definition marked (f : Tween.t -> Tween.t) (w : World) : World :=
  {| this := this w;
     heap := set_tweens (alter f (_transition (this w))) (heap w) |}.

(** The amount an update at [time] delivers: the tween animates [amount]
    from 0 to 1. *)
Definition progress (time : Q) (tw : Tween.t) : Q :=
  (0 + (1 - 0) * Tween._easingFunction tw (Tween.elapsed time tw))%Q.

(** The world after the start callback (when it has not run yet) and the
    update callback of one update at [time] of the orchestrator's tween
    [tw], whose callbacks are those of [c]. *)
Definition stepped (time : Q) (tw : Tween.t) (c : Closure) (w : World) : World :=
  let a := progress time tw in
  let w2 :=
    if Tween._onStartCallbackFired tw then w
    else marked (Tween.set_onStartCallbackFired true) (started_at c w) in
  let w3 := marked (Tween.set_object (Some a)) w2 in
  match _transitionEffect (this w3) with
  | Some e =>
      match effects (heap w3) !! e with
      | Some fx => updated_at c a e fx w3
      | None => w3
      end
  | None => w3
  end.

(** The world after [TWEEN.update] has retired the orchestrator's tween. *)
Definition finished (w : World) : World :=
  {| this := this w;
     heap := set_group (group_remove (_transition (this w)))
               (set_tweens (alter (Tween.set_isPlaying false) (_transition (this w)))
                  (heap w)) |}.

End ClosedForms.

Section Events.
Import Pass TransitionPass.

(** The release events of [dispose()] on the unit [bg] stored at [b], up
    to its throw when the unit is blank. *)
Definition dispose_events (bg : Background.t) (b : ref) : list Event :=
  match map (material (Background._plane bg)) with
  | Some _ => unit_released b
  | None => blank_unit_released b
  end.

(** The releases of [setSize(width, height)] of the pass [p] whose
    previous unit is [bg]: the buffer of that unit and the intermediate
    buffer, each when the call changes its size. *)
Definition setSize_events (width height : Q) (bg : Background.t) (p : Pass.t)
  : list Event :=
  (if WebGLRenderTarget_resizes width height (Background._buffer bg)
   then [Released (OfUnitBuffer (_prevBackground p))]
   else [])
  ++ (if WebGLRenderTarget_resizes width height (Pass._buffer p)
      then [Released OfIntermediateBuffer]
      else []).

(** The events of the start callback of [c] in the world [w]. *)
Definition start_events (c : Closure) (w : World) : list Event :=
  match _transitionEffect (this w) with
  | Some e0 => [Released (OfEffect e0)]
  | None => []
  end
  ++ [Called OnStart
        match c with
        | InNone _ => None
        | _ => Some (_prevBackground (this w), closure_background c)
        end].

(** The state of the effect [fx] after the update callback of [c] for the
    amount [a]. *)
Definition refreshed (c : Closure) (a width height : Q) (fx : TransitionEffect.t)
  : TransitionEffect.t :=
  match c with
  | InNone _ => fx
  | _ => TransitionEffect.updated (written c a width height fx) fx
  end.

End Events.

Section UpdateEvents.
Import Pass TransitionPass.

(** The events of one update at [time] of the orchestrator's tween [tw],
    whose callbacks are those of [c], in the world [w]: the start callback
    when it has not run yet, the update callback, and on completion the
    completion callback and the disposal of the previous unit. *)
Definition update_events (time : Q) (tw : Tween.t) (c : Closure) (w : World)
  : list Event :=
  let prev := _prevBackground (this w) in
  let args := Some (prev, closure_background c) in
  (if Tween._onStartCallbackFired tw then [] else start_events c w)
  ++ [Called OnUpdate args]
  ++ (if Qeq_bool (Tween.elapsed time tw) 1
      then Called OnComplete args
           :: match backgrounds (heap w) !! prev with
              | Some bg => dispose_events bg prev
              | None => []
              end
      else []).

End UpdateEvents.

Section Disposal.
Import Pass TransitionPass.

(** The world after [dispose()] has released the previous unit [prev],
    the intermediate buffer and the effect [e], from the world [w] in
    which the tween is stopped. *)
Definition released_all (prev e : ref) (w : World) : World :=
  {| this := this w;
     heap := log (Released (OfEffect e))
               (set_effects (alter TransitionEffect.released e)
                  (log_all (unit_released prev ++ [Released OfIntermediateBuffer])
                     (heap w))) |}.

End Disposal.

(** ** Further invariants of the reachable worlds *)

Section Liveness.
Import Pass TransitionPass.

(** The uniforms the start callback takes from the configuration and that
    no update callback writes. *)
Definition config_uniforms (c : Closure) : Uniforms :=
  match c with
  | InNone _ => {[ "mixRatio" := Number 1 ]}
  | InBlend _ => ∅
  | InWipe _ gradient angle direction =>
      <["gradient" := Number gradient]>
        (<["angle" := Radians angle]> {[ "direction" := Dir direction ]})
  | InSlide _ slides intensity samples direction =>
      <["slides" := Number slides]>
        (<["intensity" := Number intensity]>
           (<["samples" := Number samples]> {[ "direction" := Dir direction ]}))
  | InBlur _ intensity samples =>
      <["intensity" := Number intensity]> {[ "samples" := Number samples ]}
  | InGlitch _ seed => {[ "seed" := Number seed ]}
  end.

(** - A transition of kind [None] leaves the pass disabled.
    - While the tween of the pass plays and has started, the effect of the
      pass has not been disposed of.
    - Once the tween has started, the effect holds the uniforms of the
      configuration. *)
Record Live (w : World) : Prop := {
  live_none : ∀ tw b,
    current w = Some tw -> Tween._callbacks tw = Some (InNone b) ->
    enabled (this w) = false;
  live_effect : ∀ tw e fx,
    current w = Some tw -> Tween._isPlaying tw = true ->
    Tween._onStartCallbackFired tw = true ->
    _transitionEffect (this w) = Some e -> effects (heap w) !! e = Some fx ->
    TransitionEffect.disposed fx = false;
  live_config : ∀ tw c e fx,
    current w = Some tw -> Tween._onStartCallbackFired tw = true ->
    Tween._callbacks tw = Some c ->
    _transitionEffect (this w) = Some e -> effects (heap w) !! e = Some fx ->
    config_uniforms c ⊆ TransitionEffect.uniforms fx
}.

(** While the tween of the pass plays, has started and is not of the kind
    [None], and the previous unit has a backdrop texture, the pass is
    enabled. *)
Definition Lit (w : World) : Prop :=
  ∀ tw c bg,
    current w = Some tw -> Tween._isPlaying tw = true ->
    Tween._onStartCallbackFired tw = true -> Tween._callbacks tw = Some c ->
    closure_kind c ≠ None_ ->
    backgrounds (heap w) !! _prevBackground (this w) = Some bg -> ¬ blank bg ->
    enabled (this w) = true.

(** An update at [time] is at or after the start time of the tween of the
    pass; and it reaches the end of its duration. *)
Definition due (time : Q) (w : World) : bool :=
  match current w with
  | Some tw => Qle_bool (Tween._startTime tw) time
  | None => false
  end.

Definition completes (time : Q) (w : World) : bool :=
  match current w with
  | Some tw => Qle_bool (Tween._startTime tw) time && Qeq_bool (Tween.elapsed time tw) 1
  | None => false
  end.

(** The tween of the pass is that of a transition of the kind [None]. *)
Definition cuts (w : World) : bool :=
  match kind w with
  | Some None_ => true
  | _ => false
  end.

(** [w'] has the effect of [w], with the uniforms of [w], and a tween with
    the callbacks of the tween of [w], started if and only if that one
    is. *)
Definition Kept (w w' : World) : Prop :=
  _transitionEffect (this w') = _transitionEffect (this w)
  ∧ (∀ e fx', effects (heap w') !! e = Some fx' ->
       ∃ fx, effects (heap w) !! e = Some fx
             ∧ TransitionEffect.uniforms fx' = TransitionEffect.uniforms fx)
  ∧ (∀ tw', current w' = Some tw' ->
       ∃ tw, current w = Some tw
             ∧ Tween._onStartCallbackFired tw' = Tween._onStartCallbackFired tw
             ∧ Tween._callbacks tw' = Tween._callbacks tw).

End Liveness.

Section Frames.
Import Pass TransitionPass.

(** The events of [render(renderer, out)] on the unit [bg] stored at [b]. *)
Definition unit_render_events (bg : Background.t) (b : ref) (out : option Target)
  : list Event :=
  [CameraUpdate b; ParticlesUpdate b; SetRenderTarget (Some (UnitBuffer b)); RenderScene b]
  ++ if EffectPass_hasEffects (Background._effects bg)
     then [EffectPassRender b out (UnitBuffer b)]
     else [SetRenderTarget out; RenderScene b].

End Frames.

(** ** Further example runs *)

Module Scenario.
Import Example.

(** [{ duration: 1, delay: 1 }] *)
Definition delayed : Config.t :=
  {| Config.easing := None; Config.duration := Some 1%Q; Config.delay := Some 1%Q;
     Config.gradient := None; Config.angle := None; Config.direction := None;
     Config.slides := None; Config.intensity := None; Config.samples := None;
     Config.seed := None |}.

(** [{ duration: 2, gradient: 0.25, angle: 45, direction: WipeDirection.Left }] *)
Definition soft_wipe : Config.t :=
  {| Config.easing := None; Config.duration := Some 2%Q; Config.delay := None;
     Config.gradient := Some (1 # 4)%Q; Config.angle := Some 45%Q;
     Config.direction := Some Left;
     Config.slides := None; Config.intensity := None; Config.samples := None;
     Config.seed := None |}.

(** A blend to unit 1 that is run to its end. *)
Definition completed : World := after (Tick 1000) active.

(** A blend to no unit, started. *)
Definition to_nothing : World :=
  after (Tick 0) (after (Transition None Blend (lasting 1)) pass).

(** A transition of kind [None] to unit 1, started. *)
Definition cut : World :=
  after (Tick 0) (after (Transition (Some 1) None_ (lasting 1)) pass).

(** A wipe to unit 1, started, resized and updated. *)
Definition soft_wiping : World :=
  after (Tick 500)
    (after (SetSize 1024 768)
       (after (Tick 0) (after (Transition (Some 1) Wipe soft_wipe) pass))).

(** The second blend of [interrupted], started. *)
Definition restarted : World := after (Tick 0) interrupted.

End Scenario.

(** ** Runs of the public interface *)

(** The worlds the host application can bring about from the world [w0]. *)
Inductive Follows (w0 : World) : World -> Prop :=
| follows_here : Follows w0 w0
| follows_step op w : Follows w0 w -> allowed op w -> Follows w0 (snd (exec op w)).

(** ** Runs in which every unit has a backdrop texture *)

Section SuppliedRuns.
Import Pass TransitionPass.

(** No unit of the store is blank. *)
Definition textured_store (h : Heap) : Prop :=
  ∀ b bg, backgrounds h !! b = Some bg -> ¬ blank bg.

(** The host application makes its units from a texture and gives every
    transition a unit. *)
Definition supplied (op : Op) : Prop :=
  match op with
  | NewBackground texture _ _ => is_Some texture
  | Transition background _ _ => is_Some background
  | _ => True
  end.

(** The worlds such a host application can bring about, from a pass that
    was constructed with a unit. *)
Inductive Supplied : World -> Prop :=
| supplied_new b width height h :
    pristine h -> textured_store h -> known (Some b) h ->
    Supplied (constructor (Some b) width height h)
| supplied_step op w :
    Supplied w -> allowed op w -> supplied op -> Supplied (snd (exec op w)).

(** No unit is blank, and a playing transition leads to a unit. *)
Record Textured (w : World) : Prop := {
  tex_store : textured_store (heap w);
  tex_target : ∀ tw c,
    current w = Some tw -> Tween._isPlaying tw = true -> Tween._callbacks tw = Some c ->
    is_Some (closure_background c)
}.

End SuppliedRuns.

Section RenderEvents.

(** The events of rendering, as opposed to releases, calls of the host
    application's callbacks and the life cycle of tweens. *)
Definition is_render_event (ev : Event) : bool :=
  match ev with
  | CameraUpdate _ | ParticlesUpdate _ | SetRenderTarget _ | RenderScene _
  | EffectPassRender _ _ _ | EffectRender _ _ _ _ => true
  | _ => false
  end.

(** A frame loop that calls [render()] once for each of [frames], a write
    buffer and a read buffer, and goes on when a call raises. *)
Definition render_frames (frames : list (option Target * Target)) (w : World) : World :=
  fold_left (λ w frame, snd (TransitionPass.render frame.1 frame.2 w)) frames w.

End RenderEvents.

(** * Properties *)

#[local] Arguments mbind {_ _ _ _} _ _ /.
#[local] Arguments mret {_ _ _} _ /.
#[local] Arguments M_bind {S A B} f m s /.
#[local] Arguments M_ret {S A} a s /.
#[local] Arguments gets {S A} f s /.
#[local] Arguments modify {S} f s /.
#[local] Arguments throw {S A} e s /.
#[local] Arguments lift {A} m w /.
#[local] Arguments unless {S} b m /.
#[local] Arguments emit e /.
#[local] Arguments deref {A} sel r h /.
#[local] Arguments TransitionPass.field {A} f /.
#[local] Arguments fire invoke cb slot object /.
#[local] Arguments TransitionPass.the_effect /.

Lemma lookup_snoc {A} (l : list A) (x : A) : (l ++ [x]) !! length l = Some x.
Proof. by apply list_lookup_middle. Qed.

(** ** Scene units *)

Section SceneUnit.

Local Open Scope Q_scope.
Import Background.

Lemma blank_constructor width height : blank (constructor None width height).
Proof. reflexivity. Qed.

Lemma inverse_of_inverse (a b : Q) : ¬ a == 0 -> ¬ b == 0 -> 1 / (1 / (a / b)) == a / b.
Proof. intros Ha Hb. field. split; assumption. Qed.

(** C8.  A scene unit constructed from a texture with an image has a
    backdrop plane of width 1 and height [1 / (imageWidth / imageHeight)],
    so that (for non-degenerate images) width over height is the image's
    aspect ratio; without a texture, or with a texture without image, the
    aspect ratio is 1; the particle field is 1.1 times the plane in width
    and in height, and its depth bound is the camera's maximum
    full-screen depth for that plane. *)
Theorem constructor_geometry (texture : option Texture) (width height : Q) :
  let bg := constructor texture width height in
  let plane := geometry (_plane bg) in
  pg_width plane = 1
  ∧ (∀ tex img, texture = Some tex -> image tex = Some img ->
       pg_height plane = 1 / (img_width img / img_height img)
       ∧ (¬ img_width img == 0 -> ¬ img_height img == 0 ->
          pg_width plane / pg_height plane == img_width img / img_height img))
  ∧ ((texture = None ∨ ∃ tex, texture = Some tex ∧ image tex = None) ->
       textureAspectRatio texture = 1 ∧ pg_height plane = 1 / 1)
  ∧ p_width (_particles bg) = pg_width plane * (11 # 10)
  ∧ p_height (_particles bg) = pg_height plane * (11 # 10)
  ∧ (11 # 10) == 1 + (10 # 100)
  ∧ p_maxDepth (_particles bg) = MaxFullScreenDepthForPlane (_plane bg) (_camera bg) 0.
Proof.
  cbn zeta. split; [reflexivity|]. split; [|split; [|repeat split]].
  - intros tex img -> Himg. cbn. rewrite Himg. split; [reflexivity|].
    intros Hw Hh. apply inverse_of_inverse; assumption.
  - intros [-> | (tex & -> & Himg)]; cbn; [|rewrite Himg]; split; reflexivity.
Qed.

Lemma constructor_geometry_witness :
  let bg := constructor (Some {| image := Some {| img_width := 1920; img_height := 1080 |} |})
              800 600 in
  pg_height (geometry (_plane bg)) = 1 / (1920 / 1080)
  ∧ pg_width (geometry (_plane bg)) / pg_height (geometry (_plane bg)) == 1920 / 1080.
Proof.
  pose proof (constructor_geometry
    (Some {| image := Some {| img_width := 1920; img_height := 1080 |} |}) 800 600) as H.
  cbn zeta in H. destruct H as (_ & H & _).
  destruct (H _ _ eq_refl eq_refl) as [Hh Hr].
  split; [exact Hh | apply Hr; discriminate].
Defined.

End SceneUnit.

Import Pass TransitionPass.

(** Symbolic execution of the callbacks: unfold them and split on every
    branch. *)
Ltac crush_callback :=
  repeat first
    [ progress cbn
    | match goal with
      | |- context [match ?x with _ => _ end] =>
          lazymatch x with
          | context [match _ with _ => _ end] => fail
          | _ => destruct x eqn:?
          end
      end ].

Ltac unfold_callbacks :=
  unfold invoke, onInit, onStart, onUpdate, onComplete, onStop,
    base.onInit, base.onStart, base.onUpdate, base.onComplete, base.onStop,
    config_callback, onTransitionStart, onTransitionEnd, destructure_amount,
    _setTransitionEffect,
    TransitionEffect_dispose, TransitionEffect_new, TransitionEffect_getUniforms,
    TransitionEffect_updateUniforms, Vector2_new, Vector2_set,
    Background_dispose, Background_new.

(** ** The invariants hold in every reachable world *)

Section Invariants.

Section Lists.
Context {A : Type}.
Implicit Types (l : list A) (x y : A) (i j : nat).

Lemma lookup_snoc_Some l x y i :
  (l ++ [x]) !! i = Some y -> (i = length l ∧ y = x) ∨ (i < length l ∧ l !! i = Some y).
Proof.
  intros H. destruct (decide (i = length l)) as [->|Hn].
  - rewrite lookup_snoc in H. left. by inversion H.
  - right. assert (i < length l).
    { apply lookup_lt_Some in H. rewrite length_app in H. cbn in H. lia. }
    split; [done|]. by rewrite lookup_app_l in H.
Qed.

Lemma lookup_alter_Some (f : A -> A) l x i j :
  alter f i l !! j = Some x ->
  (i = j ∧ ∃ y, l !! j = Some y ∧ x = f y) ∨ (i ≠ j ∧ l !! j = Some x).
Proof.
  intros H. destruct (decide (i = j)) as [->|Hn].
  - left. split; [done|]. rewrite list_lookup_alter_eq in H.
    destruct (l !! j) as [y|]; inversion H. by exists y.
  - right. by rewrite list_lookup_alter_ne in H.
Qed.

End Lists.

Section FxLemmas.
Context (eff : option ref) (fxs : list TransitionEffect.t) (vecs : list Vector2).

Lemma Fx_release e0 :
  Fx (Some e0) fxs vecs -> Fx None (alter TransitionEffect.released e0 fxs) vecs.
Proof.
  intros [Hv Ho Hr]. split.
  - done.
  - intros e fx [[-> (fx0 & H0 & ->)]|[Hne Hl]]%lookup_alter_Some _; [done|].
    eapply Ho; [done|congruence].
  - intros e fx [[-> (fx0 & H0 & ->)]|[Hne Hl]]%lookup_alter_Some Hs;
      [exact (Hr _ _ H0 Hs)|by eapply Hr].
Qed.

Lemma Fx_released_current e :
  Fx (Some e) fxs vecs -> Fx (Some e) (alter TransitionEffect.released e fxs) vecs.
Proof.
  intros [Hv Ho Hr]. split.
  - intros ? [= <-]. rewrite length_alter. by apply Hv.
  - intros e' fx' [[-> (fx0 & H0 & ->)]|[Hne Hl]]%lookup_alter_Some Hn; [done|].
    by eapply Ho.
  - intros e' fx' [[-> (fx0 & H0 & ->)]|[Hne Hl]]%lookup_alter_Some Hs;
      [exact (Hr _ _ H0 Hs)|by eapply Hr].
Qed.

Lemma Fx_alloc sh (u : Uniforms) :
  Fx None fxs vecs ->
  (sh = GlitchShader -> ∃ v, u !! "resolution" = Some (Vec v) ∧ v < length vecs) ->
  Fx (Some (length fxs)) (fxs ++ [TransitionEffect.constructor sh u]) vecs.
Proof.
  intros [Hv Ho Hr] Hu. split.
  - intros ? [= <-]. rewrite length_app. cbn. lia.
  - intros e fx [[-> ->]|[Hlt Hl]]%lookup_snoc_Some Hne; [done|]. by eapply Ho.
  - intros e fx [[-> ->]|[Hlt Hl]]%lookup_snoc_Some Hs; [by apply Hu|by eapply Hr].
Qed.

Lemma Fx_updated e (partial : Uniforms) :
  Fx eff fxs vecs -> partial !! "resolution" = None ->
  Fx eff (alter (TransitionEffect.updated partial) e fxs) vecs.
Proof.
  intros [Hv Ho Hr] Hp. split.
  - intros e' He. rewrite length_alter. by apply Hv.
  - intros e' fx' [[-> (fx0 & H0 & ->)]|[Hne Hl]]%lookup_alter_Some Hn;
      [exact (Ho _ _ H0 Hn)|by eapply Ho].
  - intros e' fx' [[-> (fx0 & H0 & ->)]|[Hne Hl]]%lookup_alter_Some Hs; [|by eapply Hr].
    destruct (Hr _ _ H0 Hs) as (v & Hv' & Hlt). exists v. split; [|done].
    change ((partial ∪ TransitionEffect.uniforms fx0) !! "resolution" = Some (Vec v)).
    by rewrite lookup_union_r.
Qed.

Lemma Fx_vector_alloc v :
  Fx eff fxs vecs -> Fx eff fxs (vecs ++ [v]).
Proof.
  intros [Hv Ho Hr]. split; [done|done|].
  intros e fx Hl Hs. destruct (Hr _ _ Hl Hs) as (v' & ? & ?). exists v'.
  split; [done|]. rewrite length_app. lia.
Qed.

Lemma Fx_vector_set i v :
  Fx eff fxs vecs -> Fx eff fxs (<[i:=v]> vecs).
Proof.
  intros [Hv Ho Hr]. split; [done|done|].
  intros e fx Hl Hs. destruct (Hr _ _ Hl Hs) as (v' & ? & ?). exists v'.
  split; [done|]. by rewrite length_insert.
Qed.

End FxLemmas.

Lemma setTransitionEffect_spec (sh : Shader) (u : Uniforms) (w : World) :
  FxW w ->
  (sh = GlitchShader -> ∃ v, u !! "resolution" = Some (Vec v) ∧ v < length (vectors (heap w))) ->
  ∃ fxs tr,
    _setTransitionEffect sh u w =
      (Normal tt,
       {| this := set_transitionEffect (Some (length (effects (heap w)))) (this w);
          heap := set_effects (λ _, fxs ++ [TransitionEffect.constructor sh u])
                    (log_all tr (heap w)) |})
    ∧ length fxs = length (effects (heap w))
    ∧ (∀ e0, _transitionEffect (this w) = Some e0 ->
         ∃ fx0, fxs !! e0 = Some fx0 ∧ TransitionEffect.disposed fx0 = true)
    ∧ Fx (Some (length (effects (heap w)))) (fxs ++ [TransitionEffect.constructor sh u])
        (vectors (heap w)).
Proof.
  intros HF Hu. pose proof HF as [Hv Ho Hr]. unfold _setTransitionEffect. cbn.
  destruct (_transitionEffect (this w)) as [e0|] eqn:He; cbn.
  - unfold TransitionEffect_dispose. cbn.
    destruct (lookup_lt_is_Some_2 _ _ (Hv _ eq_refl)) as [fx0 Hfx0]. rewrite Hfx0. cbn.
    unfold TransitionEffect_new. cbn.
    exists (alter TransitionEffect.released e0 (effects (heap w))), [Released (OfEffect e0)].
    rewrite length_alter. split; [|split; [|split]].
    + destruct w as [p h]; destruct p, h; reflexivity.
    + done.
    + intros ? [= <-]. rewrite list_lookup_alter_eq, Hfx0. by eexists.
    + rewrite <- (length_alter TransitionEffect.released (effects (heap w)) e0).
      apply Fx_alloc; [|done]. apply Fx_release. unfold FxW in HF. by rewrite He in HF.
  - unfold TransitionEffect_new. cbn. exists (effects (heap w)), [].
    split; [|split; [|split]].
    + destruct w as [p h]; destruct p, h; cbn. unfold log_all, set_effects; cbn.
      by rewrite app_nil_r.
    + done.
    + done.
    + apply Fx_alloc; [|done]. unfold FxW in HF. by rewrite He in HF.
Qed.

#[local] Arguments _setTransitionEffect : simpl never.

Lemma onStart_spec (c : Closure) (w : World) :
  FxW w -> ∃ w', onStart c w = (Normal tt, w') ∧ Started c w w'.
Proof.
  intros HF.
  assert (∀ (fxs : list TransitionEffect.t) fx e0,
    length fxs = length (effects (heap w)) ->
    (∃ fx0, fxs !! e0 = Some fx0 ∧ TransitionEffect.disposed fx0 = true) ->
    ∃ fx0, (fxs ++ [fx]) !! e0 = Some fx0 ∧ TransitionEffect.disposed fx0 = true) as Hold'.
  { intros fxs fx e0 Hlen (fx0 & Hl & Hd). exists fx0. split; [|done].
    rewrite lookup_app_l; [done|]. by eapply lookup_lt_Some. }
  destruct c as [bg|bg|bg g a d|bg s i sa d|bg i sa|bg seed];
    unfold onStart, base.onStart, config_callback, onTransitionStart; cbn.
  6:{ set (w0 := {| this := this w; heap := _ |}).
      assert (FxW w0) as HF0 by (by apply Fx_vector_alloc).
      match goal with |- context [_setTransitionEffect ?sh ?u w0] =>
        destruct (setTransitionEffect_spec sh u w0 HF0)
          as (fxs & tr & Heq & Hlen & Hold & HFx) end.
      { intros _. exists (length (vectors (heap w))). split; [done|].
        cbn. rewrite length_app. cbn. lia. }
      rewrite Heq. subst w0. cbn in Hlen, Hold, HFx |- *.
      eexists. split; [reflexivity|].
      split; cbn; try done.
      - eexists. rewrite <- Hlen, lookup_snoc. split; [done|]. split; [done|].
        cbn. split; [done|]. eexists. split; [done|]. by rewrite lookup_snoc.
      - intros e0 He0. apply Hold'; [done|]. by apply Hold. }
  all: match goal with |- context [_setTransitionEffect ?sh ?u ?w1] =>
        destruct (setTransitionEffect_spec sh u w1 HF)
          as (fxs & tr & Heq & Hlen & Hold & HFx); [done|] end.
  all: rewrite Heq; cbn; eexists; (split; [reflexivity|]).
  all: split; cbn; try done.
  all: try (intros e0 He0; apply Hold'; [done|]; by apply Hold).
  all: eexists; rewrite <- Hlen, lookup_snoc; (split; [done|]); (split; [done|]); cbn.
  all: try done.
Qed.

Lemma lookup_union_singleton (k : string) (v : Value) (m : Uniforms) :
  ({[ k := v ]} ∪ m) !! k = Some v.
Proof. apply lookup_union_Some_l, lookup_singleton_eq. Qed.

Lemma onUpdate_spec (c : Closure) (a : Q) (e : ref) (fx : TransitionEffect.t) (w : World) :
  FxW w -> _transitionEffect (this w) = Some e -> effects (heap w) !! e = Some fx ->
  TransitionEffect.shader fx = shader_of c ->
  ∃ w', onUpdate c (Some a) w = (Normal tt, w') ∧ Updated c a e fx w w'.
Proof.
  intros HF He Hfx Hsh.
  destruct c as [bg|bg|bg g an d|bg s i sa d|bg i sa|bg seed];
    unfold onUpdate, base.onUpdate, config_callback, TransitionEffect_updateUniforms,
      TransitionEffect_getUniforms; cbn; repeat (first [rewrite He | rewrite Hfx]; cbn).
  - eexists. split; [reflexivity|]. split; cbn; try done. by exists fx.
  - eexists. split; [reflexivity|]. split; cbn; try done.
    + by apply Fx_updated.
    + intros e' Hne. by apply list_lookup_alter_ne.
    + eexists. rewrite list_lookup_alter_eq, Hfx. split; [done|]. cbn.
      split; [done|]. split; [done|]. split; [|done]. apply lookup_union_singleton.
  - eexists. split; [reflexivity|]. split; cbn; try done.
    + by apply Fx_updated.
    + intros e' Hne. by apply list_lookup_alter_ne.
    + eexists. rewrite list_lookup_alter_eq, Hfx. split; [done|]. cbn.
      split; [done|]. split; [done|]. split; by apply lookup_union_Some_l.
  - eexists. split; [reflexivity|]. split; cbn; try done.
    + by apply Fx_updated.
    + intros e' Hne. by apply list_lookup_alter_ne.
    + eexists. rewrite list_lookup_alter_eq, Hfx. split; [done|]. cbn.
      split; [done|]. split; [done|]. split; by apply lookup_union_Some_l.
  - eexists. split; [reflexivity|]. split; cbn; try done.
    + by apply Fx_updated.
    + intros e' Hne. by apply list_lookup_alter_ne.
    + eexists. rewrite list_lookup_alter_eq, Hfx. split; [done|]. cbn.
      split; [done|]. split; [done|]. split; by apply lookup_union_Some_l.
  - destruct (fx_resolution _ _ _ HF _ _ Hfx Hsh) as (v & Hres & Hv).
    unfold TransitionEffect.getUniform. rewrite Hres. cbn.
    unfold Vector2_set. cbn.
    destruct (lookup_lt_is_Some_2 _ _ Hv) as [vec Hvec]. rewrite Hvec. cbn.
    repeat (first [rewrite He | rewrite Hfx]; cbn).
    eexists. split; [reflexivity|]. split; cbn; try done.
    + apply Fx_updated; [|done]. by apply Fx_vector_set.
    + intros e' Hne. by apply list_lookup_alter_ne.
    + eexists. rewrite list_lookup_alter_eq, Hfx. split; [done|]. cbn.
      split; [done|]. split; [done|]. split; [apply lookup_union_singleton|].
      exists v. split.
      * rewrite lookup_union_r; done.
      * by apply list_lookup_insert_eq.
Qed.

Section EngineLemmas.
Context (tws : list Tween.t) (g : list ref) (cur : ref).

Lemma configured_set_isPlaying b tw : configured tw -> configured (Tween.set_isPlaying b tw).
Proof. intros (c & a & ?). by exists c, a. Qed.

Lemma configured_set_fired b tw :
  configured tw -> configured (Tween.set_onStartCallbackFired b tw).
Proof. intros (c & a & ?). by exists c, a. Qed.

Lemma configured_set_object a tw : configured tw -> configured (Tween.set_object (Some a) tw).
Proof. intros (c & a0 & ? & ? & ? & ?). by exists c, a. Qed.

Lemma Engine_alter (f : Tween.t -> Tween.t) i :
  Engine tws g cur ->
  (∀ tw, Tween._isPlaying (f tw) = Tween._isPlaying tw) ->
  (∀ tw, tws !! i = Some tw ->
     Tween._isPlaying (f tw) = true ∨ Tween._onStartCallbackFired (f tw) = true ->
     configured (f tw)) ->
  Engine (alter f i tws) g cur.
Proof.
  intros [Hc Hg Hs Hk] Hp Hf. split.
  - destruct Hc as [tw Htw]. destruct (decide (i = cur)) as [->|Hn].
    + rewrite list_lookup_alter_eq, Htw. by eexists.
    + rewrite list_lookup_alter_ne by done. by eexists.
  - intros tw [[-> (tw0 & H0 & ->)]|[Hne Hl]]%lookup_alter_Some.
    + rewrite Hp. by apply Hg.
    + by apply Hg.
  - intros j tw [[-> (tw0 & H0 & ->)]|[Hne Hl]]%lookup_alter_Some Hpl.
    + rewrite Hp in Hpl. by eapply Hs.
    + by eapply Hs.
  - intros j tw [[-> (tw0 & H0 & ->)]|[Hne Hl]]%lookup_alter_Some Hpl.
    + by apply Hf.
    + by eapply Hk.
Qed.

Lemma group_remove_singleton i : group_remove i [i] = [].
Proof. unfold group_remove. cbn. by rewrite decide_False by (by intros ?). Qed.

Lemma Engine_stopped :
  Engine tws g cur ->
  Engine (alter (Tween.set_isPlaying false) cur tws) (group_remove cur g) cur.
Proof.
  intros [Hc Hg Hs Hk]. destruct Hc as [tw Htw]. split.
  - rewrite list_lookup_alter_eq, Htw. by eexists.
  - intros tw'. rewrite list_lookup_alter_eq, Htw. intros [= <-]. cbn.
    rewrite (Hg _ Htw). destruct (Tween._isPlaying tw); [apply group_remove_singleton|done].
  - intros j tw' [[-> (tw0 & H0 & ->)]|[Hne Hl]]%lookup_alter_Some Hpl; [done|].
    by eapply Hs.
  - intros j tw' [[-> (tw0 & H0 & ->)]|[Hne Hl]]%lookup_alter_Some Hpl.
    + apply configured_set_isPlaying. eapply Hk; [done|].
      destruct Hpl as [Hpl|Hpl]; [done|by right].
    + by eapply Hk.
Qed.

Lemma Engine_begin (now : Q) (duration : Q) (easing : Q -> Q) (c : Closure) (delay : Q) :
  Engine tws g cur ->
  (∀ tw, tws !! cur = Some tw -> Tween._isPlaying tw = false) ->
  Engine
    (alter (Tween.started now) (length tws)
       (tws ++ [Tween.configure 1 duration easing c delay (Tween.constructor (Some 0%Q))]))
    (group_add (length tws) g) (length tws).
Proof.
  intros [Hc Hg Hs Hk] Hnp. destruct Hc as [tw Htw].
  assert (g = []) as ->. { rewrite (Hg _ Htw). by rewrite (Hnp _ Htw). }
  split.
  - rewrite list_lookup_alter_eq, lookup_snoc. by eexists.
  - intros tw'. rewrite list_lookup_alter_eq, lookup_snoc. by intros [= <-].
  - intros j tw' [[<- (tw0 & H0 & ->)]|[Hne Hl]]%lookup_alter_Some Hpl; [done|].
    apply lookup_snoc_Some in Hl as [[-> ->]|[Hlt Hl]]; [done|].
    pose proof (Hs _ _ Hl Hpl) as ->. by rewrite (Hnp _ Hl) in Hpl.
  - intros j tw' [[<- (tw0 & H0 & ->)]|[Hne Hl]]%lookup_alter_Some Hpl.
    + rewrite lookup_snoc in H0. inversion H0; subst. by exists c, 0%Q.
    + apply lookup_snoc_Some in Hl as [[-> ->]|[Hlt Hl]]; [done|]. by eapply Hk.
Qed.

End EngineLemmas.

Lemma invoke_engine cb c o w :
  engine_view (snd (invoke cb c o w)) = engine_view w.
Proof.
  unfold engine_view. destruct cb, c; unfold_callbacks; crush_callback; done.
Qed.

Lemma end_spec cb c o w :
  cb = OnComplete ∨ cb = OnStop ->
  _prevBackground (this w) < length (backgrounds (heap w)) ->
  (∀ b, closure_background c = Some b -> b < length (backgrounds (heap w))) ->
  Ended w (snd (invoke cb c o w)).
Proof.
  intros Hcb Hprev Hc. split.
  - apply invoke_engine.
  - destruct Hcb as [-> | ->]; unfold_callbacks; crush_callback; done.
  - destruct Hcb as [-> | ->]; unfold_callbacks; crush_callback; done.
  - destruct Hcb as [-> | ->]; unfold_callbacks; crush_callback; done.
  - destruct Hcb as [-> | ->]; unfold_callbacks; crush_callback; done.
  - destruct Hcb as [-> | ->]; unfold_callbacks; crush_callback; done.
  - destruct Hcb as [-> | ->]; unfold_callbacks; crush_callback; done.
  - destruct Hcb as [-> | ->]; unfold_callbacks; crush_callback;
      rewrite ?length_app; cbn; try done; try lia; try (by apply Hc).
  - destruct Hcb as [-> | ->]; unfold_callbacks; crush_callback;
      rewrite ?length_app; cbn; lia.
Qed.

Lemma current_view w w' : engine_view w' = engine_view w -> current w' = current w.
Proof. unfold engine_view, current. by intros [= -> _ ->]. Qed.

Lemma playing_view w w' : engine_view w' = engine_view w -> playing w' = playing w.
Proof. intros H. unfold playing. by rewrite (current_view _ _ H). Qed.

Lemma started_view w w' : engine_view w' = engine_view w -> started w' = started w.
Proof. intros H. unfold started. by rewrite (current_view _ _ H). Qed.

Lemma Units_grow prev tws n n' : Units prev tws n -> n ≤ n' -> Units prev tws n'.
Proof.
  intros [Hp Hn] Hle. split; [lia|]. intros i tw c b ? ? ?.
  eapply Nat.lt_le_trans; [by eapply Hn|done].
Qed.

Lemma Units_alter (f : Tween.t -> Tween.t) i prev tws n :
  Units prev tws n -> (∀ tw, Tween._callbacks (f tw) = Tween._callbacks tw) ->
  Units prev (alter f i tws) n.
Proof.
  intros [Hp Hn] Hf. split; [done|].
  intros j tw c b [[-> (tw0 & H0 & ->)]|[Hne Hl]]%lookup_alter_Some Hc Hb.
  - rewrite Hf in Hc. by eapply Hn.
  - by eapply Hn.
Qed.

Lemma Inv0_frame (w w' : World) :
  engine_view w' = engine_view w ->
  _prevBackground (this w') = _prevBackground (this w) ->
  length (backgrounds (heap w)) ≤ length (backgrounds (heap w')) ->
  _transitionEffect (this w') = _transitionEffect (this w) ->
  effects (heap w') = effects (heap w) ->
  vectors (heap w') = vectors (heap w) ->
  Inv0 w -> Inv0 w'.
Proof.
  intros He Hp Hb Hx Hfx Hv [HE HU HF HL].
  pose proof He as He'. unfold engine_view in He'. injection He' as Ht Hg Hc.
  split.
  - by rewrite Ht, Hg, Hc.
  - rewrite Ht, Hp. by eapply Units_grow.
  - by rewrite Hx, Hfx, Hv.
  - intros tw Hcur Hf. rewrite (current_view _ _ He) in Hcur.
    destruct (HL tw Hcur Hf) as (c & a & e & fx & ?). exists c, a, e, fx.
    by rewrite Hx, Hfx.
Qed.

Lemma Inv_frame (w w' : World) :
  engine_view w' = engine_view w ->
  enabled (this w') = enabled (this w) ->
  _prevBackground (this w') = _prevBackground (this w) ->
  length (backgrounds (heap w)) ≤ length (backgrounds (heap w')) ->
  _transitionEffect (this w') = _transitionEffect (this w) ->
  effects (heap w') = effects (heap w) ->
  vectors (heap w') = vectors (heap w) ->
  Inv w -> Inv w'.
Proof.
  intros He Hen Hp Hb Hx Hfx Hv [H0 HG]. split; [by eapply Inv0_frame|].
  unfold Gated. rewrite Hen, (playing_view _ _ He), (started_view _ _ He). done.
Qed.

#[local] Arguments invoke : simpl never.

(** Stopping the orchestrator's tween. *)
Lemma stop_spec (w : World) :
  Inv w ->
  let r := Tween_stop invoke (_transition (this w)) w in
  Inv (snd r) ∧ playing (snd r) = false
  ∧ _transition (this (snd r)) = _transition (this w)
  ∧ length (tweens (heap (snd r))) = length (tweens (heap w))
  ∧ _transitionEffect (this (snd r)) = _transitionEffect (this w)
  ∧ effects (heap (snd r)) = effects (heap w)
  ∧ vectors (heap (snd r)) = vectors (heap w)
  ∧ length (backgrounds (heap w)) ≤ length (backgrounds (heap (snd r)))
  ∧ (playing w = true -> enabled (this (snd r)) = false).
Proof.
  intros [[HE HU HF HL] HG]. cbn zeta.
  destruct (eng_current _ _ _ HE) as [tw Htw].
  assert (current w = Some tw) as Hcur by done.
  unfold Tween_stop. cbn. rewrite Htw. cbn.
  destruct (Tween._isPlaying tw) eqn:Hp; cbn.
  - destruct (eng_configured _ _ _ HE _ _ Htw (or_introl Hp)) as (c & a & Hc & Ha & _).
    rewrite Hc. cbn.
    set (w1 := {| this := this w; heap := _ |}).
    assert (Ended w1 (snd (invoke OnStop c (Tween._object tw) w1))) as HEnd.
    { apply end_spec; [by right| |]; subst w1; cbn.
      - apply HU.
      - intros b Hb. by eapply (units_next _ _ _ HU). }
    destruct (invoke OnStop c (Tween._object tw) w1) as [r w2]. cbn in *.
    destruct HEnd as [He Hen Hfx Hv Hx Hwi Hhe Hpr Hun].
    pose proof He as He'. unfold engine_view in He'. subst w1. cbn in He'.
    injection He' as Ht Hg Hc'.
    assert (playing w2 = false) as Hpl.
    { unfold playing, current. rewrite Ht, Hc', list_lookup_alter_eq, Htw. done. }
    split; [|rewrite Ht, length_alter; cbn in *; done].
    split; [split|].
    + rewrite Ht, Hg, Hc'. by apply Engine_stopped.
    + rewrite Ht. apply Units_alter; [|done]. split; [done|].
      intros i tw' c' b ? ? ?. eapply Nat.lt_le_trans; [by eapply (units_next _ _ _ HU)|done].
    + by rewrite Hx, Hfx, Hv.
    + intros tw' Hcur' Hf'. unfold current in Hcur'.
      rewrite Ht, Hc', list_lookup_alter_eq, Htw in Hcur'. injection Hcur' as <-.
      destruct (HL tw Hcur Hf') as (c0 & a0 & e & fx & ?). exists c0, a0, e, fx.
      by rewrite Hx, Hfx.
    + intros Hen'. by rewrite Hen in Hen'.
  - assert (playing w = false) as Hpl by (unfold playing; by rewrite Hcur).
    split; [done|]. split; [done|]. split; [done|]. split; [done|].
    split; [done|]. split; [done|]. split; [done|]. split; [done|].
    intros H. by rewrite Hpl in H.
Qed.

Lemma set_fired_idem tw :
  Tween._onStartCallbackFired tw = true -> Tween.set_onStartCallbackFired true tw = tw.
Proof. destruct tw; cbn. by intros ->. Qed.

Lemma update_live c w w0 fx fx' vecs :
  update_uniforms c w0 fx fx' vecs ->
  _width (this w0) = _width (this w) -> _height (this w0) = _height (this w) ->
  live_uniforms c w fx' vecs.
Proof. intros H Hw Hh. destruct c; cbn in *; try done; by rewrite Hw, Hh in H. Qed.

Lemma world_eta (w : World) : {| this := this w; heap := heap w |} = w.
Proof. by destruct w. Qed.

Lemma update_spec (w : World) (tw : Tween.t) (c : Closure) (time : Q) :
  Inv w -> current w = Some tw -> Tween._isPlaying tw = true ->
  Tween._callbacks tw = Some c -> Qle_bool (Tween._startTime tw) time = true ->
  let a := (0 + (1 - 0) * Tween._easingFunction tw (Tween.elapsed time tw))%Q in
  ∃ w', Stepped tw c a w w'
    ∧ Tween_update invoke (_transition (this w)) time w =
        if Qeq_bool (Tween.elapsed time tw) 1
        then (invoke OnComplete c (Some a);; mret false) w'
        else (Normal true, w').
Proof.
  intros [[HE HU HF HL] HG] Hcur Hp Hc Hle. cbn zeta.
  pose proof Hcur as Htw. unfold current in Htw.
  destruct (eng_configured _ _ _ HE _ _ Htw (or_introl Hp))
    as (c0 & a0 & Hc0 & Ha0 & Hvs & Hve).
  assert (c0 = c) as -> by congruence.
  unfold Tween_update. cbn. rewrite Htw. cbn. rewrite Hle. cbn. rewrite Hc. cbn.
  unfold Tween.interpolate. rewrite Hvs, Hve.
  set (a := (0 + (1 - 0) * Tween._easingFunction tw (Tween.elapsed time tw))%Q).
  destruct (Tween._onStartCallbackFired tw) eqn:Hf; cbn.
  - destruct (HL tw Hcur Hf) as (c1 & a1 & e & fx & Hc1 & Ha1 & He & Hfx & Hsh & Hok).
    assert (c1 = c) as -> by congruence.
    set (w3 := {| this := this w; heap := _ |}).
    destruct (onUpdate_spec c a e fx w3) as (w4 & Heq & [Hth Hen Hun Hfx4 Hoth Hef]);
      try done.
    unfold invoke at 1. rewrite Heq. cbn.
    pose proof Hen as Hen'. unfold engine_view in Hen'. subst w3. cbn in *.
    injection Hen' as Ht Hg Hcu.
    destruct Hef as (fx' & Hl' & Hsh' & Hd' & Hok' & Huu).
    assert (current w4 = Some (Tween.set_object (Some a) (Tween.set_onStartCallbackFired true tw)))
      as Hcur4.
    { unfold current. rewrite Ht, Hcu, list_lookup_alter_eq, Htw. cbn.
      by rewrite set_fired_idem. }
    exists w4. split; [|by destruct (Qeq_bool _ _)].
    split; rewrite ?Hth; try done.
    + split; [split|].
      * rewrite Ht, Hg, Hth. apply Engine_alter; [done|done|].
        intros tw' Htw' _. rewrite Htw in Htw'. injection Htw' as <-.
        apply configured_set_object. by exists c, a0.
      * rewrite Ht, Hun, Hth. by apply Units_alter.
      * done.
      * intros tw' Hcur' Hf'. rewrite Hcur4 in Hcur'. injection Hcur' as <-.
        exists c, a, e, fx'. cbn. rewrite Hsh', Hth. done.
      * intros _. unfold playing, started. rewrite Hcur4. cbn. done.
    + by rewrite Ht, length_alter.
    + exists e, fx'. rewrite Hsh'. repeat split; try done.
      eapply update_live; [done|done|done].
    + intros _ e' fx0 He' Hfx0. assert (e' = e) as -> by congruence.
      assert (fx0 = fx) as -> by congruence. split; [done|]. by exists fx'.
    + intros Hf'. congruence.
  - destruct (onStart_spec c w HF) as (w1 & Heq1 &
      [Hen1 Hpr1 Hun1 Hwi1 Hhe1 Hena1 HF1 Hef1 (fx1 & Hl1 & Hsh1 & Hst1) Hold1]).
    rewrite world_eta. unfold invoke at 1. rewrite Heq1. cbn.
    pose proof Hen1 as Hen1'. unfold engine_view in Hen1'. injection Hen1' as Ht1 Hg1 Hcu1.
    set (w3 := {| this := this w1; heap := _ |}).
    destruct (onUpdate_spec c a (length (effects (heap w))) fx1 w3)
      as (w4 & Heq & [Hth Hen Hun Hfx4 Hoth Hef]); try done.
    unfold invoke at 1. rewrite Heq. cbn.
    pose proof Hen as Hen'. unfold engine_view in Hen'. subst w3. cbn in *.
    injection Hen' as Ht Hg Hcu.
    destruct Hef as (fx' & Hl' & Hsh' & Hd' & Hok' & Huu).
    assert (current w4 = Some (Tween.set_object (Some a) (Tween.set_onStartCallbackFired true tw)))
      as Hcur4.
    { unfold current. rewrite Ht, Hcu, Ht1, Hcu1, !list_lookup_alter_eq, Htw. done. }
    exists w4. split; [|by destruct (Qeq_bool _ _)].
    split; rewrite ?Hth; try done.
    + split; [split|].
      * rewrite Ht, Hg, Hth, Ht1, Hg1, Hcu1.
        apply Engine_alter; [|done|].
        -- apply Engine_alter; [done|done|].
           intros tw' Htw' _. rewrite Htw in Htw'. injection Htw' as <-.
           apply configured_set_fired. by exists c, a0.
        -- intros tw'. rewrite list_lookup_alter_eq, Htw. intros [= <-] _.
           apply configured_set_object, configured_set_fired. by exists c, a0.
      * rewrite Ht, Hun, Hth, Hpr1, Ht1, Hun1. apply Units_alter; [apply Units_alter|]; done.
      * done.
      * intros tw' Hcur' Hf'. rewrite Hcur4 in Hcur'. injection Hcur' as <-.
        exists c, a, (length (effects (heap w))), fx'. cbn. rewrite Hsh', Hth. done.
      * intros _. unfold playing, started. rewrite Hcur4. cbn. done.
    + by rewrite Hg, Hg1.
    + by rewrite Ht, Ht1, !length_alter.
    + by rewrite Hun, Hun1.
    + exists (length (effects (heap w))), fx'. rewrite Hsh'. repeat split; try done.
      eapply update_live; [done|done|done].
    + intros Hf'. congruence.
    + intros _. split; [done|]. split; [done|]. intros e0 He0.
      destruct (Hold1 e0 He0) as (fx0 & Hl0 & Hd0).
      destruct (decide (e0 = length (effects (heap w)))) as [->|Hne].
      * exists fx'. split; [done|]. rewrite Hd'. congruence.
      * exists fx0. split; [|done]. by rewrite Hoth.
Qed.

#[local] Arguments Tween_update : simpl never.

Lemma M_bind_eq {S A B} (f : A -> M S B) (m : M S A) (s : S) :
  M_bind f m s =
    match m s with
    | (Normal a, s') => f a s'
    | (Throw e, s') => (Throw e, s')
    end.
Proof. reflexivity. Qed.

Lemma ended_Inv (w w' : World) : Inv0 w -> Ended w w' -> Inv w'.
Proof.
  intros H0 [He Hen Hfx Hv Hx Hwi Hhe Hpr Hun]. split.
  - destruct H0 as [HE HU HF HL].
    pose proof He as He'. unfold engine_view in He'. injection He' as Ht Hg Hc.
    split.
    + by rewrite Ht, Hg, Hc.
    + rewrite Ht. split; [done|]. intros i tw c b ? ? ?.
      eapply Nat.lt_le_trans; [by eapply (units_next _ _ _ HU)|done].
    + by rewrite Hx, Hfx, Hv.
    + intros tw Hcur Hf. rewrite (current_view _ _ He) in Hcur.
      destruct (HL tw Hcur Hf) as (c & a & e & fx & ?). exists c, a, e, fx.
      by rewrite Hx, Hfx.
  - intros H. by rewrite Hen in H.
Qed.

Lemma at_time_Inv time w : Inv w -> Inv (at_time time w).
Proof. by apply Inv_frame. Qed.

Lemma finished_Inv (w : World) :
  Inv w -> enabled (this w) = false ->
  Inv {| this := this w;
         heap := set_group (group_remove (_transition (this w)))
                   (set_tweens (alter (Tween.set_isPlaying false) (_transition (this w)))
                      (heap w)) |}.
Proof.
  intros [[HE HU HF HL] HG] Hen. split; [split|]; cbn.
  - by apply Engine_stopped.
  - by apply Units_alter.
  - done.
  - intros tw. unfold current. cbn.
    destruct (eng_current _ _ _ HE) as [tw0 Htw0].
    rewrite list_lookup_alter_eq, Htw0. intros [= <-] Hf.
    destruct (HL tw0 Htw0 Hf) as (c & a & e & fx & ?). by exists c, a, e, fx.
  - intros H. cbn in H. congruence.
Qed.

Lemma Stepped_at_time tw c a time w w' :
  Stepped tw c a (at_time time w) w' -> Stepped tw c a w w'.
Proof. intros []. by split. Qed.

Lemma tick_idle (w : World) (time : Q) :
  Inv w -> playing w = false -> TransitionPass.tick time w = (Normal tt, at_time time w).
Proof.
  intros [[HE _ _ _] _] Hp. destruct (eng_current _ _ _ HE) as [tw Htw].
  pose proof (eng_group _ _ _ HE _ Htw) as Hg.
  unfold playing, current in Hp. rewrite Htw in Hp. rewrite Hp in Hg.
  unfold TransitionPass.tick, TWEEN_update. cbn. by rewrite Hg.
Qed.

Lemma tick_waiting (w : World) (tw : Tween.t) (time : Q) :
  Inv w -> current w = Some tw -> Qle_bool (Tween._startTime tw) time = false ->
  TransitionPass.tick time w = (Normal tt, at_time time w).
Proof.
  intros [[HE _ _ _] _] Htw Hle. unfold current in Htw.
  pose proof (eng_group _ _ _ HE _ Htw) as Hg.
  unfold TransitionPass.tick, TWEEN_update. cbn. rewrite Hg.
  destruct (Tween._isPlaying tw); [|done]. cbn.
  unfold TWEEN_update_one. cbn. rewrite Hg.
  rewrite decide_True by apply list_elem_of_singleton, eq_refl.
  unfold Tween_update. cbn. rewrite Htw. cbn. rewrite Hle. cbn. done.
Qed.

Lemma tick_spec (w : World) (tw : Tween.t) (c : Closure) (time : Q) :
  Inv w -> current w = Some tw -> Tween._isPlaying tw = true ->
  Tween._callbacks tw = Some c -> Qle_bool (Tween._startTime tw) time = true ->
  let a := (0 + (1 - 0) * Tween._easingFunction tw (Tween.elapsed time tw))%Q in
  let r := TransitionPass.tick time w in
  ∃ w', Stepped tw c a w w'
    ∧ Inv (snd r)
    ∧ effects (heap (snd r)) = effects (heap w')
    ∧ vectors (heap (snd r)) = vectors (heap w')
    ∧ _transitionEffect (this (snd r)) = _transitionEffect (this w')
    ∧ (if Qeq_bool (Tween.elapsed time tw) 1
       then enabled (this (snd r)) = false
            ∧ (fst r = Normal tt -> playing (snd r) = false)
       else r = (Normal tt, w')).
Proof.
  intros HI Hcur Hp Hc Hle. cbn zeta.
  pose proof (at_time_Inv time w HI) as HI0.
  destruct (update_spec (at_time time w) tw c time HI0 Hcur Hp Hc Hle)
    as (w' & HS & Heq).
  exists w'. split; [by eapply Stepped_at_time|].
  destruct HI as [[HE _ _ _] _]. pose proof Hcur as Htw. unfold current in Htw.
  pose proof (eng_group _ _ _ HE _ Htw) as Hg. rewrite Hp in Hg.
  unfold TransitionPass.tick, TWEEN_update. cbn. rewrite Hg. cbn.
  unfold TWEEN_update_one. cbn. rewrite Hg.
  rewrite decide_True by apply list_elem_of_singleton, eq_refl.
  change {| this := this w; heap := set_now time (heap w) |} with (at_time time w).
  change (_transition (this w)) with (_transition (this (at_time time w))).
  rewrite M_bind_eq, Heq.
  destruct (Qeq_bool (Tween.elapsed time tw) 1); cbn.
  - destruct HS as [HI' Hcur' Hg' Ht' Hl' Hwi' Hhe' Hpr' Hun' Hef' _ _].
    assert (Ended w' (snd (invoke OnComplete c
       (Some (0 + (1 - 0) * Tween._easingFunction tw (Tween.elapsed time tw))%Q) w')))
      as HEnd.
    { destruct HI' as [[_ HU' _ _] _]. apply end_spec; [by left|apply HU'|].
      intros b Hb. eapply (units_next _ _ _ HU'); [exact Hcur'|done|done]. }
    pose proof (ended_Inv _ _ (proj1 HI') HEnd) as HI5.
    destruct (invoke OnComplete c _ w') as [[[]|err] w5]; cbn in *.
    + destruct HEnd as [He Hen Hfx Hv Hx Hwi Hhe Hpr Hun].
      pose proof He as He'. unfold engine_view in He'. injection He' as Ht Hgr Hcu.
      rewrite <- Ht', <- Hcu.
      split; [by apply finished_Inv|].
      split; [done|]. split; [done|]. split; [done|]. split; [done|].
      intros _. unfold playing, current. cbn.
      destruct HI5 as [[HE5 _ _ _] _]. destruct (eng_current _ _ _ HE5) as [tw5 Htw5].
      by rewrite list_lookup_alter_eq, Htw5.
    + destruct HEnd as [He Hen Hfx Hv Hx Hwi Hhe Hpr Hun].
      split; [done|]. split; [done|]. split; [done|]. split; [done|]. by split.
  - by destruct HS.
Qed.

Lemma tick_Inv (w : World) (time : Q) : Inv w -> Inv (snd (TransitionPass.tick time w)).
Proof.
  intros HI. pose proof HI as [[HE _ _ _] _].
  destruct (eng_current _ _ _ HE) as [tw Htw].
  destruct (Tween._isPlaying tw) eqn:Hp.
  - destruct (Qle_bool (Tween._startTime tw) time) eqn:Hle.
    + destruct (eng_configured _ _ _ HE _ _ Htw (or_introl Hp)) as (c & a & Hc & _).
      destruct (tick_spec w tw c time HI Htw Hp Hc Hle) as (w' & _ & HI' & _). done.
    + rewrite (tick_waiting w tw time HI Htw Hle). by apply at_time_Inv.
  - rewrite (tick_idle w time HI); [by apply at_time_Inv|].
    unfold playing, current. by rewrite Htw.
Qed.

#[local] Arguments Tween_stop : simpl never.

Lemma getTransitionConfig_eq background k config w :
  _getTransitionConfig background k config w =
    (Normal (resolved background k config (heap w)),
     {| this := this w; heap := drawn k config (heap w) |}).
Proof.
  destruct w as [p h]. unfold _getTransitionConfig, drawn, resolved.
  destruct k; cbn; try reflexivity.
  destruct (Config.seed config); reflexivity.
Qed.

Lemma begin_eq (r : Resolved.t) (w : World) :
  begin r w =
    match Tween_stop invoke (_transition (this w)) w with
    | (Normal _, w1) => (Normal tt, begun r w1)
    | (Throw e, w1) => (Throw e, w1)
    end.
Proof.
  unfold begin. cbn.
  destruct (Tween_stop invoke (_transition (this w)) w) as [[[]|e] w1]; [|done].
  unfold invoke, onInit, base.onInit, config_callback, Tween_new, Tween_start. cbn.
  rewrite lookup_snoc. cbn. f_equal. unfold begun. f_equal.
  unfold set_tweens, set_group, log_all, log. cbn. f_equal.
  by rewrite <- app_assoc.
Qed.

Lemma closure_background_resolve background k config h :
  closure_background (resolve background k config h) = background.
Proof. by destruct k. Qed.

Lemma begun_Inv background k config h (w : World) :
  Inv w -> playing w = false -> known background (heap w) ->
  Inv (begun (resolved background k config h) w).
Proof.
  intros [[HE HU HF HL] HG] Hp Hk. 
  destruct (eng_current _ _ _ HE) as [tw Htw].
  assert (Tween._isPlaying tw = false) as Hnp.
  { unfold playing, current in Hp. by rewrite Htw in Hp. }
  assert (enabled (this w) = false) as Hen.
  { destruct (enabled (this w)) eqn:E; [|done]. destruct (HG E) as [HG1 _]. congruence. }
  split; [split|]; cbn.
  - eapply Engine_begin; [exact HE|]. intros tw' Htw'. congruence.
  - split; [apply HU|].
    intros i tw' c b [[<- (tw0 & H0 & ->)]|[Hne Hl]]%lookup_alter_Some Hc Hb.
    + rewrite lookup_snoc in H0. injection H0 as <-. cbn in Hc. injection Hc as <-.
      rewrite closure_background_resolve in Hb. subst. done.
    + apply lookup_snoc_Some in Hl as [[-> ->]|[Hlt Hl]]; [done|].
      by eapply (units_next _ _ _ HU).
  - done.
  - intros tw'. unfold current. cbn. rewrite list_lookup_alter_eq, lookup_snoc. cbn.
    by intros [= <-].
  - intros H. cbn in H. congruence.
Qed.

Lemma transition_eq background k config (w : World) :
  TransitionPass.transition background k config w =
    begin (resolved background k config (heap w))
      {| this := this w; heap := drawn k config (heap w) |}.
Proof. unfold TransitionPass.transition. cbn. by rewrite getTransitionConfig_eq. Qed.

Lemma drawn_Inv k config (w : World) :
  Inv w -> Inv {| this := this w; heap := drawn k config (heap w) |}.
Proof.
  apply Inv_frame; try done; unfold drawn; cbn; destruct k; try done;
    destruct (Config.seed config); done.
Qed.

Lemma known_grow background (h h' : Heap) :
  known background h -> length (backgrounds h) ≤ length (backgrounds h') ->
  known background h'.
Proof. destruct background; cbn; [lia|done]. Qed.

Lemma transition_Inv background k config (w : World) :
  Inv w -> known background (heap w) ->
  Inv (snd (TransitionPass.transition background k config w)).
Proof.
  intros HI Hk. rewrite transition_eq, begin_eq.
  pose proof (drawn_Inv k config w HI) as HI0.
  pose proof (stop_spec _ HI0) as (HI1 & Hp1 & _ & _ & _ & _ & _ & Hun & _).
  cbn zeta in *.
  set (w0 := {| this := this w; heap := drawn k config (heap w) |}) in *.
  destruct (Tween_stop invoke (_transition (this w0)) w0) as [[[]|e] w1] eqn:Hst;
    cbn in *; [|done].
  apply begun_Inv; [done|done|].
  eapply known_grow; [exact Hk|]. etrans; [|exact Hun].
  subst w0. unfold drawn. cbn. destruct k; try done. by destruct (Config.seed config).
Qed.

Lemma amount_ok_released c a fx :
  amount_ok c a fx -> amount_ok c a (TransitionEffect.released fx).
Proof. by destruct c. Qed.

Lemma Inv_released (w w' : World) (e : ref) :
  engine_view w' = engine_view w ->
  enabled (this w') = enabled (this w) ->
  _prevBackground (this w') = _prevBackground (this w) ->
  length (backgrounds (heap w)) ≤ length (backgrounds (heap w')) ->
  _transitionEffect (this w) = Some e ->
  _transitionEffect (this w') = Some e ->
  effects (heap w') = alter TransitionEffect.released e (effects (heap w)) ->
  vectors (heap w') = vectors (heap w) ->
  Inv w -> Inv w'.
Proof.
  intros He Hen Hp Hb Hx Hx' Hfx Hv [[HE HU HF HL] HG].
  pose proof He as He'. unfold engine_view in He'. injection He' as Ht Hg Hc.
  split; [split|].
  - by rewrite Ht, Hg, Hc.
  - rewrite Ht, Hp. by eapply Units_grow.
  - rewrite Hx', Hfx, Hv. apply Fx_released_current. by rewrite <- Hx.
  - intros tw Hcur Hf. rewrite (current_view _ _ He) in Hcur.
    destruct (HL tw Hcur Hf) as (c & a & e0 & fx & Hc0 & Ha & He0 & Hl & Hsh & Hok).
    assert (e0 = e) as -> by congruence.
    exists c, a, e, (TransitionEffect.released fx).
    rewrite Hx', Hfx, list_lookup_alter_eq, Hl. repeat split; try done.
  - unfold Gated. by rewrite Hen, (playing_view _ _ He), (started_view _ _ He).
Qed.

Lemma dispose_Inv (w : World) : Inv w -> Inv (snd (TransitionPass.dispose w)).
Proof.
  intros HI. unfold TransitionPass.dispose. cbn.
  pose proof (stop_spec _ HI) as (HI1 & _). cbn zeta in HI1.
  destruct (Tween_stop invoke (_transition (this w)) w) as [[[]|err] w1]; cbn in *; [|done].
  unfold Background_dispose, TransitionEffect_dispose.
  crush_callback;
    first [ by (eapply Inv_frame; [..|exact HI1])
          | match goal with
            | H : _transitionEffect (this w1) = Some ?n |- _ =>
                by (eapply (Inv_released w1 _ n); [..|exact HI1])
            end ].
Qed.

Lemma render_Inv (w : World) writeBuffer readBuffer :
  Inv w -> Inv (snd (TransitionPass.render writeBuffer readBuffer w)).
Proof.
  intros HI. unfold TransitionPass.render, isTransitioning, Tween_isPlaying,
    Background_render, TransitionEffect_render.
  crush_callback; (eapply Inv_frame; [..|exact HI]); cbn; rewrite ?length_alter; done.
Qed.

Lemma setSize_Inv (w : World) width height :
  Inv w -> Inv (snd (TransitionPass.setSize width height w)).
Proof.
  intros HI. unfold TransitionPass.setSize, Background_setSize.
  crush_callback; (eapply Inv_frame; [..|exact HI]); cbn; rewrite ?length_alter; done.
Qed.

Lemma exec_Inv (op : Op) (w : World) : Inv w -> allowed op w -> Inv (snd (exec op w)).
Proof.
  intros HI Hop. destruct op; cbn [exec].
  - unfold Background_new. cbn. (eapply Inv_frame; [..|exact HI]); cbn; try done.
    rewrite length_app. lia.
  - by apply setSize_Inv.
  - by apply transition_Inv.
  - by apply render_Inv.
  - cbn. by (eapply Inv_frame; [..|exact HI]).
  - by apply dispose_Inv.
  - by apply tick_Inv.
Qed.

Lemma Engine_fresh : Engine [Tween.constructor None] [] 0.
Proof.
  split.
  - by eexists.
  - by intros tw [= <-].
  - intros [|i] tw; [by intros [= <-]|done].
  - intros [|i] tw; [|done]. intros [= <-]. by intros [|].
Qed.

Lemma Fx_empty : Fx None [] [].
Proof. by split. Qed.

Lemma constructor_Inv background width height (h : Heap) :
  pristine h -> known background h ->
  Inv (TransitionPass.constructor background width height h).
Proof.
  intros (Hfx & Hv & Ht & Hg) Hk. unfold TransitionPass.constructor.
  destruct background as [b|]; cbn; (split; [split|]); cbn; rewrite ?Ht, ?Hg, ?Hfx, ?Hv; cbn.
  all: try apply Engine_fresh; try apply Fx_empty.
  - split; [done|]. intros [|i] tw c b'; [|done]. by intros [= <-].
  - intros tw. unfold current. cbn. rewrite Ht. cbn. by intros [= <-].
  - by intros H.
  - split; [rewrite length_app; cbn; lia|].
    intros [|i] tw c b'; [|done]. by intros [= <-].
  - intros tw. unfold current. cbn. rewrite Ht. cbn. by intros [= <-].
  - by intros H.
Qed.

Theorem Reachable_Inv (w : World) : Reachable w -> Inv w.
Proof.
  induction 1 as [background width height h Hp Hk | op w Hr IH Hop].
  - by apply constructor_Inv.
  - by apply exec_Inv.
Qed.

End Invariants.

#[local] Arguments _setTransitionEffect : simpl never.
#[local] Arguments invoke : simpl never.
#[local] Arguments Tween_update : simpl never.
#[local] Arguments Tween_stop : simpl never.

(** ** The end of a transition *)

Section Endings.

Lemma log_one (e : Event) (h : Heap) : log e h = log_all [e] h.
Proof. reflexivity. Qed.

Lemma log_all_log (es : list Event) (e : Event) (h : Heap) :
  log e (log_all es h) = log_all (es ++ [e]) h.
Proof. unfold log, log_all. cbn. by rewrite <- app_assoc. Qed.

Lemma log_all_log_all (es es' : list Event) (h : Heap) :
  log_all es' (log_all es h) = log_all (es ++ es') h.
Proof. unfold log_all. cbn. by rewrite <- app_assoc. Qed.

Lemma Background_dispose_blank (h : Heap) (b : ref) (bg : Background.t) :
  backgrounds h !! b = Some bg -> blank bg ->
  Background_dispose b h = (Throw null_map, log_all (blank_unit_released b) h).
Proof.
  intros Hb Hblank. unfold Background_dispose. cbn. rewrite Hb. cbn.
  unfold blank in Hblank. rewrite Hblank. cbn.
  by rewrite (log_one _ h), !log_all_log.
Qed.

Lemma Background_dispose_textured (h : Heap) (b : ref) (bg : Background.t) :
  backgrounds h !! b = Some bg -> ¬ blank bg ->
  Background_dispose b h = (Normal tt, log_all (unit_released b) h).
Proof.
  intros Hb Hblank. unfold Background_dispose. cbn. rewrite Hb. cbn.
  unfold blank in Hblank. destruct (map _); [|done]. cbn.
  by rewrite (log_one _ h), !log_all_log.
Qed.

Lemma end_blank (cb : CallbackName) (c : Closure) (o : option Q) (w : World)
    (bg : Background.t) :
  cb = OnComplete ∨ cb = OnStop ->
  backgrounds (heap w) !! _prevBackground (this w) = Some bg -> blank bg ->
  invoke cb c o w = (Throw null_map, aborted cb (closure_background c) w).
Proof.
  intros Hcb Hb Hblank.
  destruct Hcb as [-> | ->];
    unfold invoke, onComplete, onStop, base.onComplete, base.onStop, config_callback,
      onTransitionEnd; cbn;
    rewrite (Background_dispose_blank _ _ bg) by done; cbn;
    unfold aborted, log_all, log; cbn; by rewrite <- app_assoc.
Qed.

Lemma end_textured (cb : CallbackName) (c : Closure) (o : option Q) (w : World)
    (bg : Background.t) :
  cb = OnComplete ∨ cb = OnStop ->
  backgrounds (heap w) !! _prevBackground (this w) = Some bg -> ¬ blank bg ->
  invoke cb c o w = (Normal tt, adopted cb (closure_background c) w).
Proof.
  intros Hcb Hb Hblank.
  destruct Hcb as [-> | ->];
    unfold invoke, onComplete, onStop, base.onComplete, base.onStop, config_callback,
      onTransitionEnd; cbn;
    rewrite (Background_dispose_textured _ _ bg) by done; cbn;
    unfold adopted, log_all, log, Background_new; cbn;
    destruct (closure_background c); cbn; by rewrite <- app_assoc.
Qed.

Lemma stop_idle (w : World) (tw : Tween.t) :
  current w = Some tw -> Tween._isPlaying tw = false ->
  Tween_stop invoke (_transition (this w)) w = (Normal tt, w).
Proof.
  intros Hcur Hp. unfold current in Hcur. unfold Tween_stop. cbn.
  rewrite Hcur. cbn. rewrite Hp. cbn. by rewrite world_eta.
Qed.

Lemma stop_playing (w : World) (tw : Tween.t) (c : Closure) :
  current w = Some tw -> Tween._isPlaying tw = true -> Tween._callbacks tw = Some c ->
  Tween_stop invoke (_transition (this w)) w = invoke OnStop c (Tween._object tw) (stopped w).
Proof.
  intros Hcur Hp Hc. unfold current in Hcur. unfold Tween_stop. cbn.
  rewrite Hcur. cbn. rewrite Hp. cbn. rewrite Hc. cbn. reflexivity.
Qed.

(** C2.  When a transition reaches its end (completion or stop) the
    pass disposes of the previous unit, adopts the unit of the transition
    and clears [enabled].  Here the end callback runs on a pass whose
    previous unit is blank (constructed without a texture, as the pass
    does when it is given no unit): [enabled] is cleared, the disposal
    of the previous unit raises on its absent material map, and the
    previous unit is left as it was instead of becoming the unit of the
    transition.  [transition_end_with_textured_previous_unit] below is the
    case where the claim holds. *)
Theorem transition_end_with_blank_previous_unit
    (cb : CallbackName) (c : Closure) (o : option Q) (w : World) (bg : Background.t) :
  cb = OnComplete ∨ cb = OnStop ->
  backgrounds (heap w) !! _prevBackground (this w) = Some bg -> blank bg ->
  let r := invoke cb c o w in
  fst r = Throw null_map
  ∧ _prevBackground (this (snd r)) = _prevBackground (this w)
  ∧ enabled (this (snd r)) = false
  ∧ trace (heap (snd r)) =
      trace (heap w)
      ++ Called cb (Some (_prevBackground (this w), closure_background c))
         :: blank_unit_released (_prevBackground (this w)).
Proof.
  intros Hcb Hb Hblank. cbn zeta. by rewrite (end_blank cb c o w bg).
Qed.

(** The end of a transition when the previous unit has a texture. *)
Lemma transition_end_with_textured_previous_unit
    (cb : CallbackName) (c : Closure) (o : option Q) (w : World) (bg : Background.t) :
  cb = OnComplete ∨ cb = OnStop ->
  backgrounds (heap w) !! _prevBackground (this w) = Some bg -> ¬ blank bg ->
  let r := invoke cb c o w in
  fst r = Normal tt
  ∧ enabled (this (snd r)) = false
  ∧ trace (heap (snd r)) =
      trace (heap w)
      ++ Called cb (Some (_prevBackground (this w), closure_background c))
         :: unit_released (_prevBackground (this w))
  ∧ match closure_background c with
    | Some unit => _prevBackground (this (snd r)) = unit
    | None =>
        _prevBackground (this (snd r)) = length (backgrounds (heap w))
        ∧ backgrounds (heap (snd r)) !! length (backgrounds (heap w))
          = Some (Background.constructor None (_width (this w)) (_height (this w)))
    end.
Proof.
  intros Hcb Hb Hblank. cbn zeta. rewrite (end_textured cb c o w bg) by done.
  unfold adopted. destruct (closure_background c); cbn; [done|].
  repeat split; try done. by rewrite lookup_snoc.
Qed.

End Endings.

(** ** Updates of a running transition *)

Section Updates.

Lemma setSize_frame (w : World) (width height : Q) :
  let w' := snd (setSize width height w) in
  engine_view w' = engine_view w
  ∧ _width (this w') = width ∧ _height (this w') = height.
Proof.
  unfold setSize, Background_setSize, engine_view. crush_callback; done.
Qed.

(** C5.  A [setSize(width, height)] during a running transition takes
    effect at the next update: after it, a wipe's [aspect] uniform is
    [width / height] and the vector of a glitch's [resolution] uniform
    holds [width] and [height], whatever the size was when the transition
    began. *)
Theorem resize_live_on_next_update
    (w : World) (tw : Tween.t) (c : Closure) (width height time : Q) :
  Reachable w -> current w = Some tw -> Tween._isPlaying tw = true ->
  Tween._callbacks tw = Some c -> Qle_bool (Tween._startTime tw) time = true ->
  let w1 := snd (setSize width height w) in
  let w2 := snd (tick time w1) in
  ∃ e fx,
    _transitionEffect (this w2) = Some e ∧ effects (heap w2) !! e = Some fx
    ∧ match c with
      | InWipe _ _ _ _ =>
          TransitionEffect.uniforms fx !! "aspect" = Some (Number (width / height))
      | InGlitch _ _ =>
          ∃ v, TransitionEffect.uniforms fx !! "resolution" = Some (Vec v)
               ∧ vectors (heap w2) !! v = Some {| vx := width; vy := height |}
      | _ => True
      end.
Proof.
  intros Hr Hcur Hp Hc Hle. cbn zeta.
  pose proof (setSize_Inv w width height (Reachable_Inv w Hr)) as HI1.
  destruct (setSize_frame w width height) as (Hen & Hw & Hh). cbn zeta in *.
  set (w1 := snd (setSize width height w)) in *.
  rewrite <- (current_view _ _ Hen) in Hcur.
  destruct (tick_spec w1 tw c time HI1 Hcur Hp Hc Hle) as (w' & HS & _ & Hfx & Hv & Hx & _).
  destruct (sp_effect _ _ _ _ _ HS) as (e & fx & He & Hl & _ & _ & Hlive).
  exists e, fx. rewrite Hx, Hfx, Hv. split; [done|]. split; [done|].
  unfold live_uniforms in Hlive. rewrite Hw, Hh in Hlive. by destruct c.
Qed.

Lemma linear_half (tw : Tween.t) (time : Q) :
  Tween._easingFunction tw = Tween.Linear_None ->
  (Tween._duration tw == 2000)%Q -> (time - Tween._startTime tw == 1000)%Q ->
  (0 + (1 - 0) * Tween._easingFunction tw (Tween.elapsed time tw) == 1 # 2)%Q.
Proof.
  intros -> Hd Ht. unfold Tween.Linear_None, Tween.elapsed.
  assert ((time - Tween._startTime tw) / Tween._duration tw == 1 # 2)%Q as He.
  { rewrite Hd, Ht. reflexivity. }
  assert (Qeq_bool (Tween._duration tw) 0 = false) as ->.
  { destruct (Qeq_bool (Tween._duration tw) 0) eqn:E; [|done].
    apply Qeq_bool_iff in E. rewrite Hd in E. discriminate. }
  assert (Qle_bool ((time - Tween._startTime tw) / Tween._duration tw) 1 = true) as ->.
  { apply Qle_bool_iff. rewrite He. discriminate. }
  cbn [orb negb]. rewrite He. reflexivity.
Qed.

(** C6.  For a slide or a blur that has started, each update writes as
    [prevAmount] the [amount] that the effect held before the update,
    which is the amount of the preceding update (the animated object's
    value), and writes the new amount; with linear easing and a duration
    of 2000 ms the update 1000 ms after the start writes an amount
    of 1/2. *)
Theorem previous_amount_read_back
    (w : World) (tw : Tween.t) (c : Closure) (time : Q) :
  Reachable w -> current w = Some tw -> Tween._isPlaying tw = true ->
  Tween._onStartCallbackFired tw = true -> Tween._callbacks tw = Some c ->
  closure_kind c = Slide ∨ closure_kind c = Blur ->
  Qle_bool (Tween._startTime tw) time = true ->
  let amount := (0 + (1 - 0) * Tween._easingFunction tw (Tween.elapsed time tw))%Q in
  ∃ e fx previous,
    _transitionEffect (this w) = Some e ∧ effects (heap w) !! e = Some fx
    ∧ Tween._object tw = Some previous
    ∧ TransitionEffect.uniforms fx !! "amount" = Some (Number previous)
    ∧ (let w' := snd (tick time w) in
       ∃ fx',
         _transitionEffect (this w') = Some e ∧ effects (heap w') !! e = Some fx'
         ∧ TransitionEffect.uniforms fx' !! "prevAmount" = Some (Number previous)
         ∧ TransitionEffect.uniforms fx' !! "amount" = Some (Number amount))
    ∧ (Tween._easingFunction tw = Tween.Linear_None ->
       (Tween._duration tw == 2000)%Q -> (time - Tween._startTime tw == 1000)%Q ->
       (amount == 1 # 2)%Q).
Proof.
  intros Hr Hcur Hp Hf Hc Hk Hle. cbn zeta.
  pose proof (Reachable_Inv w Hr) as HI.
  destruct (inv_linked _ (proj1 HI) tw Hcur Hf)
    as (c0 & a & e & fx & Hc0 & Ha & He & Hl & Hsh & Hok).
  assert (c0 = c) as -> by congruence.
  assert (TransitionEffect.uniforms fx !! "amount" = Some (Number a)) as Ham.
  { destruct c; cbn in Hk; destruct Hk as [?|?]; done. }
  exists e, fx, a. split; [done|]. split; [done|]. split; [done|]. split; [done|].
  split; [|by apply linear_half].
  destruct (tick_spec w tw c time HI Hcur Hp Hc Hle) as (w' & HS & _ & Hfx & Hv & Hx & _).
  destruct (sp_started _ _ _ _ _ HS Hf e fx He Hl) as (He' & fx' & Hl' & Hup).
  destruct (sp_effect _ _ _ _ _ HS) as (e2 & fx2 & He2 & Hl2 & _ & Hok2 & _).
  assert (e2 = e) as -> by congruence. assert (fx2 = fx') as -> by congruence.
  exists fx'. rewrite Hx, Hfx. split; [done|]. split; [done|].
  unfold TransitionEffect.getUniform in Hup.
  destruct c; cbn in Hk; destruct Hk as [?|?]; try done;
    unfold update_uniforms, TransitionEffect.getUniform in Hup; unfold amount_ok in Hok2;
    rewrite Ham in Hup; done.
Qed.

End Updates.

(** ** Rendering and disposal around the first transition *)

Section Orchestration.

Lemma mbind_eq {S A B} (f : A -> M S B) (m : M S A) (s : S) :
  (m ≫= f) s =
    match m s with
    | (Normal a, s') => f a s'
    | (Throw e, s') => (Throw e, s')
    end.
Proof. reflexivity. Qed.

Lemma isTransitioning_eq (w : World) :
  is_Some (current w) -> isTransitioning w = (Normal (playing w), w).
Proof.
  intros [tw Htw]. unfold playing. rewrite Htw. unfold current in Htw.
  unfold isTransitioning, Tween_isPlaying. cbn. rewrite Htw. cbn. by rewrite world_eta.
Qed.

Lemma render_idle (w : World) (writeBuffer : option Target) (readBuffer : Target) :
  is_Some (current w) -> playing w = false ->
  render writeBuffer readBuffer w = (Normal tt, w).
Proof.
  intros Hcur Hp. unfold render. rewrite mbind_eq.
  rewrite isTransitioning_eq by done. by rewrite Hp.
Qed.

Lemma render_pending (w : World) (writeBuffer : option Target) (readBuffer : Target) :
  is_Some (current w) -> playing w = true -> _transitionEffect (this w) = None ->
  completed (fst (render writeBuffer readBuffer w)) = false.
Proof.
  intros Hcur Hp Hx. unfold render. rewrite mbind_eq.
  rewrite isTransitioning_eq by done. rewrite Hp.
  unfold Background_render. crush_callback; try done; congruence.
Qed.

Lemma begun_playing (r : Resolved.t) (w : World) :
  playing (begun r w) = true ∧ started (begun r w) = false
  ∧ enabled (this (begun r w)) = enabled (this w)
  ∧ _transitionEffect (this (begun r w)) = _transitionEffect (this w)
  ∧ effects (heap (begun r w)) = effects (heap w).
Proof.
  unfold playing, started, current, begun. cbn.
  by rewrite list_lookup_alter_eq, lookup_snoc.
Qed.

Lemma fresh_idle background width height h :
  let w := constructor background width height h in
  current w = Some (Tween.constructor None)
  ∧ playing w = false ∧ enabled (this w) = false ∧ _transitionEffect (this w) = None.
Proof.
  cbn zeta. unfold playing, current, constructor.
  destruct background; cbn; by rewrite lookup_snoc.
Qed.

(** C4.  [render()] before the effect of the pass exists must not
    dereference it.  Here [render()] is called after the first
    [transition()] of a new pass and before any update: the animation
    already plays, its start callback has not run, the pass has no effect
    yet, and [render()] raises.  ([render_idle] above is the part of the
    claim that holds: without a playing animation [render()] does
    nothing.) *)
Theorem render_while_pending_raises
    (background unit : option ref) (width height : Q) (h : Heap)
    (k : TransitionType) (config : Config.t)
    (writeBuffer : option Target) (readBuffer : Target) :
  let w := snd (transition unit k config (constructor background width height h)) in
  playing w = true ∧ started w = false ∧ _transitionEffect (this w) = None
  ∧ completed (fst (render writeBuffer readBuffer w)) = false.
Proof.
  cbn zeta. rewrite transition_eq, begin_eq.
  destruct (fresh_idle background width height h) as (Hcur & Hp & Hen & Hx).
  set (w0 := {| this := _; heap := _ |}).
  assert (current w0 = Some (Tween.constructor None)) as Hcur0.
  { subst w0. unfold current in *. cbn in *. rewrite <- Hcur.
    unfold drawn. destruct k; try done. by destruct (Config.seed config). }
  rewrite (stop_idle w0 _ Hcur0) by reflexivity. cbn [fst snd].
  destruct (begun_playing (resolved unit k config
    (heap (constructor background width height h))) w0) as (Hp' & Hs' & _ & Hx' & _).
  split; [done|]. split; [done|].
  assert (_transitionEffect (this w0) = None) as Hx0 by done.
  split; [congruence|].
  apply render_pending; [|done|congruence].
  unfold current, begun. cbn. rewrite list_lookup_alter_eq, lookup_snoc. by eexists.
Qed.

(** C9.  [dispose()] on a pass on which no transition was ever started
    should not raise.  It does, for every such pass: the effect of the
    pass is still undefined when [dispose()] reaches it. *)
Theorem dispose_before_first_transition_raises
    (background : option ref) (width height : Q) (h : Heap) :
  completed (fst (dispose (constructor background width height h))) = false.
Proof.
  destruct (fresh_idle background width height h) as (Hcur & Hp & Hen & Hx).
  set (w := constructor background width height h) in *.
  unfold dispose. cbn. rewrite (stop_idle _ _ Hcur) by done. cbn.
  unfold Background_dispose. crush_callback; try done; congruence.
Qed.

Lemma dispose_before_first_transition_trace
    (b : ref) (bg : Background.t) (width height : Q) (h : Heap) :
  backgrounds h !! b = Some bg -> ¬ blank bg ->
  let w := constructor (Some b) width height h in
  fst (dispose w) = Throw undefined_effect
  ∧ trace (heap (snd (dispose w))) =
      trace (heap w) ++ unit_released b ++ [Released OfIntermediateBuffer].
Proof.
  intros Hb Hblank w.
  destruct (fresh_idle (Some b) width height h) as (Hcur & Hp & Hen & Hx).
  fold w in Hcur, Hp, Hen, Hx.
  assert (backgrounds (heap w) !! _prevBackground (this w) = Some bg) as Hb' by done.
  assert (_prevBackground (this w) = b) as Hprev by done.
  clearbody w.
  unfold dispose. cbn. rewrite (stop_idle _ _ Hcur) by done. cbn.
  rewrite (Background_dispose_textured _ _ bg) by done. cbn. rewrite Hx, Hprev. cbn.
  split; [done|]. by rewrite <- !app_assoc.
Qed.

(** C10.  A unit constructed without a texture is blank: its backdrop
    material has no map.  Disposing of a blank unit raises on that map,
    after the buffer, its texture and depth texture, and the geometry and
    material of the plane are released, and before the scene, the effect
    pass and the particles are; and this is met at the interface of the
    pass whenever its previous unit is blank, at the end of a transition
    (completion or stop) and in [dispose()]. *)
Theorem blank_unit_dispose_raises :
  (∀ width height, blank (Background.constructor None width height))
  ∧ (∀ h b bg, backgrounds h !! b = Some bg -> blank bg ->
       Background_dispose b h = (Throw null_map, log_all (blank_unit_released b) h))
  ∧ (∀ w bg, backgrounds (heap w) !! _prevBackground (this w) = Some bg -> blank bg ->
       (∀ c o, fst (invoke OnComplete c o w) = Throw null_map
               ∧ fst (invoke OnStop c o w) = Throw null_map)
       ∧ (is_Some (current w) -> fst (dispose w) = Throw null_map)).
Proof.
  split; [intros; reflexivity|]. split; [apply Background_dispose_blank|].
  intros w bg Hb Hblank. split.
  - intros c o. by rewrite !(end_blank _ _ _ _ bg) by auto.
  - intros [tw Htw]. unfold dispose. cbn.
    destruct (Tween._isPlaying tw) eqn:Hp.
    + destruct (Tween._callbacks tw) as [c|] eqn:Hc.
      * rewrite (stop_playing w tw c) by done.
        rewrite (end_blank _ _ _ _ bg); [done|by right|done|done].
      * unfold current in Htw. unfold Tween_stop. cbn. rewrite Htw. cbn.
        rewrite Hp, Hc. cbn. by rewrite (Background_dispose_blank _ _ bg).
    + rewrite (stop_idle w tw) by done. cbn.
      by rewrite (Background_dispose_blank _ _ bg).
Qed.

End Orchestration.

(** ** Interrupting a transition, and the enabled flag *)

Section Interruption.

Lemma drawn_frame k config (h : Heap) :
  backgrounds (drawn k config h) = backgrounds h
  ∧ tweens (drawn k config h) = tweens h
  ∧ group (drawn k config h) = group h
  ∧ effects (drawn k config h) = effects h
  ∧ trace (drawn k config h) = trace h
  ∧ now (drawn k config h) = now h.
Proof. unfold drawn. destruct k; try done. by destruct (Config.seed config). Qed.

(** [transition] called while the orchestrator's tween plays. *)
Lemma transition_interrupting (w : World) (tw : Tween.t) (c : Closure)
    (bg : Background.t) unit k config :
  current w = Some tw -> Tween._isPlaying tw = true -> Tween._callbacks tw = Some c ->
  backgrounds (heap w) !! _prevBackground (this w) = Some bg ->
  let w0 := {| this := this w; heap := drawn k config (heap w) |} in
  (blank bg -> fst (transition unit k config w) = Throw null_map)
  ∧ (¬ blank bg ->
     transition unit k config w =
       (Normal tt,
        begun (resolved unit k config (heap w))
          (adopted OnStop (closure_background c) (stopped w0)))).
Proof.
  intros Hcur Hp Hc Hb w0.
  destruct (drawn_frame k config (heap w)) as (Hbg & Htw & _).
  assert (current w0 = Some tw) as Hcur0.
  { unfold current, w0. cbn. by rewrite Htw. }
  assert (backgrounds (heap (stopped w0)) !! _prevBackground (this (stopped w0)) = Some bg)
    as Hb0.
  { unfold stopped, w0. cbn. by rewrite Hbg. }
  rewrite transition_eq, begin_eq. fold w0.
  rewrite (stop_playing w0 tw c) by done.
  split; intros Hblank.
  - by rewrite (end_blank OnStop c _ _ bg) by auto.
  - by rewrite (end_textured OnStop c _ _ bg) by auto.
Qed.

Lemma transition_playing unit k config (w w' : World) :
  Inv w -> known unit (heap w) ->
  transition unit k config w = (Normal tt, w') ->
  playing w' = true ∧ started w' = false ∧ enabled (this w') = false.
Proof.
  intros HI Hk. rewrite transition_eq, begin_eq.
  pose proof (drawn_Inv k config w HI) as HI0.
  pose proof (stop_spec _ HI0) as (HI1 & Hp1 & _). cbn zeta in *.
  destruct (Tween_stop invoke _ _) as [[[]|err] w1]; [|done]. cbn in *.
  intros [= <-].
  destruct (begun_playing (resolved unit k config (heap w)) w1) as (Hp & Hs & Hen & _).
  split; [done|]. split; [done|]. rewrite Hen.
  destruct (enabled (this w1)) eqn:E; [|done].
  destruct (proj2 HI1 E). congruence.
Qed.

Lemma dispose_idle (w : World) :
  Inv w -> playing (snd (dispose w)) = false ∧ enabled (this (snd (dispose w))) = false.
Proof.
  intros HI. pose proof (stop_spec _ HI) as (HI1 & Hp1 & _ & _ & _ & _ & _ & _ & Hen).
  cbn zeta in *.
  assert (enabled (this (snd (Tween_stop invoke (_transition (this w)) w))) = false) as Hen1.
  { destruct (playing w) eqn:Hp; [by apply Hen|].
    destruct (enabled (this (Tween_stop invoke (_transition (this w)) w).2)) eqn:E; [|done].
    destruct (proj2 HI1 E). congruence. }
  unfold dispose. cbn.
  destruct (Tween_stop invoke (_transition (this w)) w) as [[[]|err] w1]; cbn in *; [|done].
  unfold Background_dispose, TransitionEffect_dispose, playing, current in *.
  crush_callback; done.
Qed.

End Interruption.

(** ** Resolution of the configuration *)

Section Configuration.
Local Open Scope Q_scope.

(** C7.  [_getTransitionConfig] always returns, and every optional
    field absent from the configuration gets its default: linear easing,
    duration 0 and delay 0 for all kinds; gradient 0, angle 0 and
    direction right for a wipe; slides 1, intensity 1, samples 32 and
    direction right for a slide; intensity 1 and samples 32 for a blur;
    and for a glitch the next random draw, which lies in [0, 1) when the
    draws do. *)
Theorem getTransitionConfig_defaults
    (background : option ref) (k : TransitionType) (config : Config.t) (w : World) :
  ∃ r w', _getTransitionConfig background k config w = (Normal r, w')
  ∧ (Config.easing config = None -> Resolved.easing r = Tween.Linear_None)
  ∧ (Config.duration config = None -> Resolved.duration r = 0 * 1000)
  ∧ (Config.delay config = None -> Resolved.delay r = 0 * 1000)
  ∧ match k with
    | None_ => Resolved.callbacks r = InNone background
    | Blend => Resolved.callbacks r = InBlend background
    | Wipe =>
        ∃ gradient angle direction,
          Resolved.callbacks r = InWipe background gradient angle direction
          ∧ (Config.gradient config = None -> gradient = 0)
          ∧ (Config.angle config = None -> angle = 0)
          ∧ (Config.direction config = None -> direction = Right)
    | Slide =>
        ∃ slides intensity samples direction,
          Resolved.callbacks r = InSlide background slides intensity samples direction
          ∧ (Config.slides config = None -> slides = 1)
          ∧ (Config.intensity config = None -> intensity = 1)
          ∧ (Config.samples config = None -> samples = 32)
          ∧ (Config.direction config = None -> direction = Right)
    | Blur =>
        ∃ intensity samples,
          Resolved.callbacks r = InBlur background intensity samples
          ∧ (Config.intensity config = None -> intensity = 1)
          ∧ (Config.samples config = None -> samples = 32)
    | Glitch =>
        ∃ seed,
          Resolved.callbacks r = InGlitch background seed
          ∧ (Config.seed config = None ->
             seed = random (heap w) (draws (heap w))
             ∧ ((∀ n, 0 <= random (heap w) n ∧ random (heap w) n < 1) ->
                0 <= seed ∧ seed < 1))
    end.
Proof.
  eexists _, _. split; [apply getTransitionConfig_eq|]. cbn.
  split; [by intros ->|]. split; [by intros ->|]. split; [by intros ->|].
  destruct k; cbn; try reflexivity.
  - eexists _, _. split; [reflexivity|]. split; by intros ->.
  - eexists _, _, _. split; [reflexivity|]. repeat split; by intros ->.
  - eexists _, _, _, _. split; [reflexivity|]. repeat split; by intros ->.
  - eexists. split; [reflexivity|]. intros ->. cbn. split; [reflexivity|]. intros H. apply H.
Qed.

(** The parameters resolved for a kind are the uniforms of the effect its
    start callback builds. *)
Lemma defaults_reach_the_effect (c : Closure) (w : World) :
  Inv w ->
  ∃ w' e fx, onStart c w = (Normal tt, w')
    ∧ _transitionEffect (this w') = Some e ∧ effects (heap w') !! e = Some fx
    ∧ start_uniforms c w fx (vectors (heap w')).
Proof.
  intros [[_ _ HF _] _].
  destruct (onStart_spec c w HF) as (w' & Heq & [_ _ _ _ _ _ _ He (fx & Hl & _ & Hu) _]).
  by exists w', (length (effects (heap w))), fx.
Qed.

End Configuration.

(** ** Example runs *)

Section Examples.
Import Example.

Lemma pass_reachable : Reachable pass.
Proof. apply reach_new; [done|cbn; lia]. Qed.

Lemma blank_pass_reachable : Reachable blank_pass.
Proof. by apply reach_new. Qed.

Lemma after_reachable (op : Op) (w : World) :
  Reachable w -> allowed op w -> Reachable (after op w).
Proof. apply reach_step. Qed.

Lemma pending_reachable : Reachable pending.
Proof. apply after_reachable; [apply pass_reachable|cbn; lia]. Qed.

Lemma active_reachable : Reachable active.
Proof. apply after_reachable; [apply pending_reachable|done]. Qed.

Lemma interrupted_reachable : Reachable interrupted.
Proof. apply after_reachable; [apply active_reachable|vm_compute; lia]. Qed.

Lemma wiping_reachable : Reachable wiping.
Proof.
  apply after_reachable; [|done]. apply after_reachable; [apply pass_reachable|cbn; lia].
Qed.

Lemma glitching_reachable : Reachable glitching.
Proof.
  apply after_reachable; [|done]. apply after_reachable; [apply pass_reachable|cbn; lia].
Qed.

Lemma sliding_reachable : Reachable sliding.
Proof.
  do 2 (apply after_reachable; [|done]).
  apply after_reachable; [apply pass_reachable|cbn; lia].
Qed.

Lemma blank_active_reachable : Reachable blank_active.
Proof.
  apply after_reachable; [|done].
  apply after_reachable; [apply blank_pass_reachable|cbn; lia].
Qed.

(** C3, as stated, fails between [transition()] and the first update. *)
Lemma enabled_differs_from_playing :
  ¬ (∀ w, Reachable w ->
       (enabled (this w) = true ↔ fst (isTransitioning w) = Normal true)).
Proof.
  intros H. destruct (H pending pending_reachable) as [_ H'].
  assert (fst (isTransitioning pending) = Normal true) as Hp by (vm_compute; reflexivity).
  specialize (H' Hp). vm_compute in H'. discriminate.
Qed.

Lemma run_normal {A} (m : M World A) (w : World) (a : A) :
  fst (m w) = Normal a -> m w = (Normal a, snd (m w)).
Proof. destruct (m w) as [r w']. cbn. by intros ->. Qed.


Lemma transition_end_with_blank_previous_unit_witness :
  fst (invoke OnComplete (InBlend (Some 1)) (Some 1%Q) blank_active) = Throw null_map
  ∧ _prevBackground (this (snd (invoke OnComplete (InBlend (Some 1)) (Some 1%Q)
                                  blank_active)))
    = _prevBackground (this blank_active).
Proof.
  destruct (transition_end_with_blank_previous_unit OnComplete (InBlend (Some 1))
              (Some 1%Q) blank_active (Background.constructor None 800 600))
    as (H1 & H2 & _).
  - by left.
  - vm_compute; reflexivity.
  - reflexivity.
  - by split.
Defined.

(** The scenario of C2 on a pass constructed without a unit: the update
    that completes the blend throws, and the previous unit is still the
    blank unit 3, not the unit 1 of the transition. *)
Example blend_completes_on_blank_pass :
  fst (exec (Tick 1000) blank_active) = Throw null_map
  ∧ _prevBackground (this (after (Tick 1000) blank_active)) = 3
  ∧ playing (after (Tick 1000) blank_active) = true.
Proof. vm_compute. done. Qed.

(** The same scenario on a pass constructed with a textured unit. *)
Example blend_completes :
  fst (exec (Tick 1000) active) = Normal tt
  ∧ _prevBackground (this (after (Tick 1000) active)) = 1
  ∧ enabled (this (after (Tick 1000) active)) = false
  ∧ playing (after (Tick 1000) active) = false.
Proof. vm_compute. done. Qed.

Lemma resize_live_on_next_update_witness :
  let w := after (Tick 500) (after (SetSize 1024 768) wiping) in
  ∃ e fx,
    _transitionEffect (this w) = Some e ∧ effects (heap w) !! e = Some fx
    ∧ TransitionEffect.uniforms fx !! "aspect" = Some (Number (1024 / 768)).
Proof.
  apply (resize_live_on_next_update wiping (tween wiping) (InWipe (Some 1) 0 0 Right)
           1024 768 500 wiping_reachable); vm_compute; reflexivity.
Defined.

(** The same resize during a glitch: the vector held by the resolution
    uniform carries the new size after the next update. *)
Example resize_live_glitch :
  let w := after (Tick 500) (after (SetSize 1024 768) glitching) in
  _transitionEffect (this w) = Some 0
  ∧ (fx ← effects (heap w) !! 0; TransitionEffect.uniforms fx !! "resolution")
    = Some (Vec 0)
  ∧ vectors (heap w) !! 0 = Some {| vx := 1024; vy := 768 |}.
Proof. vm_compute. done. Qed.

Lemma previous_amount_read_back_witness :
  let w := after (Tick 1000) sliding in
  ∃ fx previous amount,
    effects (heap w) !! 0 = Some fx
    ∧ TransitionEffect.uniforms fx !! "prevAmount" = Some (Number previous)
    ∧ TransitionEffect.uniforms fx !! "amount" = Some (Number amount)
    ∧ (previous == 1 # 4)%Q ∧ (amount == 1 # 2)%Q.
Proof.
  destruct (previous_amount_read_back sliding (tween sliding)
              (InSlide (Some 1) 2 1 32 Right) 1000 sliding_reachable)
    as (e & fx & previous & He & Hl & Hp & Ha & (fx' & He' & Hl' & Hpa & Haa) & Hhalf);
    try (vm_compute; reflexivity).
  { by left. }
  assert (e = 0) as -> by (vm_compute in He; congruence).
  exists fx', previous. eexists. split; [exact Hl'|]. split; [exact Hpa|]. split; [exact Haa|].
  split.
  - vm_compute in Hp. injection Hp as <-. vm_compute; reflexivity.
  - apply Hhalf; vm_compute; reflexivity.
Defined.

Lemma getTransitionConfig_defaults_witness :
  ∃ r, fst (_getTransitionConfig (Some 1) Wipe Config.empty pass) = Normal r
       ∧ Resolved.easing r = Tween.Linear_None
       ∧ Resolved.callbacks r = InWipe (Some 1) 0 0 Right.
Proof.
  destruct (getTransitionConfig_defaults (Some 1) Wipe Config.empty pass)
    as (r & w' & Heq & He & _ & _ & g & a & d & Hc & Hg & Ha & Hd).
  exists r. rewrite Heq. split; [reflexivity|]. split; [by apply He|].
  by rewrite Hc, Hg, Ha, Hd.
Defined.

Lemma blank_unit_dispose_raises_witness :
  fst (dispose blank_pass) = Throw null_map
  ∧ fst (exec (Tick 1000) blank_active) = Throw null_map.
Proof.
  split.
  - destruct blank_unit_dispose_raises as (_ & _ & H).
    apply (H blank_pass (Background.constructor None 800 600)).
    + vm_compute; reflexivity.
    + reflexivity.
    + by eexists.
  - vm_compute; reflexivity.
Defined.

End Examples.

(** * Further properties *)

(** ** Scene units over their life *)

Section SceneUnitLife.

Lemma log_all_nil (h : Heap) : log_all [] h = h.
Proof. unfold log_all. rewrite app_nil_r. by destruct h. Qed.

Lemma Background_setSize_eq (h : Heap) (b : ref) (bg : Background.t) (width height : Q) :
  backgrounds h !! b = Some bg ->
  Background_setSize b width height h =
    (Normal tt,
     log_all
       (if WebGLRenderTarget_resizes width height (Background._buffer bg)
        then [Released (OfUnitBuffer b)]
        else [])
       (set_backgrounds (alter (Background.resized width height) b) h)).
Proof.
  intros Hb. unfold Background_setSize. cbn. rewrite Hb. cbn.
  destruct (WebGLRenderTarget_resizes width height (Background._buffer bg)); cbn;
    [done|by rewrite log_all_nil].
Qed.

Lemma set_backgrounds_ext (f g : list Background.t -> list Background.t) (h : Heap) :
  f (backgrounds h) = g (backgrounds h) -> set_backgrounds f h = set_backgrounds g h.
Proof. unfold set_backgrounds. by intros ->. Qed.

Lemma set_backgrounds_id (f : list Background.t -> list Background.t) (h : Heap) :
  f (backgrounds h) = backgrounds h -> set_backgrounds f h = h.
Proof. unfold set_backgrounds. intros ->. by destruct h. Qed.

Lemma set_backgrounds_compose (f g : list Background.t -> list Background.t) (h : Heap) :
  set_backgrounds f (set_backgrounds g h) = set_backgrounds (λ l, f (g l)) h.
Proof. reflexivity. Qed.

Lemma Qeq_bool_proper (x x' y : Q) : (x == x')%Q -> Qeq_bool x y = Qeq_bool x' y.
Proof.
  intros H. destruct (Qeq_bool x' y) eqn:E.
  - apply Qeq_bool_iff in E. apply Qeq_bool_iff. by rewrite H.
  - destruct (Qeq_bool x y) eqn:E'; [|done].
    apply Qeq_bool_iff in E'. rewrite H in E'. apply Qeq_bool_iff in E'. congruence.
Qed.

Lemma sized_resizes (width height w1 h1 : Q) (bg : Background.t) :
  sized width height bg ->
  WebGLRenderTarget_resizes w1 h1 (Background._buffer bg)
  = negb (Qeq_bool width w1) || negb (Qeq_bool height h1).
Proof.
  intros (Hw & Hh & _). unfold WebGLRenderTarget_resizes.
  by rewrite (Qeq_bool_proper _ _ w1 Hw), (Qeq_bool_proper _ _ h1 Hh).
Qed.

Lemma resized_sized (width height : Q) (bg : Background.t) :
  is_Some (depthTexture (Background._buffer bg)) ->
  sized width height (Background.resized width height bg).
Proof.
  intros [dt Hdt]. unfold sized, Background.resized, WebGLRenderTarget_setSize,
    WebGLRenderTarget_resizes.
  destruct (Qeq_bool (rt_width (Background._buffer bg)) width) eqn:Ew;
    destruct (Qeq_bool (rt_height (Background._buffer bg)) height) eqn:Eh;
    cbn; rewrite ?Hdt; repeat split; try reflexivity.
  all: by apply Qeq_bool_iff.
Qed.

Lemma sized_resized (width height : Q) (bg : Background.t) :
  sized width height bg -> Background.resized width height bg = bg.
Proof.
  intros Hs. pose proof (sized_resizes width height width height bg Hs) as Hr.
  rewrite !Qeq_bool_refl in Hr. cbn in Hr.
  destruct Hs as (_ & _ & Hdt & Hcw & Hch).
  unfold Background.resized, WebGLRenderTarget_setSize. rewrite Hr.
  destruct bg as [[rw rh dt] [cp cw ch cu] pl pa ef]. cbn in *. by subst.
Qed.

Lemma Background_setSizes_eq (sizes : list (Q * Q)) (h : Heap) (b : ref) (bg : Background.t)
    (width height : Q) :
  backgrounds h !! b = Some bg -> sized width height bg ->
  Background_setSizes b sizes h =
    (Normal tt,
     log_all (resize_events b (width, height) sizes)
       (set_backgrounds
          (<[b := fold_left (λ bg s, Background.resized s.1 s.2 bg) sizes bg]>) h)).
Proof.
  revert h bg width height.
  induction sizes as [|[w1 h1] sizes IH]; intros h bg width height Hb Hs.
  - cbn [Background_setSizes fold_left resize_events]. cbn. f_equal.
    rewrite log_all_nil. symmetry. apply set_backgrounds_id. by apply list_insert_id.
  - cbn [Background_setSizes fold_left resize_events]. cbn.
    rewrite (Background_setSize_eq h b bg) by done.
    rewrite (sized_resizes width height w1 h1 bg Hs).
    assert (sized w1 h1 (Background.resized w1 h1 bg)) as Hs1.
    { apply resized_sized. destruct Hs as (_ & _ & -> & _). by eexists. }
    rewrite (IH _ (Background.resized w1 h1 bg) w1 h1).
    + f_equal. unfold log_all, set_backgrounds. cbn. f_equal.
      * by rewrite !list_insert_alter, list_alter_alter_eq.
      * by rewrite <- app_assoc.
    + cbn. by rewrite list_lookup_alter_eq, Hb.
    + done.
Qed.

Lemma resizes_sized (sizes : list (Q * Q)) (width height : Q) (bg : Background.t) :
  sized width height bg ->
  let size := default (width, height) (last sizes) in
  let bg' := fold_left (λ bg s, Background.resized s.1 s.2 bg) sizes bg in
  sized size.1 size.2 bg'
  ∧ Background._plane bg' = Background._plane bg
  ∧ Background._particles bg' = Background._particles bg
  ∧ cam_updates (Background._camera bg') = cam_updates (Background._camera bg).
Proof.
  revert width height bg. induction sizes as [|[w1 h1] sizes IH]; intros width height bg Hs.
  - done.
  - cbn [fold_left]. cbn zeta.
    assert (sized w1 h1 (Background.resized w1 h1 bg)) as Hs1.
    { apply resized_sized. destruct Hs as (_ & _ & -> & _). by eexists. }
    destruct (IH w1 h1 _ Hs1) as (H1 & H2 & H3 & H4). cbn zeta in *.
    rewrite last_cons. destruct (last sizes) as [s|]; cbn in *; done.
Qed.

Lemma constructor_sized (texture : option Texture) (width height : Q) :
  sized width height (Background.constructor texture width height).
Proof. unfold sized. cbn. repeat split; reflexivity. Qed.

(** X1.  A scene unit made by the constructor and resized any number of
    times has its buffer, its depth texture and its camera at the size of
    the last [setSize] (the size of construction when there was none),
    and the backdrop plane and particle field it was constructed with.
    The calls return normally and touch no other unit; each call whose
    size differs from the size the unit has releases the buffer of the
    unit, once, and nothing else is released or rendered; so a further
    [setSize] with the size the unit has changes nothing and releases
    nothing. *)
Theorem setSize_last_wins (texture : option Texture) (width height : Q)
    (sizes : list (Q * Q)) (h : Heap) :
  let b := length (backgrounds h) in
  let size := default (width, height) (last sizes) in
  ∃ h' bg,
    (b' ← Background_new texture width height; Background_setSizes b' sizes;; mret b') h
      = (Normal b, h')
    ∧ backgrounds h' = backgrounds h ++ [bg]
    ∧ sized size.1 size.2 bg
    ∧ Background._plane bg = Background._plane (Background.constructor texture width height)
    ∧ Background._particles bg
      = Background._particles (Background.constructor texture width height)
    ∧ trace h' = trace h ++ resize_events b (width, height) sizes
    ∧ Background_setSize b size.1 size.2 h' = (Normal tt, h').
Proof.
  cbn zeta. unfold Background_new. cbn.
  set (bg0 := Background.constructor texture width height).
  set (h1 := set_backgrounds _ h).
  assert (backgrounds h1 !! length (backgrounds h) = Some bg0) as Hb.
  { subst h1. cbn. apply lookup_snoc. }
  rewrite (Background_setSizes_eq sizes h1 _ bg0 width height Hb)
    by apply constructor_sized.
  cbn.
  destruct (resizes_sized sizes width height bg0) as (Hs & Hpl & Hpa & _);
    [apply constructor_sized|].
  cbn zeta in Hs, Hpl, Hpa.
  set (bg := fold_left _ sizes bg0) in *.
  assert (<[length (backgrounds h):=bg]> (backgrounds h ++ [bg0]) = backgrounds h ++ [bg])
    as Hins.
  { rewrite insert_app_r_alt by lia. by rewrite Nat.sub_diag. }
  eexists _, bg. split; [reflexivity|]. cbn. rewrite Hins.
  split; [done|]. split; [done|]. split; [done|]. split; [done|]. split; [done|].
  rewrite (Background_setSize_eq _ _ bg) by (cbn; rewrite Hins; apply lookup_snoc).
  rewrite (sized_resizes _ _ _ _ bg Hs), !Qeq_bool_refl. cbn [negb orb].
  rewrite log_all_nil. f_equal. apply set_backgrounds_id. cbn. rewrite Hins.
  rewrite alter_app_r_alt by lia. rewrite Nat.sub_diag. cbn.
  by rewrite sized_resized.
Qed.

Lemma unit_released_NoDup (b : ref) : NoDup (unit_released b).
Proof.
  unfold unit_released.
  repeat (apply NoDup_cons; split;
    [rewrite ?not_elem_of_cons; repeat split; try discriminate; apply not_elem_of_nil|]).
  apply NoDup_nil_2.
Qed.

(** X2.  [dispose()] of a scene unit returns normally exactly when the
    backdrop material of the unit has a map.  It then releases nine
    resources, each once and in the order of the source; the unit keeps no
    record of it: a second [dispose()] releases the same nine again. *)
Theorem Background_dispose_textured_twice (h : Heap) (b : ref) (bg : Background.t) :
  backgrounds h !! b = Some bg ->
  let r := Background_dispose b h in
  (completed (fst r) = true ↔ ¬ blank bg)
  ∧ (¬ blank bg ->
     r = (Normal tt, log_all (unit_released b) h)
     ∧ NoDup (unit_released b) ∧ length (unit_released b) = 9
     ∧ Background_dispose b (snd r)
       = (Normal tt, log_all (unit_released b ++ unit_released b) h)).
Proof.
  intros Hb. cbn zeta. split.
  - destruct (map (material (Background._plane bg))) as [tex|] eqn:Hm.
    + rewrite (Background_dispose_textured h b bg Hb) by (unfold blank; congruence).
      cbn. split; [|done]. intros _. unfold blank. congruence.
    + rewrite (Background_dispose_blank h b bg Hb Hm). cbn. split; [done|].
      intros H. by destruct H.
  - intros Hn. rewrite (Background_dispose_textured h b bg Hb Hn). cbn.
    split; [done|]. split; [apply unit_released_NoDup|]. split; [done|].
    rewrite (Background_dispose_textured _ b bg) by done.
    by rewrite log_all_log_all.
Qed.

End SceneUnitLife.

(** ** The callbacks in closed form *)

Section ClosedFormLemmas.

Lemma setTransitionEffect_eq (sh : Shader) (u : Uniforms) (w : World) :
  (∀ e0, _transitionEffect (this w) = Some e0 -> e0 < length (effects (heap w))) ->
  _setTransitionEffect sh u w =
    (Normal tt,
     {| this := set_transitionEffect (Some (length (effects (heap w)))) (this w);
        heap := replaced (_transitionEffect (this w)) (TransitionEffect.constructor sh u)
                  (heap w) |}).
Proof.
  intros Hv. unfold _setTransitionEffect, TransitionEffect_dispose, TransitionEffect_new,
    replaced. cbn.
  destruct (_transitionEffect (this w)) as [e0|] eqn:He; cbn.
  - destruct (lookup_lt_is_Some_2 _ _ (Hv e0 eq_refl)) as [fx0 Hfx0]. rewrite Hfx0. cbn.
    by rewrite length_alter.
  - done.
Qed.

Lemma onStart_eq (c : Closure) (w : World) :
  (∀ e0, _transitionEffect (this w) = Some e0 -> e0 < length (effects (heap w))) ->
  onStart c w = (Normal tt, started_at c w).
Proof.
  intros Hv. destruct c; unfold onStart, base.onStart, config_callback, onTransitionStart,
    Vector2_new, started_at; cbn.
  all: rewrite setTransitionEffect_eq by done; cbn; try done.
Qed.

Lemma onUpdate_eq (c : Closure) (a : Q) (e : ref) (fx : TransitionEffect.t) (w : World) :
  _transitionEffect (this w) = Some e -> effects (heap w) !! e = Some fx ->
  (closure_kind c = Glitch ->
   ∃ v, TransitionEffect.uniforms fx !! "resolution" = Some (Vec v)
        ∧ v < length (vectors (heap w))) ->
  onUpdate c (Some a) w = (Normal tt, updated_at c a e fx w).
Proof.
  intros He Hfx Hres.
  destruct c; unfold onUpdate, base.onUpdate, config_callback,
    TransitionEffect_updateUniforms, TransitionEffect_getUniforms, updated_at; cbn;
    repeat (first [rewrite He | rewrite Hfx]; cbn); try done.
  destruct (Hres eq_refl) as (v & Hv & Hlt).
  unfold TransitionEffect.getUniform. rewrite Hv. cbn.
  unfold Vector2_set. cbn.
  destruct (lookup_lt_is_Some_2 _ _ Hlt) as [vec Hvec]. rewrite Hvec. cbn.
  by repeat (first [rewrite He | rewrite Hfx]; cbn).
Qed.

Lemma started_at_frame (c : Closure) (w : World) :
  engine_view (started_at c w) = engine_view w
  ∧ _transitionEffect (this (started_at c w)) = Some (length (effects (heap w)))
  ∧ length (effects (heap (started_at c w))) = S (length (effects (heap w)))
  ∧ effects (heap (started_at c w)) !! length (effects (heap w))
    = Some (TransitionEffect.constructor (shader_of c)
              (initial_uniforms c (_width (this w)) (_height (this w))
                 (length (vectors (heap w)))))
  ∧ (closure_kind c = Glitch ->
     length (vectors (heap (started_at c w))) = S (length (vectors (heap w)))).
Proof.
  assert (∀ old fx h, length (effects (heap w)) = length (effects h) ->
    length (effects (replaced old fx h)) = S (length (effects (heap w)))
    ∧ effects (replaced old fx h) !! length (effects (heap w)) = Some fx) as Hr.
  { intros old fx h Hl. unfold replaced. destruct old; cbn.
    - rewrite length_app, length_alter, Hl. cbn. split; [lia|].
      rewrite <- (length_alter TransitionEffect.released (effects h) n). apply lookup_snoc.
    - rewrite length_app, Hl. cbn. split; [lia|]. apply lookup_snoc. }
  destruct c; unfold started_at; cbn.
  all: match goal with |- context [replaced ?old ?fx ?h] =>
         destruct (Hr old fx h eq_refl) as [Hl1 Hl2] end.
  all: split; [unfold engine_view; cbn; by destruct (_transitionEffect (this w))|].
  all: split; [done|]. all: split; [done|]. all: split; [done|]. all: try done.
  intros _. unfold replaced. destruct (_transitionEffect (this w)); cbn;
    rewrite length_app; cbn; lia.
Qed.

Lemma update_eq (w : World) (tw : Tween.t) (c : Closure) (time : Q) :
  Inv w -> current w = Some tw -> Tween._isPlaying tw = true ->
  Tween._callbacks tw = Some c -> Qle_bool (Tween._startTime tw) time = true ->
  Tween_update invoke (_transition (this w)) time w =
    if Qeq_bool (Tween.elapsed time tw) 1
    then (invoke OnComplete c (Some (progress time tw));; mret false) (stepped time tw c w)
    else (Normal true, stepped time tw c w).
Proof.
  intros [[HE HU HF HL] HG] Hcur Hp Hc Hle.
  pose proof Hcur as Htw. unfold current in Htw.
  destruct (eng_configured _ _ _ HE _ _ Htw (or_introl Hp))
    as (c0 & a0 & Hc0 & Ha0 & Hvs & Hve).
  assert (c0 = c) as -> by congruence.
  unfold Tween_update. cbn. rewrite Htw. cbn. rewrite Hle. cbn. rewrite Hc. cbn.
  unfold Tween.interpolate. rewrite Hvs, Hve.
  change (0 + (1 - 0) * Tween._easingFunction tw (Tween.elapsed time tw))%Q
    with (progress time tw).
  set (a := progress time tw).
  unfold stepped. fold a.
  destruct (Tween._onStartCallbackFired tw) eqn:Hf; cbn.
  - destruct (HL tw Hcur Hf) as (c1 & a1 & e & fx & Hc1 & Ha1 & He & Hfx & Hsh & Hok).
    assert (c1 = c) as -> by congruence.
    rewrite He, Hfx.
    unfold invoke at 1.
    rewrite (onUpdate_eq c a e fx); [|done|done|].
    + unfold marked. by destruct (Qeq_bool _ _).
    + intros Hk. cbn. apply (fx_resolution _ _ _ HF e fx Hfx).
      rewrite Hsh. by destruct c.
  - rewrite world_eta. unfold invoke at 1.
    rewrite onStart_eq by (apply (fx_valid _ _ _ HF)). cbn.
    destruct (started_at_frame c w) as (Hev & He & Hlen & Hfx & Hvec).
    unfold engine_view in Hev. injection Hev as Ht Hg Hcu.
    unfold marked. cbn. rewrite He, Hfx, !Hcu.
    unfold invoke at 1.
    erewrite (onUpdate_eq c a (length (effects (heap w)))); [|exact He|exact Hfx|].
    + by destruct (Qeq_bool _ _).
    + intros Hk. cbn. exists (length (vectors (heap w))). rewrite (Hvec Hk).
      split; [|lia]. by destruct c.
Qed.

Lemma stepped_transition (time : Q) (tw : Tween.t) (c : Closure) (w : World) :
  _transition (this (stepped time tw c w)) = _transition (this w).
Proof.
  unfold stepped, marked, updated_at, started_at.
  destruct (Tween._onStartCallbackFired tw), c; cbn;
    repeat (match goal with |- context [match ?x with _ => _ end] => destruct x end; cbn);
    done.
Qed.

Lemma tick_eq (w : World) (tw : Tween.t) (c : Closure) (time : Q) :
  Inv w -> current w = Some tw -> Tween._isPlaying tw = true ->
  Tween._callbacks tw = Some c -> Qle_bool (Tween._startTime tw) time = true ->
  tick time w =
    if Qeq_bool (Tween.elapsed time tw) 1
    then
      match invoke OnComplete c (Some (progress time tw))
              (stepped time tw c (at_time time w)) with
      | (Normal _, w') => (Normal tt, finished w')
      | (Throw e, w') => (Throw e, w')
      end
    else (Normal tt, stepped time tw c (at_time time w)).
Proof.
  intros HI Hcur Hp Hc Hle.
  pose proof (at_time_Inv time w HI) as HI0.
  pose proof (update_eq (at_time time w) tw c time HI0 Hcur Hp Hc Hle) as Heq.
  destruct HI as [[HE _ _ _] _]. pose proof Hcur as Htw. unfold current in Htw.
  pose proof (eng_group _ _ _ HE _ Htw) as Hg. rewrite Hp in Hg.
  unfold tick, TWEEN_update. cbn. rewrite Hg. cbn.
  unfold TWEEN_update_one. cbn. rewrite Hg.
  rewrite decide_True by apply list_elem_of_singleton, eq_refl.
  change {| this := this w; heap := set_now time (heap w) |} with (at_time time w).
  change (_transition (this w)) with (_transition (this (at_time time w))).
  rewrite M_bind_eq, Heq.
  destruct (Qeq_bool (Tween.elapsed time tw) 1); cbn; [|done].
  pose proof (invoke_engine OnComplete c (Some (progress time tw))
                (stepped time tw c (at_time time w))) as Hev.
  destruct (invoke OnComplete c _ (stepped time tw c (at_time time w)))
    as [[[]|err] w5]; cbn in *; [|done].
  unfold engine_view in Hev. injection Hev as _ _ Hcu.
  rewrite stepped_transition in Hcu. cbn in Hcu.
  unfold finished. by rewrite Hcu.
Qed.

End ClosedFormLemmas.

(** ** One update of the tween, in closed form *)

Section SteppedLemmas.

Lemma stepped_this (time : Q) (tw : Tween.t) (c : Closure) (w : World) :
  let p := this w in
  let p' := this (stepped time tw c w) in
  _width p' = _width p ∧ _height p' = _height p
  ∧ _prevBackground p' = _prevBackground p ∧ Pass._buffer p' = Pass._buffer p
  ∧ renderToScreen p' = renderToScreen p
  ∧ enabled p' =
      (if Tween._onStartCallbackFired tw then enabled p
       else match c with InNone _ => enabled p | _ => true end)
  ∧ _transitionEffect p' =
      (if Tween._onStartCallbackFired tw then _transitionEffect p
       else Some (length (effects (heap w)))).
Proof.
  unfold stepped, marked, updated_at, started_at.
  destruct (Tween._onStartCallbackFired tw), c; cbn;
    repeat (match goal with |- context [match ?x with _ => _ end] =>
              destruct x eqn:? end; cbn);
    done.
Qed.

Lemma stepped_heap (time : Q) (tw : Tween.t) (c : Closure) (w : World) :
  let h := heap w in
  let h' := heap (stepped time tw c w) in
  backgrounds h' = backgrounds h ∧ group h' = group h ∧ now h' = now h
  ∧ draws h' = draws h ∧ random h' = random h
  ∧ length (tweens h') = length (tweens h).
Proof.
  unfold stepped, marked, updated_at, started_at, replaced.
  destruct (Tween._onStartCallbackFired tw), c; cbn;
    repeat (match goal with |- context [match ?x with _ => _ end] =>
              destruct x eqn:? end; cbn);
    rewrite ?length_alter; done.
Qed.

Lemma alter_snoc {A} (f : A -> A) (l : list A) (x : A) :
  alter f (length l) (l ++ [x]) = l ++ [f x].
Proof. rewrite alter_app_r_alt by lia. by rewrite Nat.sub_diag. Qed.

Lemma alter_at {A} (f g : A -> A) (l : list A) (i : nat) (x : A) :
  l !! i = Some x -> f x = g x -> alter f i l = alter g i l.
Proof.
  intros Hl Hfg. apply list_alter_ext; [|done]. intros y Hy.
  assert (y = x) as -> by congruence. done.
Qed.

Lemma refreshed_shader c a width height fx :
  TransitionEffect.shader (refreshed c a width height fx) = TransitionEffect.shader fx.
Proof. by destruct c. Qed.

Lemma refreshed_disposed c a width height fx :
  TransitionEffect.disposed (refreshed c a width height fx) = TransitionEffect.disposed fx.
Proof. by destruct c. Qed.

Lemma updated_at_effects c a e fx w :
  effects (heap w) !! e = Some fx ->
  effects (heap (updated_at c a e fx w))
  = alter (refreshed c a (_width (this w)) (_height (this w))) e (effects (heap w))
  ∧ trace (heap (updated_at c a e fx w))
    = trace (heap w)
      ++ [Called OnUpdate (Some (_prevBackground (this w), closure_background c))].
Proof.
  intros Hfx. unfold updated_at.
  destruct c; cbn; try (split; [|done]; by apply (alter_at _ _ _ _ fx)).
  - split; [|done]. symmetry. by apply list_alter_id.
  - destruct (TransitionEffect.getUniform "resolution" fx); cbn;
      (split; [|done]); by apply (alter_at _ _ _ _ fx).
Qed.

Lemma stepped_fired (time : Q) (tw : Tween.t) (c : Closure) (w : World) e fx :
  Tween._onStartCallbackFired tw = true ->
  _transitionEffect (this w) = Some e -> effects (heap w) !! e = Some fx ->
  stepped time tw c w
  = updated_at c (progress time tw) e fx
      (marked (Tween.set_object (Some (progress time tw))) w).
Proof.
  intros Hf He Hfx. unfold stepped. rewrite Hf. cbn zeta.
  set (w3 := marked _ w).
  assert (_transitionEffect (this w3) = Some e) as -> by exact He.
  assert (effects (heap w3) !! e = Some fx) as -> by exact Hfx. done.
Qed.

Lemma stepped_fresh (time : Q) (tw : Tween.t) (c : Closure) (w : World) :
  Tween._onStartCallbackFired tw = false ->
  stepped time tw c w
  = updated_at c (progress time tw) (length (effects (heap w)))
      (TransitionEffect.constructor (shader_of c)
         (initial_uniforms c (_width (this w)) (_height (this w))
            (length (vectors (heap w)))))
      (marked (Tween.set_object (Some (progress time tw)))
         (marked (Tween.set_onStartCallbackFired true) (started_at c w))).
Proof.
  intros Hf. unfold stepped. rewrite Hf. cbn zeta.
  destruct (started_at_frame c w) as (Hev & He & Hlen & Hfx & Hvec).
  set (w3 := marked _ (marked _ _)).
  assert (_transitionEffect (this w3) = Some (length (effects (heap w)))) as -> by exact He.
  match type of Hfx with _ = Some ?fx =>
    assert (effects (heap w3) !! length (effects (heap w)) = Some fx) as -> by exact Hfx end.
  done.
Qed.

Lemma started_at_heap (c : Closure) (w : World) :
  _width (this (started_at c w)) = _width (this w)
  ∧ _height (this (started_at c w)) = _height (this w)
  ∧ _prevBackground (this (started_at c w)) = _prevBackground (this w)
  ∧ trace (heap (started_at c w)) = trace (heap w) ++ start_events c w
  ∧ effects (heap (started_at c w))
    = match _transitionEffect (this w) with
      | Some e0 => alter TransitionEffect.released e0 (effects (heap w))
      | None => effects (heap w)
      end
      ++ [TransitionEffect.constructor (shader_of c)
            (initial_uniforms c (_width (this w)) (_height (this w))
               (length (vectors (heap w))))].
Proof.
  unfold started_at, start_events, replaced.
  destruct c, (_transitionEffect (this w)); cbn; rewrite <- ?app_assoc; done.
Qed.

Lemma stepped_effects (time : Q) (tw : Tween.t) (c : Closure) (w : World) :
  Inv w -> current w = Some tw -> Tween._callbacks tw = Some c ->
  let p := this w in
  let a := progress time tw in
  let w' := stepped time tw c w in
  trace (heap w')
  = trace (heap w)
    ++ (if Tween._onStartCallbackFired tw then [] else start_events c w)
    ++ [Called OnUpdate (Some (_prevBackground p, closure_background c))]
  ∧ if Tween._onStartCallbackFired tw
    then ∃ e fx,
           _transitionEffect p = Some e ∧ effects (heap w) !! e = Some fx
           ∧ TransitionEffect.shader fx = shader_of c
           ∧ effects (heap w')
             = alter (refreshed c a (_width p) (_height p)) e (effects (heap w))
    else effects (heap w')
         = match _transitionEffect p with
           | Some e0 => alter TransitionEffect.released e0 (effects (heap w))
           | None => effects (heap w)
           end
           ++ [refreshed c a (_width p) (_height p)
                 (TransitionEffect.constructor (shader_of c)
                    (initial_uniforms c (_width p) (_height p)
                       (length (vectors (heap w)))))].
Proof.
  intros [[HE HU HF HL] HG] Hcur Hc. cbn zeta.
  destruct (Tween._onStartCallbackFired tw) eqn:Hf.
  - destruct (HL tw Hcur Hf) as (c1 & a1 & e & fx & Hc1 & Ha1 & He & Hfx & Hsh & Hok).
    assert (c1 = c) as -> by congruence.
    rewrite (stepped_fired time tw c w e fx Hf He Hfx).
    destruct (updated_at_effects c (progress time tw) e fx
                (marked (Tween.set_object (Some (progress time tw))) w)) as [H1 H2];
      [done|].
    rewrite H1, H2. split; [done|]. by exists e, fx.
  - rewrite (stepped_fresh time tw c w Hf).
    destruct (started_at_frame c w) as (Hev & He & Hlen & Hfx & Hvec).
    destruct (started_at_heap c w) as (Hwi & Hhe & Hpr & Htr & Hef).
    match goal with |- context [updated_at c ?a ?e ?fx ?w0] =>
      destruct (updated_at_effects c a e fx w0) as [H1 H2]; [exact Hfx|] end.
    rewrite H1, H2. cbn [marked this heap].
    change (effects (set_tweens ?f (set_tweens ?g ?h))) with (effects h).
    change (trace (set_tweens ?f (set_tweens ?g ?h))) with (trace h).
    rewrite Hwi, Hhe, Hpr, Htr, Hef, <- app_assoc. split; [done|].
    destruct (_transitionEffect (this w)) as [e0|];
      [rewrite <- (length_alter TransitionEffect.released (effects (heap w)) e0)|];
      by rewrite alter_snoc.
Qed.

End SteppedLemmas.

(** ** [setSize()] and [transition()] *)

Section Calls.

Lemma begun_current (r : Resolved.t) (w : World) :
  current (begun r w) = Some (Tween.started (now (heap w)) (tween_of r)).
Proof. unfold current, begun. cbn. by rewrite list_lookup_alter_eq, lookup_snoc. Qed.

Lemma Inv_prev (w : World) :
  Inv w -> is_Some (backgrounds (heap w) !! _prevBackground (this w)).
Proof. intros [[_ HU _ _] _]. apply lookup_lt_is_Some_2, (units_prev _ _ _ HU). Qed.

Lemma Inv_current (w : World) : Inv w -> is_Some (current w).
Proof. intros [[HE _ _ _] _]. apply (eng_current _ _ _ HE). Qed.

Lemma Inv_idle (w : World) : Inv w -> playing w = false -> enabled (this w) = false.
Proof.
  intros [_ HG] Hp. destruct (enabled (this w)) eqn:E; [|done].
  destruct (HG E). congruence.
Qed.

Lemma Inv_pending (w : World) : Inv w -> started w = false -> enabled (this w) = false.
Proof.
  intros [_ HG] Hp. destruct (enabled (this w)) eqn:E; [|done].
  destruct (HG E). congruence.
Qed.

Lemma setSize_eq (w : World) (width height : Q) (bg : Background.t) :
  backgrounds (heap w) !! _prevBackground (this w) = Some bg ->
  setSize width height w =
    (Normal tt,
     {| this := set_buffer (WebGLRenderTarget_setSize width height)
                  (set_dimensions width height (this w));
        heap := log_all (setSize_events width height bg (this w))
                  (set_backgrounds
                     (alter (Background.resized width height) (_prevBackground (this w)))
                     (heap w)) |}).
Proof.
  intros Hbg. unfold setSize. cbn.
  rewrite (Background_setSize_eq _ _ bg) by done. cbn.
  unfold setSize_events, log_all.
  destruct (WebGLRenderTarget_resizes width height (Background._buffer bg));
    destruct (WebGLRenderTarget_resizes width height (Pass._buffer (this w)));
    cbn; unfold log; cbn; rewrite <- ?app_assoc, ?app_nil_r; reflexivity.
Qed.

Lemma WebGLRenderTarget_setSize_sized (width height : Q) (rt : WebGLRenderTarget) :
  (rt_width (WebGLRenderTarget_setSize width height rt) == width)%Q
  ∧ (rt_height (WebGLRenderTarget_setSize width height rt) == height)%Q.
Proof.
  unfold WebGLRenderTarget_setSize, WebGLRenderTarget_resizes.
  destruct (Qeq_bool (rt_width rt) width) eqn:Ew;
    destruct (Qeq_bool (rt_height rt) height) eqn:Eh; cbn;
    split; try reflexivity; by apply Qeq_bool_iff.
Qed.

(** X3.  In every reachable state [setSize(width, height)] returns
    normally.  It sets the width and height of the pass, resizes the
    intermediate buffer and the previous unit, and releases the buffer of
    the previous unit and the intermediate buffer, each exactly when the
    call changes its size.  It changes nothing else: no other unit, no
    tween, no effect, no flag of the pass, and it renders nothing. *)
Theorem setSize_resizes (w : World) (width height : Q) :
  Reachable w ->
  ∃ bg w',
    backgrounds (heap w) !! _prevBackground (this w) = Some bg
    ∧ setSize width height w = (Normal tt, w')
    ∧ _width (this w') = width ∧ _height (this w') = height
    ∧ (rt_width (Pass._buffer (this w')) == width)%Q
    ∧ (rt_height (Pass._buffer (this w')) == height)%Q
    ∧ backgrounds (heap w')
      = <[_prevBackground (this w) := Background.resized width height bg]>
          (backgrounds (heap w))
    ∧ this w' = set_buffer (WebGLRenderTarget_setSize width height)
                  (set_dimensions width height (this w))
    ∧ heap w'
      = log_all (setSize_events width height bg (this w))
          (set_backgrounds
             (alter (Background.resized width height) (_prevBackground (this w))) (heap w)).
Proof.
  intros HR. pose proof (Reachable_Inv w HR) as HI.
  destruct (Inv_prev w HI) as [bg Hbg]. exists bg.
  rewrite (setSize_eq w width height bg Hbg).
  eexists. split; [done|]. split; [reflexivity|]. cbn.
  split; [done|]. split; [done|].
  destruct (WebGLRenderTarget_setSize_sized width height (Pass._buffer (this w))) as [Hw Hh].
  split; [done|]. split; [done|].
  assert (alter (Background.resized width height) (_prevBackground (this w))
            (backgrounds (heap w))
          = <[_prevBackground (this w) := Background.resized width height bg]>
              (backgrounds (heap w))) as ->.
  { rewrite list_insert_alter. by apply (alter_at _ _ _ _ bg). }
  done.
Qed.

Lemma playing_current (w : World) :
  Inv w ->
  ∃ tw, current w = Some tw ∧ Tween._isPlaying tw = playing w
        ∧ Tween._onStartCallbackFired tw = started w
        ∧ (playing w = true -> ∃ c, Tween._callbacks tw = Some c).
Proof.
  intros HI. destruct (Inv_current w HI) as [tw Htw]. exists tw.
  unfold playing, started. rewrite Htw. split; [done|]. split; [done|]. split; [done|].
  intros Hp. destruct HI as [[HE _ _ _] _].
  destruct (eng_configured _ _ _ HE _ _ Htw (or_introl Hp)) as (c & a & Hc & _).
  by exists c.
Qed.

(** The world in which [transition] runs after [_getTransitionConfig]. *)
Lemma drawn_world (k : TransitionType) (config : Config.t) (w : World) :
  let w0 := {| this := this w; heap := drawn k config (heap w) |} in
  current w0 = current w ∧ playing w0 = playing w
  ∧ backgrounds (heap w0) = backgrounds (heap w) ∧ trace (heap w0) = trace (heap w)
  ∧ now (heap w0) = now (heap w) ∧ group (heap w0) = group (heap w)
  ∧ effects (heap w0) = effects (heap w) ∧ tweens (heap w0) = tweens (heap w).
Proof.
  cbn zeta. destruct (drawn_frame k config (heap w)) as (Hb & Ht & Hg & He & Htr & Hn).
  unfold playing, current. cbn. by rewrite Ht.
Qed.

Lemma begun_heap (r : Resolved.t) (w : World) :
  trace (heap (begun r w))
  = trace (heap w)
    ++ [Called OnInit (Some (_prevBackground (this w),
                             closure_background (Resolved.callbacks r)));
        TweenCreated (length (tweens (heap w)))]
  ∧ group (heap (begun r w)) = group_add (length (tweens (heap w))) (group (heap w))
  ∧ backgrounds (heap (begun r w)) = backgrounds (heap w)
  ∧ _prevBackground (this (begun r w)) = _prevBackground (this w)
  ∧ _transition (this (begun r w)) = length (tweens (heap w))
  ∧ length (tweens (heap (begun r w))) = S (length (tweens (heap w)))
  ∧ now (heap (begun r w)) = now (heap w).
Proof.
  unfold begun. cbn. rewrite length_alter, length_app. cbn.
  repeat (split; [done|]). split; [lia|done].
Qed.

(** X4.  [transition()] on a pass whose animation does not play returns
    normally and disposes of nothing.  It calls [onInit(previousUnit,
    unit)], then creates and starts one tween: from 0 to 1, over the
    duration and after the delay of the configuration taken in seconds
    (0 when left out), with its easing (linear when left out).  The
    previous unit, the effect and the [enabled] flag of the pass stay as
    they were. *)
Theorem transition_from_idle (w : World) (unit : option ref) (k : TransitionType)
    (config : Config.t) :
  Reachable w -> playing w = false -> known unit (heap w) ->
  ∃ w' tw,
    transition unit k config w = (Normal tt, w')
    ∧ trace (heap w')
      = trace (heap w)
        ++ [Called OnInit (Some (_prevBackground (this w), unit));
            TweenCreated (length (tweens (heap w)))]
    ∧ backgrounds (heap w') = backgrounds (heap w)
    ∧ effects (heap w') = effects (heap w)
    ∧ _prevBackground (this w') = _prevBackground (this w)
    ∧ _transitionEffect (this w') = _transitionEffect (this w)
    ∧ enabled (this w') = false
    ∧ group (heap w') = [length (tweens (heap w))]
    ∧ current w' = Some tw
    ∧ Tween._isPlaying tw = true ∧ Tween._onStartCallbackFired tw = false
    ∧ Tween._object tw = Some 0%Q ∧ Tween._valuesEnd tw = Some 1%Q
    ∧ Tween._duration tw = (default 0 (Config.duration config) * 1000)%Q
    ∧ Tween._startTime tw
      = (now (heap w) + default 0 (Config.delay config) * 1000)%Q
    ∧ Tween._easingFunction tw = default Tween.Linear_None (Config.easing config)
    ∧ closure_background <$> Tween._callbacks tw = Some unit
    ∧ closure_kind <$> Tween._callbacks tw = Some k.
Proof.
  intros HR Hp Hk. pose proof (Reachable_Inv w HR) as HI.
  destruct (playing_current w HI) as (tw0 & Hcur & Hpl & _). rewrite Hp in Hpl.
  destruct (drawn_world k config w) as (Hc0 & Hp0 & Hb0 & Htr0 & Hn0 & Hg0 & He0 & Ht0).
  cbn zeta in *. set (w0 := {| this := this w; heap := drawn k config (heap w) |}) in *.
  rewrite transition_eq, begin_eq. fold w0.
  rewrite (stop_idle w0 tw0) by (by rewrite ?Hc0).
  set (r := resolved unit k config (heap w)).
  exists (begun r w0), (Tween.started (now (heap w0)) (tween_of r)).
  split; [done|].
  destruct (begun_playing r w0) as (_ & _ & Hen & Hef & Hefs).
  assert (group (heap w) = []) as Hgr.
  { destruct HI as [[HE _ _ _] _]. rewrite (eng_group _ _ _ HE _ Hcur). by rewrite Hpl. }
  destruct (begun_heap r w0) as (Htr & Hg & Hb & Hpr & _).
  split. { rewrite Htr, Htr0, Ht0. unfold r. cbn. by rewrite closure_background_resolve. }
  split; [by rewrite Hb|]. split; [by rewrite Hefs|]. split; [done|].
  split; [done|]. split; [rewrite Hen; exact (Inv_idle w HI Hp)|].
  split. { by rewrite Hg, Hg0, Hgr, Ht0. }
  split; [apply begun_current|]. rewrite Hn0. cbn.
  repeat (split; [done|]). split; [by rewrite closure_background_resolve|].
  by destruct k.
Qed.

Lemma stopped_frame (w : World) (tw : Tween.t) :
  current w = Some tw ->
  current (stopped w) = Some (Tween.set_isPlaying false tw)
  ∧ this (stopped w) = this w
  ∧ backgrounds (heap (stopped w)) = backgrounds (heap w)
  ∧ trace (heap (stopped w)) = trace (heap w) ++ [TweenStopped (_transition (this w))]
  ∧ length (tweens (heap (stopped w))) = length (tweens (heap w))
  ∧ effects (heap (stopped w)) = effects (heap w)
  ∧ now (heap (stopped w)) = now (heap w).
Proof.
  intros Hcur. unfold current in *. unfold stopped. cbn.
  by rewrite list_lookup_alter_eq, Hcur, length_alter.
Qed.

Lemma aborted_frame (cb : CallbackName) (background : option ref) (w : World) :
  current (aborted cb background w) = current w
  ∧ _transition (this (aborted cb background w)) = _transition (this w)
  ∧ _prevBackground (this (aborted cb background w)) = _prevBackground (this w)
  ∧ _transitionEffect (this (aborted cb background w)) = _transitionEffect (this w)
  ∧ enabled (this (aborted cb background w)) = false
  ∧ backgrounds (heap (aborted cb background w)) = backgrounds (heap w)
  ∧ tweens (heap (aborted cb background w)) = tweens (heap w)
  ∧ effects (heap (aborted cb background w)) = effects (heap w)
  ∧ now (heap (aborted cb background w)) = now (heap w)
  ∧ trace (heap (aborted cb background w))
    = trace (heap w)
      ++ Called cb (Some (_prevBackground (this w), background))
         :: blank_unit_released (_prevBackground (this w)).
Proof. done. Qed.

Lemma adopted_frame (cb : CallbackName) (background : option ref) (w : World) :
  current (adopted cb background w) = current w
  ∧ _transition (this (adopted cb background w)) = _transition (this w)
  ∧ _prevBackground (this (adopted cb background w))
    = default (length (backgrounds (heap w))) background
  ∧ _transitionEffect (this (adopted cb background w)) = _transitionEffect (this w)
  ∧ _width (this (adopted cb background w)) = _width (this w)
  ∧ _height (this (adopted cb background w)) = _height (this w)
  ∧ renderToScreen (this (adopted cb background w)) = renderToScreen (this w)
  ∧ enabled (this (adopted cb background w)) = false
  ∧ backgrounds (heap (adopted cb background w))
    = match background with
      | Some _ => backgrounds (heap w)
      | None =>
          backgrounds (heap w)
          ++ [Background.constructor None (_width (this w)) (_height (this w))]
      end
  ∧ tweens (heap (adopted cb background w)) = tweens (heap w)
  ∧ group (heap (adopted cb background w)) = group (heap w)
  ∧ effects (heap (adopted cb background w)) = effects (heap w)
  ∧ now (heap (adopted cb background w)) = now (heap w)
  ∧ trace (heap (adopted cb background w))
    = trace (heap w)
      ++ Called cb (Some (_prevBackground (this w), background))
         :: unit_released (_prevBackground (this w)).
Proof. unfold adopted. by destruct background. Qed.

(** X5.  [transition()] called while a transition plays whose previous unit
    is blank raises: the running tween is stopped and its stop callback
    is called, the disposal of the blank unit throws, and [transition()]
    ends there.  No [onInit] is called and no new tween is created; the
    pass is left with no animation playing, disabled, with the blank unit
    still its previous unit. *)
Theorem transition_interrupting_blank_raises (w : World) (bg : Background.t)
    (unit : option ref) (k : TransitionType) (config : Config.t) :
  Reachable w -> playing w = true ->
  backgrounds (heap w) !! _prevBackground (this w) = Some bg -> blank bg ->
  ∃ tw c w',
    current w = Some tw ∧ Tween._callbacks tw = Some c
    ∧ transition unit k config w = (Throw null_map, w')
    ∧ trace (heap w')
      = trace (heap w)
        ++ [TweenStopped (_transition (this w));
            Called OnStop (Some (_prevBackground (this w), closure_background c))]
        ++ blank_unit_released (_prevBackground (this w))
    ∧ playing w' = false ∧ enabled (this w') = false
    ∧ _transition (this w') = _transition (this w)
    ∧ length (tweens (heap w')) = length (tweens (heap w))
    ∧ _prevBackground (this w') = _prevBackground (this w).
Proof.
  intros HR Hp Hbg Hbl. pose proof (Reachable_Inv w HR) as HI.
  destruct (playing_current w HI) as (tw & Hcur & Hpl & _ & Hc). rewrite Hp in Hpl.
  destruct (Hc Hp) as [c Hcb]. exists tw, c.
  destruct (drawn_world k config w) as (Hc0 & Hp0 & Hb0 & Htr0 & Hn0 & Hg0 & He0 & Ht0).
  cbn zeta in *. set (w0 := {| this := this w; heap := drawn k config (heap w) |}) in *.
  rewrite <- Hc0 in Hcur.
  destruct (stopped_frame w0 tw Hcur) as (Hcs & Hths & Hbs & Htrs & Hls & _).
  rewrite transition_eq, begin_eq. fold w0.
  rewrite (stop_playing w0 tw c) by done.
  rewrite (end_blank OnStop c _ (stopped w0) bg);
    [|by right|by rewrite Hths, Hbs, Hb0|done].
  eexists. split; [by rewrite <- Hc0|]. split; [done|]. split; [reflexivity|].
  destruct (aborted_frame OnStop (closure_background c) (stopped w0))
    as (Hca & Hta & Hpa & _ & Hena & _ & Htwa & _ & _ & Htra).
  split. { rewrite Htra, Htrs, Hths, Htr0, <- app_assoc. done. }
  split. { unfold playing. by rewrite Hca, Hcs. }
  split; [done|]. split; [by rewrite Hta, Hths|].
  split; [by rewrite Htwa, Hls, Ht0|]. by rewrite Hpa, Hths.
Qed.

Lemma stop_now (w : World) :
  Inv w -> now (heap (snd (Tween_stop invoke (_transition (this w)) w))) = now (heap w).
Proof.
  intros HI. destruct (playing_current w HI) as (tw & Hcur & Hpl & _ & Hc).
  destruct (playing w) eqn:Hp.
  - destruct (Hc eq_refl) as [c Hcb]. destruct (Inv_prev w HI) as [bg Hbg].
    destruct (stopped_frame w tw Hcur) as (_ & Hths & Hbs & _ & _ & _ & Hns).
    rewrite (stop_playing w tw c) by done.
    destruct (map (material (Background._plane bg))) as [tex|] eqn:Hm.
    + rewrite (end_textured OnStop c _ (stopped w) bg);
        [|by right|by rewrite Hths, Hbs|unfold blank; congruence].
      cbn [snd]. unfold adopted. by destruct (closure_background c).
    + by rewrite (end_blank OnStop c _ (stopped w) bg);
        [|by right|by rewrite Hths, Hbs|done].
  - by rewrite (stop_idle w tw).
Qed.

(** X6.  A transition does nothing before its delay has passed: after a
    [transition()] called at clock [now] that returned normally, an update
    at a time before [now] plus the delay (in seconds, 0 when left out)
    returns normally and only advances the clock; no callback is called,
    nothing is rendered or released, and the pass stays disabled with the
    animation playing. *)
Theorem update_before_start (w w' : World) (unit : option ref) (k : TransitionType)
    (config : Config.t) (time : Q) :
  Reachable w -> known unit (heap w) ->
  transition unit k config w = (Normal tt, w') ->
  Qle_bool (now (heap w) + default 0 (Config.delay config) * 1000)%Q time = false ->
  tick time w' = (Normal tt, at_time time w')
  ∧ this (at_time time w') = this w'
  ∧ trace (heap (at_time time w')) = trace (heap w')
  ∧ tweens (heap (at_time time w')) = tweens (heap w')
  ∧ effects (heap (at_time time w')) = effects (heap w')
  ∧ playing w' = true ∧ enabled (this w') = false.
Proof.
  intros HR Hk Heq Hle. pose proof (Reachable_Inv w HR) as HI.
  pose proof (transition_Inv unit k config w HI Hk) as HI'.
  destruct (transition_playing unit k config w w' HI Hk Heq) as (Hp' & _ & Hen').
  rewrite Heq in HI'. cbn in HI'.
  rewrite transition_eq, begin_eq in Heq.
  pose proof (drawn_Inv k config w HI) as HI0.
  pose proof (stop_now _ HI0) as Hn. cbn in Hn.
  destruct (Tween_stop invoke _ _) as [[[]|err] w1]; [|done]. cbn in Hn.
  injection Heq as <-.
  split; [|done].
  apply (tick_waiting _ _ time HI' (begun_current _ w1)).
  cbn. rewrite Hn. destruct (drawn_frame k config (heap w)) as (_ & _ & _ & _ & _ & ->).
  done.
Qed.

End Calls.

(** ** The calls of an update *)

Section UpdateCalls.

Lemma tick_run (w : World) (tw : Tween.t) (c : Closure) (time : Q) (bg : Background.t) :
  Inv w -> current w = Some tw -> Tween._isPlaying tw = true ->
  Tween._callbacks tw = Some c -> Qle_bool (Tween._startTime tw) time = true ->
  backgrounds (heap w) !! _prevBackground (this w) = Some bg ->
  let w1 := stepped time tw c (at_time time w) in
  tick time w =
    if Qeq_bool (Tween.elapsed time tw) 1
    then match map (material (Background._plane bg)) with
         | Some _ => (Normal tt, finished (adopted OnComplete (closure_background c) w1))
         | None => (Throw null_map, aborted OnComplete (closure_background c) w1)
         end
    else (Normal tt, w1).
Proof.
  intros HI Hcur Hp Hc Hle Hbg. cbn zeta.
  rewrite (tick_eq w tw c time HI Hcur Hp Hc Hle).
  destruct (Qeq_bool (Tween.elapsed time tw) 1); [|done].
  destruct (stepped_heap time tw c (at_time time w)) as (Hb & _).
  destruct (stepped_this time tw c (at_time time w)) as (_ & _ & Hpr & _).
  cbn zeta in Hb, Hpr.
  assert (backgrounds (heap (stepped time tw c (at_time time w)))
            !! _prevBackground (this (stepped time tw c (at_time time w))) = Some bg) as Hbg1.
  { rewrite Hb, Hpr. exact Hbg. }
  destruct (map (material (Background._plane bg))) as [tex|] eqn:Hm.
  - rewrite (end_textured OnComplete c _ _ bg); [done|by left|done|].
    unfold blank. congruence.
  - by rewrite (end_blank OnComplete c _ _ bg); [|by left|done|done].
Qed.

(** X7.  One update of a playing transition at or after its start time
    calls the callbacks of the configuration in the order start (on the
    first such update only, after the release of the effect of an earlier
    transition), update, complete (when the update completes the
    animation), each with the previous unit and the unit of the transition
    ([onStart] of the kind [None] with no argument); completion then
    disposes of the previous unit.  The update returns normally unless it
    completes the animation while the previous unit is blank. *)
Theorem update_calls (w : World) (tw : Tween.t) (c : Closure) (time : Q) :
  Reachable w -> current w = Some tw -> Tween._isPlaying tw = true ->
  Tween._callbacks tw = Some c -> Qle_bool (Tween._startTime tw) time = true ->
  let r := tick time w in
  trace (heap (snd r)) = trace (heap w) ++ update_events time tw c w
  ∧ ∃ bg, backgrounds (heap w) !! _prevBackground (this w) = Some bg
      ∧ fst r =
          if Qeq_bool (Tween.elapsed time tw) 1
          then match map (material (Background._plane bg)) with
               | Some _ => Normal tt
               | None => Throw null_map
               end
          else Normal tt.
Proof.
  intros HR Hcur Hp Hc Hle. pose proof (Reachable_Inv w HR) as HI. cbn zeta.
  destruct (Inv_prev w HI) as [bg Hbg].
  rewrite (tick_run w tw c time bg HI Hcur Hp Hc Hle Hbg). cbn zeta.
  destruct (stepped_effects time tw c (at_time time w) (at_time_Inv time w HI) Hcur Hc)
    as [Htr _]. cbn zeta in Htr.
  change (trace (heap (at_time time w))) with (trace (heap w)) in Htr.
  change (start_events c (at_time time w)) with (start_events c w) in Htr.
  change (this (at_time time w)) with (this w) in Htr.
  set (w1 := stepped time tw c (at_time time w)) in *.
  destruct (stepped_this time tw c (at_time time w)) as (_ & _ & Hpr & _).
  cbn zeta in Hpr. fold w1 in Hpr. change (this (at_time time w)) with (this w) in Hpr.
  unfold update_events. rewrite Hbg. unfold dispose_events.
  split; [|exists bg; split; [done|]].
  - destruct (Qeq_bool (Tween.elapsed time tw) 1).
    + destruct (map (material (Background._plane bg))); cbn [snd].
      * change (trace (heap (finished ?x))) with (trace (heap x)).
        destruct (adopted_frame OnComplete (closure_background c) w1)
          as (_ & _ & _ & _ & _ & _ & _ & _ & _ & _ & _ & _ & _ & ->).
        rewrite Htr, Hpr, <- !app_assoc. done.
      * destruct (aborted_frame OnComplete (closure_background c) w1)
          as (_ & _ & _ & _ & _ & _ & _ & _ & _ & ->).
        rewrite Htr, Hpr, <- !app_assoc. done.
    + cbn [snd]. by rewrite Htr, app_nil_r.
  - destruct (Qeq_bool (Tween.elapsed time tw) 1); [|done].
    by destruct (map (material (Background._plane bg))).
Qed.

End UpdateCalls.

(** ** [dispose()] *)

Section DisposalLemmas.

Lemma stop_run (w : World) (tw : Tween.t) (c : Closure) (bg : Background.t) :
  current w = Some tw -> Tween._isPlaying tw = true -> Tween._callbacks tw = Some c ->
  backgrounds (heap w) !! _prevBackground (this w) = Some bg ->
  Tween_stop invoke (_transition (this w)) w =
    match map (material (Background._plane bg)) with
    | Some _ => (Normal tt, adopted OnStop (closure_background c) (stopped w))
    | None => (Throw null_map, aborted OnStop (closure_background c) (stopped w))
    end.
Proof.
  intros Hcur Hp Hc Hbg. rewrite (stop_playing w tw c) by done.
  destruct (stopped_frame w tw Hcur) as (_ & Hths & Hbs & _).
  destruct (map (material (Background._plane bg))) as [tex|] eqn:Hm.
  - rewrite (end_textured OnStop c _ (stopped w) bg);
      [done|by right|by rewrite Hths, Hbs|unfold blank; congruence].
  - by rewrite (end_blank OnStop c _ (stopped w) bg);
      [|by right|by rewrite Hths, Hbs|done].
Qed.

(** [dispose()] after its [stop()]. *)
Lemma dispose_eq (w : World) :
  dispose w =
    match Tween_stop invoke (_transition (this w)) w with
    | (Normal _, w1) =>
        match Background_dispose (_prevBackground (this w1)) (heap w1) with
        | (Normal _, h2) =>
            let h3 := log (Released OfIntermediateBuffer) h2 in
            match _transitionEffect (this w1) with
            | Some e =>
                match effects h3 !! e with
                | Some _ =>
                    (Normal tt,
                     {| this := this w1;
                        heap := log (Released (OfEffect e))
                                  (set_effects (alter TransitionEffect.released e) h3) |})
                | None => (Throw (TypeError "undefined object"),
                           {| this := this w1; heap := h3 |})
                end
            | None => (Throw undefined_effect, {| this := this w1; heap := h3 |})
            end
        | (Throw err, h2) => (Throw err, {| this := this w1; heap := h2 |})
        end
    | (Throw err, w1) => (Throw err, w1)
    end.
Proof.
  unfold dispose. cbn.
  destruct (Tween_stop invoke (_transition (this w)) w) as [[[]|err] w1]; cbn; [|done].
  destruct (Background_dispose (_prevBackground (this w1)) (heap w1)) as [[[]|err] h2];
    cbn; [|done].
  destruct (_transitionEffect (this w1)) as [e|]; cbn; [|done].
  unfold TransitionEffect_dispose. cbn.
  by destruct (effects h2 !! e).
Qed.

Lemma dispose_rest (w1 : World) (bg : Background.t) (e : ref) :
  backgrounds (heap w1) !! _prevBackground (this w1) = Some bg -> ¬ blank bg ->
  _transitionEffect (this w1) = Some e -> e < length (effects (heap w1)) ->
  match Background_dispose (_prevBackground (this w1)) (heap w1) with
  | (Normal _, h2) =>
      let h3 := log (Released OfIntermediateBuffer) h2 in
      match _transitionEffect (this w1) with
      | Some e =>
          match effects h3 !! e with
          | Some _ =>
              (Normal tt,
               {| this := this w1;
                  heap := log (Released (OfEffect e))
                            (set_effects (alter TransitionEffect.released e) h3) |})
          | None => (Throw (TypeError "undefined object"),
                     {| this := this w1; heap := h3 |})
          end
      | None => (Throw undefined_effect, {| this := this w1; heap := h3 |})
      end
  | (Throw err, h2) => (Throw err, {| this := this w1; heap := h2 |})
  end = (Normal tt, released_all (_prevBackground (this w1)) e w1).
Proof.
  intros Hbg Hbl He Hlt.
  rewrite (Background_dispose_textured _ _ bg Hbg Hbl). cbn zeta. rewrite He.
  rewrite log_all_log.
  destruct (lookup_lt_is_Some_2 _ _ Hlt) as [fx Hfx].
  change (effects (log_all ?es ?h)) with (effects h). rewrite Hfx. done.
Qed.

Lemma released_all_frame (prev e : ref) (w : World) (fx : TransitionEffect.t) :
  effects (heap w) !! e = Some fx ->
  this (released_all prev e w) = this w
  ∧ current (released_all prev e w) = current w
  ∧ backgrounds (heap (released_all prev e w)) = backgrounds (heap w)
  ∧ trace (heap (released_all prev e w))
    = trace (heap w) ++ unit_released prev
      ++ [Released OfIntermediateBuffer; Released (OfEffect e)]
  ∧ effects (heap (released_all prev e w))
    = alter TransitionEffect.released e (effects (heap w))
  ∧ effects (heap (released_all prev e w)) !! e = Some (TransitionEffect.released fx).
Proof.
  intros Hfx. unfold released_all. cbn. rewrite list_lookup_alter_eq, Hfx.
  rewrite <- !app_assoc. done.
Qed.

(** X8.  [dispose()] on a pass that is not in a transition, that has an
    effect (so a transition was started earlier) and whose previous unit
    has a backdrop texture returns normally: it releases the previous
    unit, then the intermediate buffer, then the effect, and changes no
    field of the pass.  The pass keeps no record of it: a second
    [dispose()] releases the same resources again. *)
Theorem dispose_idle_releases (w : World) (bg : Background.t) (e : ref) :
  Reachable w -> playing w = false -> _transitionEffect (this w) = Some e ->
  backgrounds (heap w) !! _prevBackground (this w) = Some bg -> ¬ blank bg ->
  let prev := _prevBackground (this w) in
  let events := unit_released prev ++ [Released OfIntermediateBuffer; Released (OfEffect e)] in
  ∃ w' fx,
    dispose w = (Normal tt, w') ∧ this w' = this w
    ∧ trace (heap w') = trace (heap w) ++ events
    ∧ backgrounds (heap w') = backgrounds (heap w)
    ∧ effects (heap w') !! e = Some fx ∧ TransitionEffect.disposed fx = true
    ∧ ∃ w'', dispose w' = (Normal tt, w'')
        ∧ trace (heap w'') = trace (heap w) ++ events ++ events.
Proof.
  intros HR Hp He Hbg Hbl. cbn zeta.
  assert (∀ w, Reachable w -> playing w = false -> _transitionEffect (this w) = Some e ->
            backgrounds (heap w) !! _prevBackground (this w) = Some bg ->
            ∃ fx, effects (heap w) !! e = Some fx
              ∧ dispose w = (Normal tt, released_all (_prevBackground (this w)) e w)) as Hone.
  { clear w HR Hp He Hbg. intros w HR Hp He Hbg.
    pose proof (Reachable_Inv w HR) as HI.
    destruct (playing_current w HI) as (tw & Hcur & Hpl & _). rewrite Hp in Hpl.
    pose proof HI as [[_ _ HF _] _].
    pose proof (fx_valid _ _ _ HF e He) as Hlt.
    destruct (lookup_lt_is_Some_2 _ _ Hlt) as [fx Hfx]. exists fx. split; [done|].
    rewrite dispose_eq, (stop_idle w tw Hcur Hpl).
    by apply (dispose_rest w bg e). }
  destruct (Hone w HR Hp He Hbg) as (fx & Hfx & Heq).
  destruct (released_all_frame (_prevBackground (this w)) e w fx Hfx)
    as (Hth & Hcu & Hb & Htr & Hef & Hl).
  set (w' := released_all (_prevBackground (this w)) e w) in *.
  exists w', (TransitionEffect.released fx).
  split; [done|]. split; [done|]. split; [done|]. split; [done|]. split; [done|].
  split; [done|].
  assert (Reachable w') as HR'.
  { replace w' with (snd (exec Dispose w)); [by apply reach_step|].
    cbn [exec]. by rewrite Heq. }
  destruct (Hone w' HR') as (fx' & Hfx' & Heq').
  - unfold playing. by rewrite Hcu.
  - by rewrite Hth.
  - by rewrite Hth, Hb.
  - eexists. split; [exact Heq'|].
    destruct (released_all_frame (_prevBackground (this w')) e w' fx' Hfx')
      as (_ & _ & _ & -> & _). rewrite Htr, Hth, <- !app_assoc. done.
Qed.

(** X9.  [dispose()] during a transition to the unit [b], when the
    previous unit and [b] both have a backdrop texture, ends the
    transition first: the tween is stopped, its stop callback is called,
    the previous unit is disposed of and [b] becomes the previous unit.
    [dispose()] then disposes of [b] as well and releases the
    intermediate buffer.  When the pass has an effect it then disposes of
    it and returns normally; when it has none yet (the first transition
    of the pass, not yet started) it raises at that point. *)
Theorem dispose_active_releases_both (w : World) (tw : Tween.t) (c : Closure)
    (bg bg' : Background.t) (b : ref) :
  Reachable w -> current w = Some tw -> Tween._isPlaying tw = true ->
  Tween._callbacks tw = Some c -> closure_background c = Some b ->
  backgrounds (heap w) !! _prevBackground (this w) = Some bg -> ¬ blank bg ->
  backgrounds (heap w) !! b = Some bg' -> ¬ blank bg' ->
  let r := dispose w in
  let effect := _transitionEffect (this w) in
  fst r = match effect with
          | Some _ => Normal tt
          | None => Throw undefined_effect
          end
  ∧ trace (heap (snd r))
    = trace (heap w)
      ++ [TweenStopped (_transition (this w));
          Called OnStop (Some (_prevBackground (this w), Some b))]
      ++ unit_released (_prevBackground (this w))
      ++ unit_released b
      ++ [Released OfIntermediateBuffer]
      ++ match effect with
         | Some e => [Released (OfEffect e)]
         | None => []
         end
  ∧ _prevBackground (this (snd r)) = b
  ∧ playing (snd r) = false ∧ enabled (this (snd r)) = false
  ∧ ∀ e, effect = Some e ->
      ∃ fx, effects (heap (snd r)) !! e = Some fx ∧ TransitionEffect.disposed fx = true.
Proof.
  intros HR Hcur Hp Hc Hb Hbg Hbl Hbg' Hbl'. cbn zeta.
  pose proof (Reachable_Inv w HR) as HI.
  pose proof HI as [[_ _ HF _] _].
  rewrite dispose_eq, (stop_run w tw c bg Hcur Hp Hc Hbg).
  destruct (map (material (Background._plane bg))) as [tex|] eqn:Hm;
    [|by destruct Hbl].
  rewrite Hb.
  destruct (stopped_frame w tw Hcur) as (Hcs & Hths & Hbs & Htrs & Hls & Hes & _).
  destruct (adopted_frame OnStop (Some b) (stopped w))
    as (Hca & Hta & Hpa & Hea & _ & _ & _ & Hena & Hba & _ & _ & Hefa & _ & Htra).
  cbn [default] in Hpa.
  set (w1 := adopted OnStop (Some b) (stopped w)) in *.
  assert (playing w1 = false) as Hp1 by (unfold playing; by rewrite Hca, Hcs).
  destruct (_transitionEffect (this w)) as [e|] eqn:He.
  - pose proof (fx_valid _ _ _ HF e eq_refl) as Hlt.
    destruct (lookup_lt_is_Some_2 _ _ Hlt) as [fx Hfx].
    rewrite (dispose_rest w1 bg' e);
      [|by rewrite Hpa, Hba, Hbs|done|by rewrite Hea, Hths|by rewrite Hefa, Hes].
    destruct (released_all_frame (_prevBackground (this w1)) e w1 fx)
      as (Hth & Hcu & _ & Htr & _ & Hl); [by rewrite Hefa, Hes|].
    cbn [fst snd]. split; [done|].
    split. { rewrite Htr, Htra, Htrs, Hpa, Hths, <- !app_assoc. done. }
    split; [by rewrite Hth|].
    split. { unfold playing. by rewrite Hcu, Hca, Hcs. }
    split; [by rewrite Hth|].
    intros e' [= <-]. by exists (TransitionEffect.released fx).
  - rewrite (Background_dispose_textured _ _ bg') by (by rewrite ?Hpa, ?Hba, ?Hbs).
    cbn zeta. rewrite Hea, Hths, He. cbn [fst snd this heap].
    split; [done|].
    split. { change (trace (log ?ev (log_all ?es ?h))) with ((trace h ++ es) ++ [ev]).
             rewrite Htra, Htrs, Hpa, Hths, <- !app_assoc. done. }
    split; [done|]. split; [exact Hp1|]. split; [done|]. done.
Qed.

(** X10.  [dispose()] during a transition to no unit always raises, with
    the intermediate buffer and the effect not released.  When the
    previous unit has a backdrop texture, ending the transition disposes
    of it and makes a new blank unit the previous unit, and the disposal
    of that blank unit throws.  When the previous unit is blank itself,
    its disposal throws already in the stop callback of the transition,
    and no unit is made. *)
Theorem dispose_active_absent_unit_raises (w : World) (tw : Tween.t) (c : Closure)
    (bg : Background.t) :
  Reachable w -> current w = Some tw -> Tween._isPlaying tw = true ->
  Tween._callbacks tw = Some c -> closure_background c = None ->
  backgrounds (heap w) !! _prevBackground (this w) = Some bg ->
  let r := dispose w in
  let prev := _prevBackground (this w) in
  let fresh := length (backgrounds (heap w)) in
  let stop := [TweenStopped (_transition (this w)); Called OnStop (Some (prev, None))] in
  fst r = Throw null_map
  ∧ effects (heap (snd r)) = effects (heap w)
  ∧ playing (snd r) = false ∧ enabled (this (snd r)) = false
  ∧ match map (material (Background._plane bg)) with
    | Some _ =>
        trace (heap (snd r))
        = trace (heap w) ++ stop ++ unit_released prev ++ blank_unit_released fresh
        ∧ _prevBackground (this (snd r)) = fresh
        ∧ backgrounds (heap (snd r))
          = backgrounds (heap w)
            ++ [Background.constructor None (_width (this w)) (_height (this w))]
    | None =>
        trace (heap (snd r)) = trace (heap w) ++ stop ++ blank_unit_released prev
        ∧ _prevBackground (this (snd r)) = prev
        ∧ backgrounds (heap (snd r)) = backgrounds (heap w)
    end.
Proof.
  intros HR Hcur Hp Hc Hb Hbg. cbn zeta.
  rewrite dispose_eq, (stop_run w tw c bg Hcur Hp Hc Hbg).
  rewrite Hb.
  destruct (stopped_frame w tw Hcur) as (Hcs & Hths & Hbs & Htrs & Hls & Hes & _).
  destruct (map (material (Background._plane bg))) as [tex|] eqn:Hm.
  - destruct (adopted_frame OnStop None (stopped w))
      as (Hca & Hta & Hpa & Hea & _ & _ & _ & Hena & Hba & _ & _ & Hefa & _ & Htra).
    cbn [default] in Hpa.
    set (w1 := adopted OnStop None (stopped w)) in *.
    assert (playing w1 = false) as Hp1 by (unfold playing; by rewrite Hca, Hcs).
    rewrite (Background_dispose_blank (heap w1) (_prevBackground (this w1))
               (Background.constructor None (_width (this (stopped w)))
                  (_height (this (stopped w))))).
    + cbn [fst snd this heap].
      change (trace (log_all ?es ?h)) with (trace h ++ es).
      change (backgrounds (log_all ?es ?h)) with (backgrounds h).
      change (effects (log_all ?es ?h)) with (effects h).
      split; [done|]. split; [by rewrite Hefa, Hes|]. split; [exact Hp1|].
      split; [done|].
      rewrite Htra, Htrs, Hpa, Hba, Hbs, Hths, <- !app_assoc. done.
    + rewrite Hpa, Hba, Hbs. apply lookup_snoc.
    + done.
  - destruct (aborted_frame OnStop None (stopped w))
      as (Hca & _ & Hpa & _ & Hena & Hba & _ & Hefa & _ & Htra).
    cbn [fst snd].
    split; [done|]. split; [by rewrite Hefa, Hes|].
    split; [unfold playing; by rewrite Hca, Hcs|]. split; [done|].
    rewrite Htra, Htrs, Hpa, Hba, Hbs, Hths, <- !app_assoc. done.
Qed.

End DisposalLemmas.

(** ** Further invariants of the reachable worlds *)

Section LiveLemmas.

Ltac split_lookup H :=
  repeat first
    [ apply lookup_insert_Some in H; destruct H as [[<- <-]|[? H]]
    | apply lookup_singleton_Some in H; destruct H as [<- <-]
    | rewrite lookup_empty in H; discriminate H ].

Lemma config_initial (c : Closure) (width height : Q) (v : ref) :
  config_uniforms c ⊆ initial_uniforms c width height v.
Proof.
  apply map_subseteq_spec. intros k x H.
  destruct c; cbn [config_uniforms initial_uniforms] in *; split_lookup H; reflexivity.
Qed.

Lemma config_written (c : Closure) (a width height : Q) (fx0 : TransitionEffect.t)
    (m : Uniforms) :
  config_uniforms c ⊆ m -> config_uniforms c ⊆ written c a width height fx0 ∪ m.
Proof.
  rewrite !map_subseteq_spec. intros Hm k x Hk.
  rewrite lookup_union_r; [by apply Hm|]. clear Hm.
  destruct c; cbn [config_uniforms written] in *; split_lookup Hk; reflexivity.
Qed.

Lemma config_refreshed (c : Closure) (a width height : Q) (fx : TransitionEffect.t) :
  config_uniforms c ⊆ TransitionEffect.uniforms fx ->
  config_uniforms c ⊆ TransitionEffect.uniforms (refreshed c a width height fx).
Proof.
  intros H. destruct c; cbn [refreshed]; try done;
    unfold TransitionEffect.updated; cbn [TransitionEffect.uniforms];
    by apply config_written.
Qed.

Lemma Kept_same (w w' : World) :
  _transitionEffect (this w') = _transitionEffect (this w) ->
  effects (heap w') = effects (heap w) -> current w' = current w -> Kept w w'.
Proof.
  intros He Hfx Hc. split; [done|]. split.
  - intros e fx' H. rewrite Hfx in H. by exists fx'.
  - intros tw' H. rewrite Hc in H. by exists tw'.
Qed.

Lemma Kept_trans (w1 w2 w3 : World) : Kept w1 w2 -> Kept w2 w3 -> Kept w1 w3.
Proof.
  intros (He1 & Hf1 & Ht1) (He2 & Hf2 & Ht2). split; [congruence|]. split.
  - intros e fx3 H3. destruct (Hf2 e fx3 H3) as (fx2 & H2 & Hu2).
    destruct (Hf1 e fx2 H2) as (fx1 & H1 & Hu1). exists fx1. split; [done|]. congruence.
  - intros tw3 H3. destruct (Ht2 tw3 H3) as (tw2 & H2 & Hf & Hc).
    destruct (Ht1 tw2 H2) as (tw1 & H1 & Hf' & Hc'). exists tw1.
    split; [done|]. split; congruence.
Qed.

Lemma Live_config_kept (w w' : World) :
  Live w -> Kept w w' ->
  ∀ tw c e fx,
    current w' = Some tw -> Tween._onStartCallbackFired tw = true ->
    Tween._callbacks tw = Some c ->
    _transitionEffect (this w') = Some e -> effects (heap w') !! e = Some fx ->
    config_uniforms c ⊆ TransitionEffect.uniforms fx.
Proof.
  intros HL (He & Hfx & Htw) tw' c e fx' Hcur Hf Hc Heff Hl.
  destruct (Htw tw' Hcur) as (tw & Hcur0 & Hf0 & Hc0).
  destruct (Hfx e fx' Hl) as (fx & Hl0 & ->).
  apply (live_config w HL tw c e fx); congruence.
Qed.

(** A world that keeps the effect of a live world and is neither enabled
    nor playing. *)
Lemma Live_kept (w w' : World) :
  Live w -> Kept w w' -> enabled (this w') = false -> playing w' = false -> Live w'.
Proof.
  intros HL HK Hen Hp. split.
  - done.
  - intros tw e fx Hcur Hpl. unfold playing in Hp. rewrite Hcur in Hp. congruence.
  - by apply (Live_config_kept w w').
Qed.

Lemma Live_same (w w' : World) :
  Live w -> current w' = current w ->
  enabled (this w') = false ∨ enabled (this w') = enabled (this w) ->
  _transitionEffect (this w') = _transitionEffect (this w) ->
  effects (heap w') = effects (heap w) -> Live w'.
Proof.
  intros HL Hc Hen He Hfx. split.
  - intros tw b Hcur Hcb. destruct Hen as [->| ->]; [done|].
    rewrite Hc in Hcur. by apply (live_none w HL tw b).
  - intros tw e fx Hcur. rewrite Hc in Hcur. rewrite He, Hfx.
    by apply (live_effect w HL).
  - apply (Live_config_kept w w' HL). by apply Kept_same.
Qed.

Lemma stop_kept (w : World) :
  Inv w -> Kept w (snd (Tween_stop invoke (_transition (this w)) w)).
Proof.
  intros HI. destruct (playing_current w HI) as (tw & Hcur & Hpl & _ & Hc).
  destruct (playing w) eqn:Hp.
  - destruct (Hc eq_refl) as [c Hcb]. destruct (Inv_prev w HI) as [bg Hbg].
    rewrite (stop_run w tw c bg Hcur Hpl Hcb Hbg).
    destruct (stopped_frame w tw Hcur) as (Hcs & Hths & _ & _ & _ & Hes & _).
    destruct (adopted_frame OnStop (closure_background c) (stopped w))
      as (Hca & _ & _ & Hea & _ & _ & _ & _ & _ & _ & _ & Hefa & _).
    destruct (aborted_frame OnStop (closure_background c) (stopped w))
      as (Hcb' & _ & _ & Heb & _ & _ & _ & Hefb & _).
    destruct (map (material (Background._plane bg))); cbn [snd].
    + split; [by rewrite Hea, Hths|]. split.
      * intros e fx' H. rewrite Hefa, Hes in H. by exists fx'.
      * intros tw' H. rewrite Hca, Hcs in H. injection H as <-. by exists tw.
    + split; [by rewrite Heb, Hths|]. split.
      * intros e fx' H. rewrite Hefb, Hes in H. by exists fx'.
      * intros tw' H. rewrite Hcb', Hcs in H. injection H as <-. by exists tw.
  - rewrite (stop_idle w tw Hcur Hpl). by apply Kept_same.
Qed.

Lemma Background_dispose_frame (b : ref) (h : Heap) :
  let h' := snd (Background_dispose b h) in
  effects h' = effects h ∧ tweens h' = tweens h.
Proof.
  unfold Background_dispose. cbn.
  destruct (backgrounds h !! b) as [bg|]; cbn; [|done].
  by destruct (map (material (Background._plane bg))).
Qed.

Lemma dispose_kept (w : World) : Inv w -> Kept w (snd (dispose w)).
Proof.
  intros HI. pose proof (stop_kept w HI) as HK. rewrite dispose_eq.
  destruct (Tween_stop invoke (_transition (this w)) w) as [[[]|err] w1];
    cbn [snd] in *; [|done].
  apply (Kept_trans _ _ _ HK).
  destruct (Background_dispose_frame (_prevBackground (this w1)) (heap w1)) as [Hef Htw].
  cbn zeta in Hef, Htw.
  destruct (Background_dispose (_prevBackground (this w1)) (heap w1)) as [[[]|err] h2];
    cbn [snd] in *.
  - cbn zeta. destruct (_transitionEffect (this w1)) as [e|] eqn:He.
    + change (effects (log ?ev h2)) with (effects h2).
      destruct (effects h2 !! e) as [fx|] eqn:Hfx; cbn [snd].
      * split; [done|]. split.
        -- intros e' fx'. cbn. rewrite <- Hef. intros H.
           apply lookup_alter_Some in H.
           destruct H as [[-> (fx0 & H0 & ->)]|[Hne H]];
             [by exists fx0|by exists fx'].
        -- intros tw'. unfold current. cbn. rewrite Htw. intros H. by exists tw'.
      * apply Kept_same; [done|done|]. unfold current. cbn. by rewrite Htw.
    + cbn [snd]. apply Kept_same; [done|done|]. unfold current. cbn. by rewrite Htw.
  - apply Kept_same; [done|done|]. unfold current. cbn. by rewrite Htw.
Qed.

Lemma stepped_current (time : Q) (tw : Tween.t) (c : Closure) (w : World) :
  current w = Some tw ->
  current (stepped time tw c w)
  = Some (Tween.set_object (Some (progress time tw))
            (Tween.set_onStartCallbackFired true tw)).
Proof.
  intros Hcur.
  assert (∀ e fx w3, current (updated_at c (progress time tw) e fx w3) = current w3) as Hup.
  { intros e fx w3. unfold current, updated_at.
    destruct c; cbn; try done. by destruct (TransitionEffect.getUniform _ _). }
  assert (∀ w3 X, current w3 = Some X ->
    current match _transitionEffect (this w3) with
            | Some e =>
                match effects (heap w3) !! e with
                | Some fx => updated_at c (progress time tw) e fx w3
                | None => w3
                end
            | None => w3
            end = Some X) as Hm.
  { intros w3 X H3. destruct (_transitionEffect (this w3)) as [e|]; [|done].
    destruct (effects (heap w3) !! e) as [fx|]; [|done]. by rewrite Hup. }
  unfold stepped. cbn zeta. apply Hm.
  unfold current in *. destruct (Tween._onStartCallbackFired tw) eqn:Hf.
  - unfold marked. cbn. rewrite list_lookup_alter_eq, Hcur. cbn.
    by rewrite set_fired_idem.
  - destruct (started_at_frame c w) as (Hev & _). unfold engine_view in Hev.
    injection Hev as Ht _ Hi.
    unfold marked. cbn. by rewrite Hi, Ht, !list_lookup_alter_eq, Hcur.
Qed.

Lemma stepped_Live (time : Q) (tw : Tween.t) (c : Closure) (w : World) :
  Inv w -> Live w -> current w = Some tw -> Tween._isPlaying tw = true ->
  Tween._callbacks tw = Some c -> Live (stepped time tw c w).
Proof.
  intros HI HL Hcur Hp Hc.
  pose proof (stepped_current time tw c w Hcur) as Hcur1.
  destruct (stepped_this time tw c w) as (_ & _ & _ & _ & _ & Hen & Hef). cbn zeta in *.
  destruct (stepped_effects time tw c w HI Hcur Hc) as [_ Hfx]. cbn zeta in Hfx.
  assert (∀ e1 fx1,
    _transitionEffect (this (stepped time tw c w)) = Some e1 ->
    effects (heap (stepped time tw c w)) !! e1 = Some fx1 ->
    TransitionEffect.disposed fx1 = false
    ∧ config_uniforms c ⊆ TransitionEffect.uniforms fx1) as Hnew.
  { intros e1 fx1 He1 Hl1. rewrite Hef in He1.
    destruct (Tween._onStartCallbackFired tw) eqn:Hf.
    - destruct Hfx as (e & fx & He & Hl & _ & Heq).
      assert (e1 = e) as -> by congruence.
      rewrite Heq, list_lookup_alter_eq, Hl in Hl1. injection Hl1 as <-.
      rewrite refreshed_disposed. split.
      + by apply (live_effect w HL tw e fx).
      + apply config_refreshed. by apply (live_config w HL tw c e fx).
    - injection He1 as <-. rewrite Hfx in Hl1.
      assert (length match _transitionEffect (this w) with
                     | Some e0 => alter TransitionEffect.released e0 (effects (heap w))
                     | None => effects (heap w)
                     end = length (effects (heap w))) as Hlen.
      { destruct (_transitionEffect (this w)); [apply length_alter|done]. }
      rewrite <- Hlen, lookup_snoc in Hl1. injection Hl1 as <-.
      rewrite refreshed_disposed. split; [done|].
      apply config_refreshed, config_initial. }
  split.
  - intros tw1 b H1 Hcb. rewrite Hcur1 in H1. injection H1 as <-. cbn in Hcb.
    assert (c = InNone b) as -> by congruence.
    rewrite Hen. destruct (Tween._onStartCallbackFired tw); by apply (live_none w HL tw b).
  - intros tw1 e1 fx1 _ _ _ He1 Hl1. by apply (Hnew e1 fx1).
  - intros tw1 c1 e1 fx1 H1 _ Hcb He1 Hl1. rewrite Hcur1 in H1. injection H1 as <-.
    cbn in Hcb. assert (c1 = c) as -> by congruence. by apply (Hnew e1 fx1).
Qed.

Lemma at_time_Live (time : Q) (w : World) : Live w -> Live (at_time time w).
Proof. intros HL. apply (Live_same w); auto. Qed.

Lemma tick_Live (w : World) (time : Q) : Inv w -> Live w -> Live (snd (tick time w)).
Proof.
  intros HI HL. destruct (playing_current w HI) as (tw & Hcur & Hpl & _ & Hc).
  destruct (playing w) eqn:Hp.
  - destruct (Qle_bool (Tween._startTime tw) time) eqn:Hle.
    + destruct (Hc eq_refl) as [c Hcb]. destruct (Inv_prev w HI) as [bg Hbg].
      rewrite (tick_run w tw c time bg HI Hcur Hpl Hcb Hle Hbg). cbn zeta.
      pose proof (stepped_Live time tw c (at_time time w) (at_time_Inv time w HI)
                    (at_time_Live time w HL) Hcur Hpl Hcb) as HL1.
      pose proof (stepped_current time tw c (at_time time w) Hcur) as Hcur1.
      set (w1 := stepped time tw c (at_time time w)) in *.
      destruct (Qeq_bool (Tween.elapsed time tw) 1); [|done].
      destruct (adopted_frame OnComplete (closure_background c) w1)
        as (Hca & Hta & _ & Hea & _ & _ & _ & Hena & _ & Htwa & _ & Hefa & _).
      destruct (aborted_frame OnComplete (closure_background c) w1)
        as (Hcb' & _ & _ & Heb & Henb & _ & _ & Hefb & _).
      destruct (map (material (Background._plane bg))); cbn [snd].
      * apply (Live_kept w1); [done| |done|].
        -- split; [by rewrite <- Hea|]. split.
           ++ intros e fx' H. cbn in H. rewrite Hefa in H. by exists fx'.
           ++ intros tw'. unfold current, finished. cbn. rewrite Hta, Htwa.
              unfold current in Hcur1. rewrite list_lookup_alter_eq, Hcur1. cbn.
              intros [= <-]. eexists. split; [reflexivity|]. done.
        -- unfold playing, current, finished. cbn. rewrite Hta, Htwa.
           unfold current in Hcur1. by rewrite list_lookup_alter_eq, Hcur1.
      * apply (Live_same w1); auto.
    + rewrite (tick_waiting w tw time HI Hcur Hle). by apply at_time_Live.
  - rewrite (tick_idle w time HI Hp). by apply at_time_Live.
Qed.

Lemma transition_Live (w : World) unit k config :
  Inv w -> Live w -> known unit (heap w) -> Live (snd (transition unit k config w)).
Proof.
  intros HI HL Hk. rewrite transition_eq, begin_eq.
  pose proof (drawn_Inv k config w HI) as HI0.
  destruct (drawn_world k config w) as (Hc0 & _ & _ & _ & _ & _ & He0 & _).
  cbn zeta in *. set (w0 := {| this := this w; heap := drawn k config (heap w) |}) in *.
  assert (Live w0) as HL0 by (apply (Live_same w); auto).
  pose proof (stop_spec w0 HI0) as (HI1 & Hp1 & _). cbn zeta in *.
  pose proof (stop_kept w0 HI0) as HK.
  destruct (Tween_stop invoke (_transition (this w0)) w0) as [[[]|err] w1]; cbn [snd] in *.
  - pose proof (begun_current (resolved unit k config (heap w)) w1) as Hcur.
    destruct (begun_playing (resolved unit k config (heap w)) w1) as (_ & _ & Hen & _).
    split.
    + intros _ _ _ _. rewrite Hen. by apply Inv_idle.
    + intros tw e fx H. rewrite Hcur in H. by injection H as <-.
    + intros tw c e fx H. rewrite Hcur in H. by injection H as <-.
  - apply (Live_kept w0); [done|done| |done]. by apply Inv_idle.
Qed.

Lemma dispose_Live (w : World) : Inv w -> Live w -> Live (snd (dispose w)).
Proof.
  intros HI HL. destruct (dispose_idle w HI) as [Hp Hen].
  apply (Live_kept w); [done| |done|done]. by apply dispose_kept.
Qed.

Lemma exec_Live (op : Op) (w : World) :
  Inv w -> Live w -> allowed op w -> Live (snd (exec op w)).
Proof.
  intros HI HL Hop. destruct op; cbn [exec].
  - unfold Background_new. cbn. apply (Live_same w); auto.
  - unfold setSize, Background_setSize.
    crush_callback; apply (Live_same w); auto.
  - by apply transition_Live.
  - unfold render, isTransitioning, Tween_isPlaying, Background_render,
      TransitionEffect_render.
    crush_callback; apply (Live_same w); auto.
  - cbn. apply (Live_same w); auto.
  - by apply dispose_Live.
  - by apply tick_Live.
Qed.

Lemma constructor_Live background width height (h : Heap) :
  pristine h -> Live (constructor background width height h).
Proof.
  intros (He & Hv & Ht & Hg).
  destruct (fresh_idle background width height h) as (Hcur & _ & Hen & Hef).
  cbn zeta in *. split.
  - done.
  - intros tw e fx H. rewrite Hcur in H. by injection H as <-.
  - intros tw c e fx H. rewrite Hcur in H. by injection H as <-.
Qed.

Theorem Reachable_Live (w : World) : Reachable w -> Live w.
Proof.
  induction 1 as [background width height h Hp Hk|op w HR IH Hop].
  - by apply constructor_Live.
  - apply exec_Live; [by apply Reachable_Inv|done|done].
Qed.

End LiveLemmas.

(** ** Rendering, and what the invariants give *)

Section Rendering.

Lemma Background_render_eq (h : Heap) (b : ref) (bg : Background.t) (out : option Target) :
  backgrounds h !! b = Some bg ->
  Background_render b out h =
    (Normal tt,
     log_all (unit_render_events bg b out)
       (set_backgrounds (alter Background.advanced b) h)).
Proof.
  intros Hb. unfold Background_render, unit_render_events. cbn. rewrite Hb. cbn.
  unfold Background.advanced, log_all, log, set_backgrounds.
  destruct (EffectPass_hasEffects (Background._effects bg)); cbn;
    rewrite <- ?app_assoc, list_alter_alter_eq; reflexivity.
Qed.

(** [render()] in closed form. *)
Lemma render_run (w : World) (writeBuffer : option Target) (readBuffer : Target)
    (bg : Background.t) :
  Inv w -> backgrounds (heap w) !! _prevBackground (this w) = Some bg ->
  render writeBuffer readBuffer w =
    if playing w
    then
      let prev := _prevBackground (this w) in
      let h1 := log_all (unit_render_events bg prev (Some IntermediateBuffer))
                  (set_backgrounds (alter Background.advanced prev) (heap w)) in
      match _transitionEffect (this w) with
      | Some e =>
          (Normal tt,
           {| this := this w;
              heap := log (EffectRender e
                             (if renderToScreen (this w) then None else writeBuffer)
                             IntermediateBuffer readBuffer) h1 |})
      | None => (Throw undefined_effect, {| this := this w; heap := h1 |})
      end
    else (Normal tt, w).
Proof.
  intros HI Hbg. pose proof HI as [[_ _ HF _] _].
  destruct (playing w) eqn:Hp.
  - unfold render. rewrite mbind_eq, isTransitioning_eq by (by apply Inv_current).
    rewrite Hp. cbn. rewrite (Background_render_eq _ _ bg) by done. cbn.
    destruct (_transitionEffect (this w)) as [e|] eqn:He; cbn; [|done].
    unfold TransitionEffect_render. cbn.
    destruct (lookup_lt_is_Some_2 _ _ (fx_valid _ _ _ HF e eq_refl)) as [fx Hfx].
    by rewrite Hfx.
  - apply render_idle; [by apply Inv_current|done].
Qed.

(** What [render()] leaves of the pass and of the units. *)
Lemma render_frame (w : World) (writeBuffer : option Target) (readBuffer : Target)
    (bg : Background.t) :
  Inv w -> backgrounds (heap w) !! _prevBackground (this w) = Some bg ->
  let w' := snd (render writeBuffer readBuffer w) in
  this w' = this w
  ∧ backgrounds (heap w')
    = (if playing w then alter Background.advanced (_prevBackground (this w)) else id)
        (backgrounds (heap w))
  ∧ current w' = current w.
Proof.
  intros HI Hbg. cbn zeta. rewrite (render_run w writeBuffer readBuffer bg HI Hbg).
  destruct (playing w); [|done]. cbn zeta.
  by destruct (_transitionEffect (this w)).
Qed.

(** X11.  While the animation of the pass plays and has started,
    [render()] returns normally: it advances the camera and the particles
    of the previous unit and renders that unit into the intermediate
    buffer, then renders the effect of the pass from the intermediate
    buffer and the read buffer, to the screen when [renderToScreen] is set
    and to the write buffer otherwise.  The effect it uses has not been
    disposed of, and [render()] changes nothing else. *)
Theorem render_draws (w : World) (writeBuffer : option Target) (readBuffer : Target) :
  Reachable w -> playing w = true -> started w = true ->
  ∃ bg e fx,
    backgrounds (heap w) !! _prevBackground (this w) = Some bg
    ∧ _transitionEffect (this w) = Some e ∧ effects (heap w) !! e = Some fx
    ∧ TransitionEffect.disposed fx = false
    ∧ render writeBuffer readBuffer w
      = (Normal tt,
         {| this := this w;
            heap := log_all
                      (unit_render_events bg (_prevBackground (this w))
                         (Some IntermediateBuffer)
                       ++ [EffectRender e
                             (if renderToScreen (this w) then None else writeBuffer)
                             IntermediateBuffer readBuffer])
                      (set_backgrounds
                         (alter Background.advanced (_prevBackground (this w)))
                         (heap w)) |}).
Proof.
  intros HR Hp Hs. pose proof (Reachable_Inv w HR) as HI.
  pose proof (Reachable_Live w HR) as HL.
  destruct (playing_current w HI) as (tw & Hcur & Hpl & Hst & _).
  rewrite Hp in Hpl. rewrite Hs in Hst.
  destruct (Inv_prev w HI) as [bg Hbg].
  pose proof HI as [[_ _ _ HLk] _].
  destruct (HLk tw Hcur Hst) as (c & a & e & fx & Hc & Ha & He & Hfx & Hsh & Hok).
  exists bg, e, fx. split; [done|]. split; [done|]. split; [done|].
  split; [by apply (live_effect w HL tw e fx)|].
  rewrite (render_run w writeBuffer readBuffer bg HI Hbg), Hp, He. cbn zeta.
  by rewrite log_all_log.
Qed.

(** X12.  A transition of kind [None] never enables the pass: in every
    reachable state in which the tween of the pass is that of a [None]
    transition, playing or finished, [enabled] is false; once it has
    started, the effect of the pass is a blend fixed at full mix. *)
Theorem none_stays_disabled (w : World) (tw : Tween.t) (b : option ref) :
  Reachable w -> current w = Some tw -> Tween._callbacks tw = Some (InNone b) ->
  enabled (this w) = false
  ∧ (Tween._onStartCallbackFired tw = true ->
     ∃ e fx, _transitionEffect (this w) = Some e ∧ effects (heap w) !! e = Some fx
       ∧ TransitionEffect.shader fx = BlendShader
       ∧ TransitionEffect.uniforms fx !! "mixRatio" = Some (Number 1)).
Proof.
  intros HR Hcur Hc. pose proof (Reachable_Inv w HR) as HI.
  pose proof (Reachable_Live w HR) as HL.
  split; [by apply (live_none w HL tw b)|].
  intros Hf. pose proof HI as [[_ _ _ HLk] _].
  destruct (HLk tw Hcur Hf) as (c & a & e & fx & Hc' & Ha & He & Hfx & Hsh & Hok).
  assert (c = InNone b) as -> by congruence.
  exists e, fx. split; [done|]. split; [done|]. split; [done|].
  pose proof (live_config w HL tw _ e fx Hcur Hf Hc He Hfx) as Hsub.
  rewrite map_subseteq_spec in Hsub. apply Hsub. reflexivity.
Qed.

(** X13.  Once a transition has started, the effect of the pass has the
    shader of its kind and holds the parameters of its configuration,
    whatever updates, resizes and renders have happened since: gradient,
    angle (in radians) and direction of a wipe; slides, intensity, samples
    and direction of a slide; intensity and samples of a blur; the seed of
    a glitch. *)
Theorem configuration_persists (w : World) (tw : Tween.t) (c : Closure) :
  Reachable w -> current w = Some tw -> Tween._onStartCallbackFired tw = true ->
  Tween._callbacks tw = Some c ->
  ∃ e fx,
    _transitionEffect (this w) = Some e ∧ effects (heap w) !! e = Some fx
    ∧ TransitionEffect.shader fx = shader_of c
    ∧ let u := TransitionEffect.uniforms fx in
      match c with
      | InNone _ => u !! "mixRatio" = Some (Number 1)
      | InBlend _ => True
      | InWipe _ gradient angle direction =>
          u !! "gradient" = Some (Number gradient) ∧ u !! "angle" = Some (Radians angle)
          ∧ u !! "direction" = Some (Dir direction)
      | InSlide _ slides intensity samples direction =>
          u !! "slides" = Some (Number slides)
          ∧ u !! "intensity" = Some (Number intensity)
          ∧ u !! "samples" = Some (Number samples)
          ∧ u !! "direction" = Some (Dir direction)
      | InBlur _ intensity samples =>
          u !! "intensity" = Some (Number intensity)
          ∧ u !! "samples" = Some (Number samples)
      | InGlitch _ seed => u !! "seed" = Some (Number seed)
      end.
Proof.
  intros HR Hcur Hf Hc. pose proof (Reachable_Inv w HR) as HI.
  pose proof (Reachable_Live w HR) as HL.
  pose proof HI as [[_ _ _ HLk] _].
  destruct (HLk tw Hcur Hf) as (c' & a & e & fx & Hc' & Ha & He & Hfx & Hsh & Hok).
  assert (c' = c) as -> by congruence.
  exists e, fx. split; [done|]. split; [done|]. split; [done|].
  pose proof (live_config w HL tw c e fx Hcur Hf Hc He Hfx) as Hsub.
  rewrite map_subseteq_spec in Hsub. cbn zeta.
  destruct c; cbn [config_uniforms] in Hsub; try done;
    repeat split; apply Hsub; reflexivity.
Qed.

(** X14.  At most one effect is alive: in every reachable state every
    effect ever built, other than the effect of the pass, has been
    disposed of; and while the animation of the pass plays and has
    started, the effect of the pass has not. *)
Theorem at_most_one_live_effect (w : World) :
  Reachable w ->
  (∀ e fx, effects (heap w) !! e = Some fx -> TransitionEffect.disposed fx = false ->
     _transitionEffect (this w) = Some e)
  ∧ (playing w = true -> started w = true ->
     ∃ e fx, _transitionEffect (this w) = Some e ∧ effects (heap w) !! e = Some fx
       ∧ TransitionEffect.disposed fx = false).
Proof.
  intros HR. pose proof (Reachable_Inv w HR) as HI.
  pose proof (Reachable_Live w HR) as HL. split.
  - intros e fx Hfx Hd. pose proof HI as [[_ _ HF _] _].
    destruct (decide (_transitionEffect (this w) = Some e)) as [|Hne]; [done|].
    pose proof (fx_others _ _ _ HF e fx Hfx Hne). congruence.
  - intros Hp Hs. destruct (playing_current w HI) as (tw & Hcur & Hpl & Hst & _).
    rewrite Hp in Hpl. rewrite Hs in Hst. pose proof HI as [[_ _ _ HLk] _].
    destruct (HLk tw Hcur Hst) as (c & a & e & fx & Hc & Ha & He & Hfx & Hsh & Hok).
    exists e, fx. split; [done|]. split; [done|]. by apply (live_effect w HL tw e fx).
Qed.

End Rendering.

(** ** The state of the animation, the enabled flag and interruption *)

Section StateMachine.

Lemma finished_current (w : World) (tw : Tween.t) :
  current w = Some tw -> current (finished w) = Some (Tween.set_isPlaying false tw).
Proof.
  unfold current, finished. cbn. intros H. by rewrite list_lookup_alter_eq, H.
Qed.

(** How each call of the interface moves the animation and the flag. *)
Lemma exec_flags (op : Op) (w : World) :
  Inv w -> allowed op w ->
  let r := exec op w in
  playing (snd r)
  = match op with
    | Transition _ _ _ => completed (fst r)
    | Dispose => false
    | Tick time => playing w && negb (completes time w && completed (fst r))
    | _ => playing w
    end
  ∧ started (snd r)
    = match op with
      | Transition _ _ _ => started w && negb (completed (fst r))
      | Tick time => started w || (playing w && due time w)
      | _ => started w
      end
  ∧ enabled (this (snd r))
    = match op with
      | Transition _ _ _ | Dispose => false
      | Tick time =>
          if playing w && due time w
          then (if completes time w then false
                else if started w then enabled (this w) else negb (cuts w))
          else enabled (this w)
      | _ => enabled (this w)
      end.
Proof.
  intros HI Hop. cbn zeta.
  destruct (playing_current w HI) as (tw & Hcur & Hpl & Hst & Hc).
  destruct (Inv_prev w HI) as [bg Hbg].
  destruct op as [texture width height|width height|unit k config|wb rb|b| |time];
    cbn [exec].
  - unfold Background_new. cbn. done.
  - by rewrite (setSize_eq w width height bg Hbg).
  - rewrite transition_eq, begin_eq.
    destruct (drawn_world k config w) as (Hc0 & Hp0 & Hb0 & _).
    cbn zeta in *. set (w0 := {| this := this w; heap := drawn k config (heap w) |}) in *.
    rewrite <- Hst.
    destruct (Tween._isPlaying tw) eqn:Hp.
    + destruct (Hc (eq_sym Hpl)) as [c Hcb].
      rewrite (stop_run w0 tw c bg); [|by rewrite Hc0|done|done|by rewrite Hb0].
      destruct (stopped_frame w0 tw) as (Hcs & _); [by rewrite Hc0|].
      destruct (map (material (Background._plane bg))); cbn [fst snd completed negb].
      * destruct (begun_playing (resolved unit k config (heap w))
                    (adopted OnStop (closure_background c) (stopped w0)))
          as (Hp' & Hs' & Hen' & _).
        destruct (adopted_frame OnStop (closure_background c) (stopped w0))
          as (_ & _ & _ & _ & _ & _ & _ & Hena & _).
        rewrite Hp', Hs', Hen', Hena, andb_false_r. done.
      * destruct (aborted_frame OnStop (closure_background c) (stopped w0))
          as (Hca & _ & _ & _ & Hena & _).
        unfold playing, started. rewrite Hca, Hcs, Hena, andb_true_r. done.
    + rewrite (stop_idle w0 tw) by (by rewrite ?Hc0). cbn [fst snd completed negb].
      destruct (begun_playing (resolved unit k config (heap w)) w0)
        as (Hp' & Hs' & Hen' & _).
      rewrite Hp', Hs', Hen', andb_false_r. split; [done|]. split; [done|].
      apply (Inv_idle w HI). by rewrite <- Hpl.
  - destruct (render_frame w wb rb bg HI Hbg) as (Hth & _ & Hcu). cbn zeta in *.
    unfold playing, started. by rewrite Hcu, Hth.
  - done.
  - destruct (dispose_idle w HI) as [Hp Hen]. split; [done|]. split; [|done].
    destruct (dispose_kept w HI) as (_ & _ & Hk).
    destruct (Inv_current _ (dispose_Inv w HI)) as [tw' Hcur'].
    destruct (Hk tw' Hcur') as (tw0 & Hcur0 & Hf & _).
    unfold started. rewrite Hcur', Hcur0. done.
  - unfold completes, due, cuts, kind. rewrite Hcur, <- Hst, <- Hpl.
    change (Some tw ≫= _) with (closure_kind <$> Tween._callbacks tw).
    destruct (Tween._isPlaying tw) eqn:Hp; cbn [andb].
    + destruct (Qle_bool (Tween._startTime tw) time) eqn:Hle; cbn [andb].
      * destruct (Hc (eq_sym Hpl)) as [c Hcb]. rewrite Hcb.
        change (closure_kind <$> Some c) with (Some (closure_kind c)).
        rewrite (tick_run w tw c time bg HI Hcur Hp Hcb Hle Hbg). cbn zeta.
        pose proof (stepped_current time tw c (at_time time w) Hcur) as Hcur1.
        destruct (stepped_this time tw c (at_time time w))
          as (_ & _ & _ & _ & _ & Hen & _).
        cbn zeta in Hen. change (this (at_time time w)) with (this w) in Hen.
        set (w1 := stepped time tw c (at_time time w)) in *.
        rewrite orb_true_r.
        destruct (Qeq_bool (Tween.elapsed time tw) 1) eqn:Hel.
        -- destruct (adopted_frame OnComplete (closure_background c) w1)
             as (Hca & _ & _ & _ & _ & _ & _ & Hena & _).
           destruct (aborted_frame OnComplete (closure_background c) w1)
             as (Hcb' & _ & _ & _ & Henb & _).
           destruct (map (material (Background._plane bg))); cbn [fst snd completed negb].
           ++ pose proof (finished_current _ _ (eq_trans Hca Hcur1)) as Hcf.
              unfold playing, started. rewrite Hcf. cbn. done.
           ++ unfold playing, started. rewrite Hcb', Hcur1. cbn. by rewrite Hp.
        -- cbn [fst snd completed negb andb]. rewrite Hen.
           unfold playing, started. rewrite Hcur1.
           cbn [Tween._isPlaying Tween._onStartCallbackFired Tween.set_object
                Tween.set_onStartCallbackFired].
           split; [done|]. split; [done|].
           destruct (Tween._onStartCallbackFired tw) eqn:Hf; [done|].
           destruct c; try done. cbn [closure_kind negb].
           apply (Inv_pending w HI). by rewrite <- Hst.
      * rewrite (tick_waiting w tw time HI Hcur Hle). cbn [fst snd andb negb].
        rewrite orb_false_r. unfold playing, started.
        change (current (at_time time w)) with (current w). rewrite Hcur. done.
    + rewrite orb_false_r.
      rewrite (tick_idle w time HI) by (by rewrite <- Hpl). cbn [fst snd].
      unfold playing, started. change (current (at_time time w)) with (current w).
      rewrite Hcur. done.
Qed.

Lemma exec_Lit (op : Op) (w : World) :
  Inv w -> Lit w -> allowed op w -> Lit (snd (exec op w)).
Proof.
  intros HI HL Hop.
  destruct (exec_flags op w HI Hop) as (Hpf & Hsf & Hef). cbn zeta in *.
  destruct (playing_current w HI) as (tw & Hcur & Hpl & Hst & Hc).
  destruct (Inv_prev w HI) as [bg Hbg].
  intros tw' c' bg' Hcur' Hp' Hf' Hc' Hk' Hbg' Hbl'.
  assert (playing (snd (exec op w)) = true) as Hp1 by (unfold playing; by rewrite Hcur').
  assert (started (snd (exec op w)) = true) as Hs1 by (unfold started; by rewrite Hcur').
  rewrite Hpf in Hp1. rewrite Hsf in Hs1.
  destruct op as [texture width height|width height|unit k config|wb rb|b| |time];
    cbn [exec] in *.
  - rewrite Hef. unfold Background_new in *. cbn in Hcur', Hbg'.
    apply (HL tw' c' bg'); try done.
    rewrite lookup_app_l in Hbg'; [done|]. by eapply lookup_lt_Some.
  - rewrite Hef. rewrite (setSize_eq w width height bg Hbg) in Hcur', Hbg'.
    cbn in Hcur', Hbg'. rewrite list_lookup_alter_eq, Hbg in Hbg'. injection Hbg' as <-.
    by apply (HL tw' c' bg).
  - rewrite Hp1 in Hs1. cbn in Hs1. by rewrite andb_false_r in Hs1.
  - rewrite Hef. destruct (render_frame w wb rb bg HI Hbg) as (Hth & Hb & Hcu).
    cbn zeta in *. rewrite Hcu in Hcur'. rewrite Hth, Hb in Hbg'.
    apply (HL tw' c' bg); try done.
    rewrite Hp1, list_lookup_alter_eq, Hbg in Hbg'. by injection Hbg' as <-.
  - rewrite Hef. by apply (HL tw' c' bg').
  - done.
  - unfold completes, due in *. rewrite Hcur in *.
    destruct (Tween._isPlaying tw) eqn:Hp; [|by rewrite <- Hpl in Hp1].
    destruct (Qle_bool (Tween._startTime tw) time) eqn:Hle.
    + destruct (Hc (eq_sym Hpl)) as [c Hcb].
      rewrite (tick_run w tw c time bg HI Hcur Hp Hcb Hle Hbg) in *. cbn zeta in *.
      pose proof (stepped_current time tw c (at_time time w) Hcur) as Hcur1.
      destruct (stepped_this time tw c (at_time time w)) as (_ & _ & Hpr & _ & _ & Hen & _).
      destruct (stepped_heap time tw c (at_time time w)) as (Hb & _).
      cbn zeta in *. set (w1 := stepped time tw c (at_time time w)) in *.
      change (this (at_time time w)) with (this w) in *.
      change (backgrounds (heap (at_time time w))) with (backgrounds (heap w)) in *.
      destruct (Qeq_bool (Tween.elapsed time tw) 1) eqn:Hel.
      * destruct (aborted_frame OnComplete (closure_background c) w1)
          as (_ & _ & Hpa & _ & _ & Hba & _).
        destruct (map (material (Background._plane bg))) eqn:Hm; cbn [fst snd] in *.
        -- rewrite <- Hpl in Hp1. cbn in Hp1. discriminate Hp1.
        -- rewrite Hpa, Hba, Hpr, Hb, Hbg in Hbg'. injection Hbg' as <-. by destruct Hbl'.
      * cbn [fst snd] in *. rewrite Hcur1 in Hcur'. injection Hcur' as <-.
        cbn in Hc'. assert (c' = c) as -> by congruence.
        rewrite Hpr, Hb, Hbg in Hbg'. injection Hbg' as <-.
        rewrite Hen. destruct (Tween._onStartCallbackFired tw) eqn:Hf.
        -- by apply (HL tw c bg).
        -- by destruct c.
    + rewrite (tick_waiting w tw time HI Hcur Hle) in *. cbn [fst snd] in *.
      change (current (at_time time w)) with (current w) in Hcur'.
      change (this (at_time time w)) with (this w) in *.
      change (backgrounds (heap (at_time time w))) with (backgrounds (heap w)) in *.
      by apply (HL tw' c' bg').
Qed.

Lemma constructor_Lit background width height (h : Heap) :
  Lit (constructor background width height h).
Proof.
  destruct (fresh_idle background width height h) as (Hcur & _). cbn zeta in *.
  intros tw c bg H. rewrite Hcur in H. by injection H as <-.
Qed.

Theorem Reachable_Lit (w : World) : Reachable w -> Lit w.
Proof.
  induction 1 as [background width height h Hp Hk|op w HR IH Hop].
  - apply constructor_Lit.
  - apply exec_Lit; [by apply Reachable_Inv|done|done].
Qed.

(** C3 (as amended).  [isTransitioning()] returns whether the animation
    of the pass is playing, and the calls made so far determine that: a
    new pass is not playing; a [transition()] that returns leaves an
    animation playing and one that raises leaves none; the animation
    plays on through [setSize()], [render()] and the updates of the
    engine until an update at or after its start time reaches the end of
    its duration and returns; when that update raises the animation
    keeps playing; [dispose()] stops it.  Its start callback has run
    from the first update at or after the start time on.  In every
    reachable state [enabled] is true only if the animation is playing,
    its start callback has run and its kind is not [None]; and in every
    such state in which the previous unit has a backdrop texture
    [enabled] is true.  [enabled] is false on a new pass and after
    [transition()] and [dispose()], whether they return or raise; the
    first update of a playing animation at or after its start time sets
    it, for every kind but [None], unless the update also reaches the
    end of the duration; an update that reaches the end clears it,
    whether it returns or raises; no other call changes it. *)
Theorem enabled_only_while_started (w : World) :
  Reachable w ->
  (enabled (this w) = true ->
   playing w = true ∧ started w = true ∧ kind w ≠ Some None_)
  ∧ (∀ bg, playing w = true -> started w = true -> kind w ≠ Some None_ ->
       backgrounds (heap w) !! _prevBackground (this w) = Some bg -> ¬ blank bg ->
       enabled (this w) = true)
  ∧ isTransitioning w = (Normal (playing w), w)
  ∧ (∀ background width height h,
       let w0 := constructor background width height h in
       playing w0 = false ∧ started w0 = false ∧ enabled (this w0) = false)
  ∧ (∀ op, allowed op w ->
       let r := exec op w in
       playing (snd r)
       = match op with
         | Transition _ _ _ => completed (fst r)
         | Dispose => false
         | Tick time => playing w && negb (completes time w && completed (fst r))
         | _ => playing w
         end
       ∧ started (snd r)
         = match op with
           | Transition _ _ _ => started w && negb (completed (fst r))
           | Tick time => started w || (playing w && due time w)
           | _ => started w
           end
       ∧ enabled (this (snd r))
         = match op with
           | Transition _ _ _ | Dispose => false
           | Tick time =>
               if playing w && due time w
               then (if completes time w then false
                     else if started w then enabled (this w) else negb (cuts w))
               else enabled (this w)
           | _ => enabled (this w)
           end).
Proof.
  intros HR. pose proof (Reachable_Inv w HR) as HI.
  pose proof (Reachable_Live w HR) as HLive.
  pose proof (Reachable_Lit w HR) as HLit.
  destruct (playing_current w HI) as (tw & Hcur & Hpl & Hst & Hc).
  split.
  { intros Hen. destruct (proj2 HI Hen) as [Hp Hs]. split; [done|]. split; [done|].
    unfold kind. rewrite Hcur. cbn.
    destruct (Tween._callbacks tw) as [c|] eqn:Hcb; cbn; [|done].
    intros [= Hk]. destruct c; try discriminate Hk.
    pose proof (live_none w HLive tw _ Hcur Hcb). congruence. }
  split.
  { intros bg Hp Hs Hk Hbg Hbl. destruct (Hc Hp) as [c Hcb].
    apply (HLit tw c bg); try done; try congruence.
    intros Hn. apply Hk. unfold kind. rewrite Hcur. cbn. by rewrite Hcb, <- Hn. }
  split; [apply isTransitioning_eq, Inv_current, HI|].
  split.
  { intros background width height h. cbn zeta.
    destruct (fresh_idle background width height h) as (Hcur0 & Hp0 & Hen0 & _).
    cbn zeta in *. split; [done|]. split; [|done]. unfold started. by rewrite Hcur0. }
  intros op Hop. by apply exec_flags.
Qed.


End StateMachine.

(** ** The effect after an update *)

Section UpdateEffects.

Lemma tick_effects (w : World) (tw : Tween.t) (c : Closure) (time : Q) :
  Inv w -> current w = Some tw -> Tween._isPlaying tw = true ->
  Tween._callbacks tw = Some c -> Qle_bool (Tween._startTime tw) time = true ->
  let w1 := stepped time tw c (at_time time w) in
  let w' := snd (tick time w) in
  effects (heap w') = effects (heap w1)
  ∧ _transitionEffect (this w') = _transitionEffect (this w1)
  ∧ _width (this w') = _width (this w) ∧ _height (this w') = _height (this w)
  ∧ renderToScreen (this w') = renderToScreen (this w)
  ∧ length (tweens (heap w')) = length (tweens (heap w))
  ∧ _transition (this w') = _transition (this w).
Proof.
  intros HI Hcur Hp Hc Hle. cbn zeta.
  destruct (Inv_prev w HI) as [bg Hbg].
  rewrite (tick_run w tw c time bg HI Hcur Hp Hc Hle Hbg). cbn zeta.
  destruct (stepped_this time tw c (at_time time w)) as (Hwi & Hhe & _ & _ & Hrs & _).
  destruct (stepped_heap time tw c (at_time time w)) as (_ & _ & _ & _ & _ & Hlen).
  pose proof (stepped_transition time tw c (at_time time w)) as Htr.
  cbn zeta in *. set (w1 := stepped time tw c (at_time time w)) in *.
  destruct (adopted_frame OnComplete (closure_background c) w1)
    as (_ & Hta & _ & Hea & Hwa & Hha & Hra & _ & _ & Htwa & _ & Hefa & _).
  destruct (Qeq_bool (Tween.elapsed time tw) 1); [|done].
  destruct (map (material (Background._plane bg))); cbn [snd]; [|done].
  unfold finished. cbn [this heap].
  change (effects (set_group ?f (set_tweens ?g ?h))) with (effects h).
  change (tweens (set_group ?f (set_tweens ?g ?h))) with (g (tweens h)).
  rewrite length_alter, Htwa, Hefa, Hea, Hwa, Hha, Hra, Hta. done.
Qed.


(** X16.  A later update of a transition keeps the effect of the pass and
    merges into its uniforms those the update writes for the amount it
    delivers: [mixRatio] for a blend; [amount] and [aspect] for a wipe;
    [prevAmount] and [amount] for a slide or a blur; [amount] for a
    glitch; none for the kind [None].  Every other uniform, and every
    other effect, is left as it was. *)
Theorem later_update_merges (w : World) (tw : Tween.t) (c : Closure) (time : Q) :
  Reachable w -> current w = Some tw -> Tween._isPlaying tw = true ->
  Tween._onStartCallbackFired tw = true -> Tween._callbacks tw = Some c ->
  Qle_bool (Tween._startTime tw) time = true ->
  let w' := snd (tick time w) in
  ∃ e fx fx',
    _transitionEffect (this w) = Some e ∧ effects (heap w) !! e = Some fx
    ∧ _transitionEffect (this w') = Some e ∧ effects (heap w') !! e = Some fx'
    ∧ TransitionEffect.shader fx' = TransitionEffect.shader fx
    ∧ TransitionEffect.disposed fx' = false
    ∧ (let u := written c (progress time tw) (_width (this w)) (_height (this w)) fx in
       TransitionEffect.uniforms fx' = u ∪ TransitionEffect.uniforms fx
       ∧ dom u = match c with
                 | InNone _ => ∅
                 | InBlend _ => {[ "mixRatio" ]}
                 | InWipe _ _ _ _ => {[ "amount"; "aspect" ]}
                 | InSlide _ _ _ _ _ | InBlur _ _ _ => {[ "prevAmount"; "amount" ]}
                 | InGlitch _ _ => {[ "amount" ]}
                 end)
    ∧ (∀ e', e' ≠ e -> effects (heap w') !! e' = effects (heap w) !! e').
Proof.
  intros HR Hcur Hp Hf Hc Hle. pose proof (Reachable_Inv w HR) as HI.
  pose proof (Reachable_Live w HR) as HL. cbn zeta.
  destruct (tick_effects w tw c time HI Hcur Hp Hc Hle) as (-> & -> & _). cbn zeta.
  destruct (stepped_this time tw c (at_time time w)) as (_ & _ & _ & _ & _ & _ & ->).
  destruct (stepped_effects time tw c (at_time time w) (at_time_Inv time w HI) Hcur Hc)
    as [_ Hfx].
  cbn zeta in Hfx. rewrite Hf in *. destruct Hfx as (e & fx & He & Hl & Hsh & Heq).
  change (effects (heap (at_time time w))) with (effects (heap w)) in *.
  change (this (at_time time w)) with (this w) in *.
  rewrite Heq. exists e, fx. eexists. split; [done|]. split; [done|]. split; [done|].
  split; [by rewrite list_lookup_alter_eq, Hl|].
  rewrite refreshed_shader, refreshed_disposed. split; [done|].
  split; [by apply (live_effect w HL tw e fx)|]. split; [split|].
  - destruct c; cbn [refreshed TransitionEffect.updated TransitionEffect.uniforms written];
      try done.
    symmetry. apply (left_id_L ∅ (∪)).
  - destruct c; cbn [written];
      rewrite ?dom_insert_L, ?dom_singleton_L, ?dom_empty_L; set_solver.
  - intros e' Hne. by apply list_lookup_alter_ne.
Qed.

End UpdateEffects.

(** ** The end of a transition, from the frame loop *)

Section Completion.

Lemma stepped_live_effect (time : Q) (tw : Tween.t) (c : Closure) (w : World) :
  Inv w -> Live w -> current w = Some tw -> Tween._isPlaying tw = true ->
  Tween._callbacks tw = Some c ->
  ∃ e fx,
    _transitionEffect (this (stepped time tw c w)) = Some e
    ∧ effects (heap (stepped time tw c w)) !! e = Some fx
    ∧ TransitionEffect.shader fx = shader_of c
    ∧ TransitionEffect.disposed fx = false.
Proof.
  intros HI HL Hcur Hp Hc.
  destruct (stepped_this time tw c w) as (_ & _ & _ & _ & _ & _ & Hef). cbn zeta in *.
  destruct (stepped_effects time tw c w HI Hcur Hc) as [_ Hfx]. cbn zeta in Hfx.
  rewrite Hef. destruct (Tween._onStartCallbackFired tw) eqn:Hf.
  - destruct Hfx as (e & fx & He & Hl & Hsh & Heq). exists e. eexists.
    split; [done|]. rewrite Heq, list_lookup_alter_eq, Hl. split; [done|].
    rewrite refreshed_shader, refreshed_disposed. split; [done|].
    by apply (live_effect w HL tw e fx).
  - eexists _, _. split; [done|]. rewrite Hfx.
    assert (length match _transitionEffect (this w) with
                   | Some e0 => alter TransitionEffect.released e0 (effects (heap w))
                   | None => effects (heap w)
                   end = length (effects (heap w))) as Hlen.
    { destruct (_transitionEffect (this w)); [apply length_alter|done]. }
    split; [rewrite <- Hlen at 1; apply lookup_snoc|].
    by rewrite refreshed_shader, refreshed_disposed.
Qed.

(** X18.  The update that completes a transition whose previous unit has a
    backdrop texture returns normally and ends the transition: the
    animation no longer plays and has left the engine's group, the pass is
    disabled, and the unit of the transition is the previous unit; when
    the transition had no unit, a blank unit of the current width and
    height of the pass is made for it.  The effect is kept, not disposed
    of, and a [render()] now does nothing. *)
Theorem completion_adopts (w : World) (tw : Tween.t) (c : Closure) (time : Q)
    (bg : Background.t) :
  Reachable w -> current w = Some tw -> Tween._isPlaying tw = true ->
  Tween._callbacks tw = Some c -> Qle_bool (Tween._startTime tw) time = true ->
  Qeq_bool (Tween.elapsed time tw) 1 = true ->
  backgrounds (heap w) !! _prevBackground (this w) = Some bg -> ¬ blank bg ->
  ∃ w',
    tick time w = (Normal tt, w')
    ∧ playing w' = false ∧ group (heap w') = [] ∧ enabled (this w') = false
    ∧ _prevBackground (this w')
      = default (length (backgrounds (heap w))) (closure_background c)
    ∧ backgrounds (heap w')
      = match closure_background c with
        | Some _ => backgrounds (heap w)
        | None =>
            backgrounds (heap w)
            ++ [Background.constructor None (_width (this w)) (_height (this w))]
        end
    ∧ (∃ e fx, _transitionEffect (this w') = Some e ∧ effects (heap w') !! e = Some fx
         ∧ TransitionEffect.disposed fx = false)
    ∧ ∀ writeBuffer readBuffer, render writeBuffer readBuffer w' = (Normal tt, w').
Proof.
  intros HR Hcur Hp Hc Hle Hone Hbg Hbl. pose proof (Reachable_Inv w HR) as HI.
  pose proof (Reachable_Live w HR) as HL.
  rewrite (tick_run w tw c time bg HI Hcur Hp Hc Hle Hbg). cbn zeta. rewrite Hone.
  destruct (map (material (Background._plane bg))) as [tex|] eqn:Hm; [|by destruct Hbl].
  destruct (stepped_this time tw c (at_time time w)) as (Hwi & Hhe & _).
  destruct (stepped_heap time tw c (at_time time w)) as (Hb & Hg & _).
  pose proof (stepped_transition time tw c (at_time time w)) as Htr.
  pose proof (stepped_current time tw c (at_time time w) Hcur) as Hcur1.
  destruct (stepped_live_effect time tw c (at_time time w) (at_time_Inv time w HI)
              (at_time_Live time w HL) Hcur Hp Hc) as (e & fx & He & Hfx & _ & Hd).
  cbn zeta in *. set (w1 := stepped time tw c (at_time time w)) in *.
  destruct (adopted_frame OnComplete (closure_background c) w1)
    as (Hca & Hta & Hpa & Hea & _ & _ & _ & Hena & Hba & Htwa & Hga & Hefa & _).
  set (w2 := adopted OnComplete (closure_background c) w1) in *.
  assert (current (finished w2)
          = Some (Tween.set_isPlaying false
                    (Tween.set_object (Some (progress time tw))
                       (Tween.set_onStartCallbackFired true tw)))) as Hcf.
  { unfold current, finished. cbn. unfold current in Hca, Hcur1.
    by rewrite list_lookup_alter_eq, Hca, Hcur1. }
  assert (playing (finished w2) = false) as Hpf.
  { unfold playing. by rewrite Hcf. }
  eexists. split; [reflexivity|]. split; [done|]. split.
  { unfold finished. cbn. rewrite Hga, Hg, Hta, Htr. cbn.
    pose proof HI as [[HE _ _ _] _]. unfold current in Hcur.
    rewrite (eng_group _ _ _ HE _ Hcur), Hp. apply group_remove_singleton. }
  split; [done|].
  split. { change (this (finished w2)) with (this w2). by rewrite Hpa, Hb. }
  split. { change (backgrounds (heap (finished w2))) with (backgrounds (heap w2)).
           by rewrite Hba, Hb, Hwi, Hhe. }
  split. { exists e, fx. change (this (finished w2)) with (this w2).
           change (effects (heap (finished w2))) with (effects (heap w2)).
           by rewrite Hea, Hefa. }
  intros writeBuffer readBuffer. apply render_idle; [by eexists|done].
Qed.

End Completion.

(** ** The progress of a transition *)

Section Progress.
Local Open Scope Q_scope.

Lemma elapsed_bounds (tw : Tween.t) (time : Q) :
  0 <= Tween._duration tw -> Qle_bool (Tween._startTime tw) time = true ->
  0 <= Tween.elapsed time tw <= 1
  ∧ (Qeq_bool (Tween.elapsed time tw) 1 = false ->
     Tween.elapsed time tw = (time - Tween._startTime tw) / Tween._duration tw).
Proof.
  intros Hd Hle. apply Qle_bool_iff in Hle. unfold Tween.elapsed. cbn zeta.
  destruct (Qeq_bool (Tween._duration tw) 0) eqn:Hz; cbn [orb].
  - split; [split; [discriminate|apply Qle_refl]|]. intros H. discriminate H.
  - destruct (Qle_bool ((time - Tween._startTime tw) / Tween._duration tw) 1) eqn:H1;
      cbn [negb].
    + split; [|done]. apply Qle_bool_iff in H1. split; [|done].
      apply Qeq_bool_neq in Hz.
      apply Qle_shift_div_l; [|lra].
      destruct (Qlt_le_dec 0 (Tween._duration tw)) as [|Hneg]; [done|].
      exfalso. apply Hz. lra.
    + split; [split; [discriminate|apply Qle_refl]|]. intros H. discriminate H.
Qed.

(** X17.  After an update of a transition at or after its start time, the
    uniform that carries the progress of the transition ([mixRatio] for a
    blend, [amount] for a wipe, a slide, a blur and a glitch) holds the
    amount the update delivered: the easing applied to the elapsed share
    of the duration.  With linear easing and a duration that is not
    negative that amount lies between 0 and 1, is 1 when the update
    completes the transition, and is the time since the start divided by
    the duration otherwise. *)
Theorem update_delivers_progress (w : World) (tw : Tween.t) (c : Closure) (time : Q) :
  Reachable w -> current w = Some tw -> Tween._isPlaying tw = true ->
  Tween._callbacks tw = Some c -> Qle_bool (Tween._startTime tw) time = true ->
  let w' := snd (tick time w) in
  let a := progress time tw in
  (∃ e fx,
     _transitionEffect (this w') = Some e ∧ effects (heap w') !! e = Some fx
     ∧ match c with
       | InNone _ => True
       | InBlend _ => TransitionEffect.uniforms fx !! "mixRatio" = Some (Number a)
       | _ => TransitionEffect.uniforms fx !! "amount" = Some (Number a)
       end)
  ∧ a = 0 + (1 - 0) * Tween._easingFunction tw (Tween.elapsed time tw)
  ∧ (Tween._easingFunction tw = Tween.Linear_None -> 0 <= Tween._duration tw ->
     0 <= a <= 1
     ∧ (Qeq_bool (Tween.elapsed time tw) 1 = true -> a == 1)
     ∧ (Qeq_bool (Tween.elapsed time tw) 1 = false ->
        a == (time - Tween._startTime tw) / Tween._duration tw)).
Proof.
  intros HR Hcur Hp Hc Hle. pose proof (Reachable_Inv w HR) as HI. cbn zeta.
  split; [|split; [done|]].
  - destruct (tick_spec w tw c time HI Hcur Hp Hc Hle)
      as (w1 & HS & _ & Hefx & _ & Hef & _).
    destruct (sp_effect _ _ _ _ _ HS) as (e & fx & He & Hfx & _ & Hok & _).
    exists e, fx. cbn zeta in Hefx, Hef. rewrite Hefx, Hef.
    split; [done|]. split; [done|]. by destruct c.
  - intros He Hd. destruct (elapsed_bounds tw time Hd Hle) as [[H0 H1] Hlin].
    unfold progress. rewrite He. unfold Tween.Linear_None.
    split; [lra|]. split.
    + intros H. apply Qeq_bool_iff in H. lra.
    + intros H. rewrite <- (Hlin H). lra.
Qed.

End Progress.

(** ** What the configuration gives *)

Section Resolution.
Local Open Scope Q_scope.

(** X19.  [_getTransitionConfig] leaves the pass and the store as they
    are, except that a glitch without a seed draws one random number; a
    seed that is given is used and nothing is drawn.  The tween is to run
    from 0 to 1; a duration and a delay that are given are taken in
    seconds, an easing that is given is used; the callbacks are those of
    the kind asked for, closed over the unit of the transition and over
    the parameters of that kind that the configuration gives. *)
Theorem getTransitionConfig_given
    (background : option ref) (k : TransitionType) (config : Config.t) (w : World) :
  let r := _getTransitionConfig background k config w in
  ∃ res,
    fst r = Normal res ∧ this (snd r) = this w
    ∧ heap (snd r)
      = match k, Config.seed config with
        | Glitch, None => set_draws (S (draws (heap w))) (heap w)
        | _, _ => heap w
        end
    ∧ Resolved.from res = 0 ∧ Resolved.to_ res = 1
    ∧ (∀ d, Config.duration config = Some d -> Resolved.duration res = d * 1000)
    ∧ (∀ d, Config.delay config = Some d -> Resolved.delay res = d * 1000)
    ∧ (∀ f, Config.easing config = Some f -> Resolved.easing res = f)
    ∧ closure_background (Resolved.callbacks res) = background
    ∧ closure_kind (Resolved.callbacks res) = k
    ∧ match Resolved.callbacks res with
      | InNone _ | InBlend _ => True
      | InWipe _ gradient angle direction =>
          (∀ x, Config.gradient config = Some x -> gradient = x)
          ∧ (∀ x, Config.angle config = Some x -> angle = x)
          ∧ (∀ x, Config.direction config = Some x -> direction = x)
      | InSlide _ slides intensity samples direction =>
          (∀ x, Config.slides config = Some x -> slides = x)
          ∧ (∀ x, Config.intensity config = Some x -> intensity = x)
          ∧ (∀ x, Config.samples config = Some x -> samples = x)
          ∧ (∀ x, Config.direction config = Some x -> direction = x)
      | InBlur _ intensity samples =>
          (∀ x, Config.intensity config = Some x -> intensity = x)
          ∧ (∀ x, Config.samples config = Some x -> samples = x)
      | InGlitch _ seed => ∀ x, Config.seed config = Some x -> seed = x
      end.
Proof.
  cbn zeta. rewrite getTransitionConfig_eq. eexists. split; [reflexivity|].
  cbn [fst snd this heap resolved Resolved.from Resolved.to_ Resolved.duration
       Resolved.delay Resolved.easing Resolved.callbacks].
  split; [done|]. split; [by destruct k|]. split; [done|]. split; [done|].
  split; [by intros d ->|]. split; [by intros d ->|]. split; [by intros f ->|].
  split; [apply closure_background_resolve|]. split; [by destruct k|].
  destruct k; cbn [resolve]; try done; repeat split; by intros x ->.
Qed.

End Resolution.

(** ** A new pass *)

Section FreshPass.

(** X20.  A pass is made idle: with the unit it is given as its previous
    unit, or with a blank unit of its own size, appended to the store,
    when it is given none.  It is disabled, no animation plays and it has
    no effect; until the first [transition()], [render()] does nothing and
    an update of the animation engine only advances the clock. *)
Theorem fresh_pass_is_inert (background : option ref) (width height : Q) (h : Heap) :
  pristine h -> known background h ->
  let w := constructor background width height h in
  _prevBackground (this w) = default (length (backgrounds h)) background
  ∧ backgrounds (heap w)
    = match background with
      | Some _ => backgrounds h
      | None => backgrounds h ++ [Background.constructor None width height]
      end
  ∧ _width (this w) = width ∧ _height (this w) = height
  ∧ Pass._buffer (this w) = WebGLRenderTarget_new width height
  ∧ enabled (this w) = false ∧ _transitionEffect (this w) = None
  ∧ isTransitioning w = (Normal false, w)
  ∧ (∀ writeBuffer readBuffer, render writeBuffer readBuffer w = (Normal tt, w))
  ∧ (∀ time, tick time w = (Normal tt, at_time time w)).
Proof.
  intros Hp Hk. cbn zeta.
  pose proof (constructor_Inv background width height h Hp Hk) as HI.
  destruct (fresh_idle background width height h) as (Hcur & Hpl & Hen & Hef).
  cbn zeta in *.
  split; [by destruct background|]. split; [by destruct background|].
  split; [by destruct background|]. split; [by destruct background|].
  split; [by destruct background|]. split; [done|]. split; [done|].
  split. { rewrite isTransitioning_eq by (by eexists). by rewrite Hpl. }
  split. { intros wb rb. apply render_idle; [by eexists|done]. }
  intros time. by apply tick_idle.
Qed.

End FreshPass.

(** ** Further example runs *)

Section Scenarios.
Import Example Scenario.

Lemma completed_reachable : Reachable completed.
Proof. apply after_reachable; [apply active_reachable|done]. Qed.

Lemma to_nothing_reachable : Reachable to_nothing.
Proof.
  apply after_reachable; [|done]. apply after_reachable; [apply pass_reachable|done].
Qed.

Lemma cut_reachable : Reachable cut.
Proof.
  apply after_reachable; [|done].
  apply after_reachable; [apply pass_reachable|cbn; lia].
Qed.

Lemma soft_wiping_reachable : Reachable soft_wiping.
Proof.
  do 3 (apply after_reachable; [|done]).
  apply after_reachable; [apply pass_reachable|cbn; lia].
Qed.

Lemma restarted_reachable : Reachable restarted.
Proof. apply after_reachable; [apply interrupted_reachable|done]. Qed.


Lemma enabled_only_while_started_witness :
  enabled (this active) = true ∧ playing active = true ∧ started active = true.
Proof.
  assert (enabled (this active) = true) as H by (vm_compute; reflexivity).
  split; [exact H|].
  destruct (proj1 (enabled_only_while_started active active_reachable) H) as (Hp & Hs & _).
  split; [exact Hp|exact Hs].
Defined.

Lemma Background_dispose_textured_twice_witness :
  Background_dispose 0 store = (Normal tt, log_all (unit_released 0) store)
  ∧ Background_dispose 0 (snd (Background_dispose 0 store))
    = (Normal tt, log_all (unit_released 0 ++ unit_released 0) store).
Proof.
  destruct (Background_dispose_textured_twice store 0
              (Background.constructor (Some photo) 800 600) eq_refl) as [_ H].
  destruct H as (H1 & _ & _ & H2); [unfold blank; discriminate|].
  split; [exact H1|exact H2].
Defined.

Lemma setSize_resizes_witness :
  ∃ w', setSize 1024 768 active = (Normal tt, w')
        ∧ _width (this w') = 1024%Q ∧ _height (this w') = 768%Q.
Proof.
  destruct (setSize_resizes active 1024 768 active_reachable)
    as (bg & w' & _ & H & Hw & Hh & _).
  exists w'. split; [exact H|]. split; [exact Hw|exact Hh].
Defined.

Lemma transition_from_idle_witness :
  ∃ w', transition (Some 1) Blend (lasting 1) pass = (Normal tt, w')
        ∧ trace (heap w')
          = trace (heap pass) ++ [Called OnInit (Some (0, Some 1)); TweenCreated 1]
        ∧ enabled (this w') = false.
Proof.
  destruct (transition_from_idle pass (Some 1) Blend (lasting 1) pass_reachable)
    as (w' & tw & H & Htr & _ & _ & _ & _ & Hen & _).
  - vm_compute; reflexivity.
  - cbn; lia.
  - exists w'. split; [exact H|]. split; [exact Htr|exact Hen].
Defined.

Lemma transition_interrupting_blank_raises_witness :
  ∃ w', transition (Some 2) Blend (lasting 1) blank_active = (Throw null_map, w')
        ∧ playing w' = false.
Proof.
  destruct (transition_interrupting_blank_raises blank_active
              (Background.constructor None 800 600) (Some 2) Blend (lasting 1)
              blank_active_reachable)
    as (tw & c & w' & _ & _ & H & _ & Hp & _).
  - vm_compute; reflexivity.
  - vm_compute; reflexivity.
  - reflexivity.
  - exists w'. split; [exact H|exact Hp].
Defined.

Lemma update_before_start_witness :
  let w' := snd (transition (Some 1) Blend delayed pass) in
  tick 500 w' = (Normal tt, at_time 500 w').
Proof.
  cbn zeta.
  apply (update_before_start pass _ (Some 1) Blend delayed 500 pass_reachable).
  - cbn; lia.
  - apply run_normal. vm_compute; reflexivity.
  - vm_compute; reflexivity.
Defined.

Lemma update_calls_witness :
  trace (heap (snd (tick 1000 pending)))
  = trace (heap pending)
    ++ update_events 1000 (tween pending) (InBlend (Some 1)) pending.
Proof.
  apply (update_calls pending (tween pending) (InBlend (Some 1)) 1000 pending_reachable);
    vm_compute; reflexivity.
Defined.

Lemma dispose_idle_releases_witness :
  ∃ w', dispose completed = (Normal tt, w')
        ∧ trace (heap w')
          = trace (heap completed)
            ++ unit_released 1 ++ [Released OfIntermediateBuffer; Released (OfEffect 0)].
Proof.
  destruct (dispose_idle_releases completed (Background.constructor (Some photo) 800 600) 0
              completed_reachable) as (w' & fx & H & _ & Htr & _).
  - vm_compute; reflexivity.
  - vm_compute; reflexivity.
  - vm_compute; reflexivity.
  - unfold blank; discriminate.
  - exists w'. split; [exact H|exact Htr].
Defined.

Lemma dispose_active_releases_both_witness :
  fst (dispose active) = Normal tt ∧ _prevBackground (this (snd (dispose active))) = 1
  ∧ fst (dispose pending) = Throw undefined_effect.
Proof.
  destruct (dispose_active_releases_both active (tween active) (InBlend (Some 1))
              (Background.constructor (Some photo) 800 600)
              (Background.constructor (Some photo) 800 600) 1 active_reachable)
    as (H & _ & Hp & _); try (vm_compute; reflexivity);
    try (unfold blank; discriminate).
  destruct (dispose_active_releases_both pending (tween pending) (InBlend (Some 1))
              (Background.constructor (Some photo) 800 600)
              (Background.constructor (Some photo) 800 600) 1 pending_reachable)
    as (H' & _); try (vm_compute; reflexivity);
    try (unfold blank; discriminate).
  split; [exact H|]. split; [exact Hp|exact H'].
Defined.

Lemma dispose_active_absent_unit_raises_witness :
  fst (dispose to_nothing) = Throw null_map.
Proof.
  apply (dispose_active_absent_unit_raises to_nothing (tween to_nothing) (InBlend None)
           (Background.constructor (Some photo) 800 600) to_nothing_reachable);
    vm_compute; reflexivity.
Defined.

Lemma render_draws_witness :
  ∃ w', render None (CallerBuffer 0) active = (Normal tt, w').
Proof.
  destruct (render_draws active None (CallerBuffer 0) active_reachable)
    as (bg & e & fx & _ & _ & _ & _ & H); try (vm_compute; reflexivity).
  eexists. exact H.
Defined.

Lemma none_stays_disabled_witness :
  playing cut = true ∧ started cut = true ∧ enabled (this cut) = false.
Proof.
  split; [vm_compute; reflexivity|]. split; [vm_compute; reflexivity|].
  apply (none_stays_disabled cut (tween cut) (Some 1) cut_reachable);
    vm_compute; reflexivity.
Defined.

Lemma configuration_persists_witness :
  ∃ e fx, _transitionEffect (this soft_wiping) = Some e
    ∧ effects (heap soft_wiping) !! e = Some fx
    ∧ TransitionEffect.uniforms fx !! "gradient" = Some (Number (1 # 4))
    ∧ TransitionEffect.uniforms fx !! "angle" = Some (Radians 45)
    ∧ TransitionEffect.uniforms fx !! "direction" = Some (Dir Left).
Proof.
  destruct (configuration_persists soft_wiping (tween soft_wiping)
              (InWipe (Some 1) (1 # 4) 45 Left) soft_wiping_reachable)
    as (e & fx & He & Hfx & _ & Hu); try (vm_compute; reflexivity).
  exists e, fx. split; [exact He|]. split; [exact Hfx|]. exact Hu.
Defined.

Lemma at_most_one_live_effect_witness :
  length (effects (heap restarted)) = 2
  ∧ ∃ e fx, _transitionEffect (this restarted) = Some e
      ∧ effects (heap restarted) !! e = Some fx ∧ TransitionEffect.disposed fx = false.
Proof.
  split; [vm_compute; reflexivity|].
  apply (proj2 (at_most_one_live_effect restarted restarted_reachable));
    vm_compute; reflexivity.
Defined.


Lemma later_update_merges_witness :
  ∃ e fx', _transitionEffect (this (snd (tick 1000 sliding))) = Some e
    ∧ effects (heap (snd (tick 1000 sliding))) !! e = Some fx'
    ∧ TransitionEffect.disposed fx' = false.
Proof.
  destruct (later_update_merges sliding (tween sliding) (InSlide (Some 1) 2 1 32 Right)
              1000 sliding_reachable)
    as (e & fx & fx' & _ & _ & He & Hfx & _ & Hd & _); try (vm_compute; reflexivity).
  exists e, fx'. split; [exact He|]. split; [exact Hfx|exact Hd].
Defined.

Lemma update_delivers_progress_witness :
  (0 <= progress 500 (tween active) <= 1)%Q.
Proof.
  destruct (update_delivers_progress active (tween active) (InBlend (Some 1)) 500
              active_reachable) as (_ & _ & H); try (vm_compute; reflexivity).
  apply H; [vm_compute; reflexivity|vm_compute; discriminate].
Defined.

Lemma completion_adopts_witness :
  ∃ w', tick 1000 active = (Normal tt, w') ∧ _prevBackground (this w') = 1
        ∧ playing w' = false.
Proof.
  destruct (completion_adopts active (tween active) (InBlend (Some 1)) 1000
              (Background.constructor (Some photo) 800 600) active_reachable)
    as (w' & H & Hp & _ & _ & Hpr & _); try (vm_compute; reflexivity);
    try (unfold blank; discriminate).
  exists w'. split; [exact H|]. split; [exact Hpr|exact Hp].
Defined.

Lemma getTransitionConfig_given_witness :
  ∃ res, fst (_getTransitionConfig (Some 1) Wipe soft_wipe pass) = Normal res
    ∧ Resolved.duration res = (2 * 1000)%Q
    ∧ Resolved.callbacks res = InWipe (Some 1) (1 # 4) 45 Left.
Proof.
  destruct (getTransitionConfig_given (Some 1) Wipe soft_wipe pass)
    as (res & H & _ & _ & _ & _ & Hd & _ & _ & Hb & Hk & Hc).
  exists res. split; [exact H|]. split; [by apply Hd|].
  destruct (Resolved.callbacks res); try discriminate Hk.
  cbn in Hb. destruct Hc as (Hg & Ha & Hdi).
  by rewrite Hb, (Hg _ eq_refl), (Ha _ eq_refl), (Hdi _ eq_refl).
Defined.

Lemma fresh_pass_is_inert_witness :
  render None (CallerBuffer 0) blank_pass = (Normal tt, blank_pass)
  ∧ _prevBackground (this blank_pass) = 3.
Proof.
  destruct (fresh_pass_is_inert None 800 600 store) as (Hp & _ & _ & _ & _ & _ & _ & _ & Hr & _).
  - done.
  - done.
  - split; [apply Hr|exact Hp].
Defined.

End Scenarios.

(** ** A blank previous unit *)

Section BlankUnit.

Lemma Follows_Reachable (w0 w : World) : Reachable w0 -> Follows w0 w -> Reachable w.
Proof. intros H0. induction 1; [done|by apply reach_step]. Qed.

Lemma resized_blank (width height : Q) (bg : Background.t) :
  blank bg -> blank (Background.resized width height bg).
Proof. done. Qed.

Lemma advanced_blank (bg : Background.t) : blank bg -> blank (Background.advanced bg).
Proof. done. Qed.

Lemma blank_step (op : Op) (w : World) (bg : Background.t) :
  Inv w -> backgrounds (heap w) !! _prevBackground (this w) = Some bg -> blank bg ->
  let w' := snd (exec op w) in
  _prevBackground (this w') = _prevBackground (this w)
  ∧ ∃ bg', backgrounds (heap w') !! _prevBackground (this w') = Some bg' ∧ blank bg'.
Proof.
  intros HI Hbg Hbl. cbn zeta.
  destruct (playing_current w HI) as (tw & Hcur & Hpl & _ & Hc).
  destruct op as [texture width height|width height|unit k config|wb rb|b| |time];
    cbn [exec].
  - unfold Background_new. cbn. split; [done|]. exists bg. split; [|done].
    by apply lookup_app_l_Some.
  - rewrite (setSize_eq w width height bg Hbg). cbn. split; [done|].
    exists (Background.resized width height bg). split; [|done].
    by rewrite list_lookup_alter_eq, Hbg.
  - rewrite transition_eq, begin_eq.
    destruct (drawn_world k config w) as (Hc0 & Hp0 & Hb0 & _).
    cbn zeta in *. set (w0 := {| this := this w; heap := drawn k config (heap w) |}) in *.
    destruct (Tween._isPlaying tw) eqn:Hp.
    + destruct (Hc (eq_sym Hpl)) as [c Hcb].
      rewrite (stop_run w0 tw c bg); [|by rewrite Hc0|done|done|by rewrite Hb0].
      destruct (stopped_frame w0 tw) as (_ & Hths & Hbs & _); [by rewrite Hc0|].
      rewrite Hbl. cbn [snd].
      destruct (aborted_frame OnStop (closure_background c) (stopped w0))
        as (_ & _ & Hpa & _ & _ & Hba & _).
      rewrite Hpa, Hba, Hths, Hbs, Hb0. split; [done|]. by exists bg.
    + rewrite (stop_idle w0 tw) by (by rewrite ?Hc0).
      destruct (begun_heap (resolved unit k config (heap w)) w0)
        as (_ & _ & Hb & Hpr & _).
      cbn [snd]. rewrite Hpr, Hb, Hb0. split; [done|]. by exists bg.
  - destruct (render_frame w wb rb bg HI Hbg) as (-> & -> & _).
    split; [done|]. destruct (playing w); [|by exists bg].
    exists (Background.advanced bg). split; [|done].
    by rewrite list_lookup_alter_eq, Hbg.
  - cbn. split; [done|]. by exists bg.
  - rewrite dispose_eq.
    assert (∀ w1, _prevBackground (this w1) = _prevBackground (this w) ->
              backgrounds (heap w1) = backgrounds (heap w) ->
              Background_dispose (_prevBackground (this w1)) (heap w1)
              = (Throw null_map,
                 log_all (blank_unit_released (_prevBackground (this w1))) (heap w1))) as Hd.
    { intros w1 Hp1 Hb1. apply (Background_dispose_blank _ _ bg); [|done].
      by rewrite Hp1, Hb1. }
    destruct (Tween._isPlaying tw) eqn:Hp.
    + destruct (Hc (eq_sym Hpl)) as [c Hcb].
      rewrite (stop_run w tw c bg Hcur Hp Hcb Hbg).
      destruct (stopped_frame w tw Hcur) as (_ & Hths & Hbs & _).
      rewrite Hbl. cbn [snd].
      destruct (aborted_frame OnStop (closure_background c) (stopped w))
        as (_ & _ & Hpa & _ & _ & Hba & _).
      rewrite Hpa, Hba, Hths, Hbs. split; [done|]. by exists bg.
    + rewrite (stop_idle w tw Hcur Hp), (Hd w) by done. cbn [snd this heap].
      split; [done|]. by exists bg.
  - destruct (Tween._isPlaying tw) eqn:Hp.
    + destruct (Qle_bool (Tween._startTime tw) time) eqn:Hle.
      * destruct (Hc (eq_sym Hpl)) as [c Hcb].
        rewrite (tick_run w tw c time bg HI Hcur Hp Hcb Hle Hbg). cbn zeta.
        destruct (stepped_this time tw c (at_time time w)) as (_ & _ & Hpr & _).
        destruct (stepped_heap time tw c (at_time time w)) as (Hb & _).
        cbn zeta in *. set (w1 := stepped time tw c (at_time time w)) in *.
        destruct (aborted_frame OnComplete (closure_background c) w1)
          as (_ & _ & Hpa & _ & _ & Hba & _).
        rewrite Hbl.
        destruct (Qeq_bool (Tween.elapsed time tw) 1); cbn [snd].
        -- rewrite Hpa, Hba, Hpr, Hb. split; [done|]. by exists bg.
        -- rewrite Hpr, Hb. split; [done|]. by exists bg.
      * rewrite (tick_waiting w tw time HI Hcur Hle). cbn [snd].
        split; [done|]. by exists bg.
    + rewrite (tick_idle w time HI) by (by rewrite <- Hpl). cbn [snd].
      split; [done|]. by exists bg.
Qed.

(** X21.  A blank previous unit is never replaced.  From a reachable state
    in which the previous unit of the pass is blank, whatever the host
    application does next, the previous unit of the pass is still that
    unit and it is still blank: to replace it the pass first disposes of
    it, and that raises.  This holds in particular for every pass that was
    constructed without a unit. *)
Theorem blank_previous_unit_is_never_replaced (w0 w : World) (bg : Background.t) :
  Reachable w0 ->
  backgrounds (heap w0) !! _prevBackground (this w0) = Some bg -> blank bg ->
  Follows w0 w ->
  _prevBackground (this w) = _prevBackground (this w0)
  ∧ ∃ bg', backgrounds (heap w) !! _prevBackground (this w) = Some bg' ∧ blank bg'.
Proof.
  intros HR Hbg Hbl HF. induction HF as [|op w HF IH Hop].
  - split; [done|]. by exists bg.
  - destruct IH as (Hpr & bg' & Hbg' & Hbl').
    pose proof (Reachable_Inv w (Follows_Reachable w0 w HR HF)) as HI.
    destruct (blank_step op w bg' HI Hbg' Hbl') as (Hpr1 & Hex). cbn zeta in *.
    split; [congruence|done].
Qed.

End BlankUnit.

(** ** Runs in which every unit has a backdrop texture *)

Section SuppliedLemmas.

Lemma Supplied_Reachable (w : World) : Supplied w -> Reachable w.
Proof. induction 1; [by apply reach_new|by apply reach_step]. Qed.

Lemma Textured_same (w w' : World) :
  Textured w -> backgrounds (heap w') = backgrounds (heap w) ->
  current w' = current w ∨ playing w' = false -> Textured w'.
Proof.
  intros [Hs Ht] Hb Hc. split.
  - unfold textured_store. by rewrite Hb.
  - intros tw c Hcur Hp. destruct Hc as [Hc|Hc].
    + rewrite Hc in Hcur. by apply Ht.
    + unfold playing in Hc. rewrite Hcur in Hc. congruence.
Qed.

Lemma Textured_prev (w : World) :
  Inv w -> Textured w ->
  ∃ bg, backgrounds (heap w) !! _prevBackground (this w) = Some bg
        ∧ map (material (Background._plane bg)) ≠ None.
Proof.
  intros HI [Hs _]. destruct (Inv_prev w HI) as [bg Hbg]. exists bg.
  split; [done|]. by apply (Hs _ _ Hbg).
Qed.

Lemma Textured_target (w : World) (tw : Tween.t) (c : Closure) :
  Inv w -> Textured w -> current w = Some tw -> Tween._isPlaying tw = true ->
  Tween._callbacks tw = Some c ->
  ∃ b bg, closure_background c = Some b ∧ backgrounds (heap w) !! b = Some bg
          ∧ ¬ blank bg.
Proof.
  intros [[_ HU _ _] _] [Hs Ht] Hcur Hp Hc.
  destruct (Ht tw c Hcur Hp Hc) as [b Hb]. exists b.
  pose proof (units_next _ _ _ HU _ tw c b Hcur Hc Hb) as Hlt.
  destruct (lookup_lt_is_Some_2 _ _ Hlt) as [bg Hbg]. exists bg.
  split; [done|]. split; [done|]. by apply (Hs _ _ Hbg).
Qed.

(** [stop()] in such a world. *)
Lemma Textured_stop (w : World) :
  Inv w -> Textured w ->
  ∃ w1, Tween_stop invoke (_transition (this w)) w = (Normal tt, w1)
    ∧ backgrounds (heap w1) = backgrounds (heap w)
    ∧ playing w1 = false
    ∧ _transitionEffect (this w1) = _transitionEffect (this w)
    ∧ effects (heap w1) = effects (heap w)
    ∧ _prevBackground (this w1) < length (backgrounds (heap w1)).
Proof.
  intros HI HT. destruct (playing_current w HI) as (tw & Hcur & Hpl & _ & Hc).
  destruct (Textured_prev w HI HT) as (bg & Hbg & Hm).
  destruct (Tween._isPlaying tw) eqn:Hp.
  - destruct (Hc (eq_sym Hpl)) as [c Hcb].
    destruct (Textured_target w tw c HI HT Hcur Hp Hcb) as (b & bg' & Hb & Hbg' & _).
    rewrite (stop_run w tw c bg Hcur Hp Hcb Hbg).
    destruct (map (material (Background._plane bg))); [|done].
    destruct (stopped_frame w tw Hcur) as (Hcs & Hths & Hbs & _ & _ & Hes & _).
    destruct (adopted_frame OnStop (closure_background c) (stopped w))
      as (Hca & _ & Hpa & Hea & _ & _ & _ & _ & Hba & _ & _ & Hefa & _).
    rewrite Hb in *. cbn [default] in Hpa.
    eexists. split; [reflexivity|]. rewrite Hba, Hbs, Hpa, Hea, Hefa, Hes, Hths.
    split; [done|]. split; [unfold playing; by rewrite Hca, Hcs|].
    split; [done|]. split; [done|]. by eapply lookup_lt_Some.
  - rewrite (stop_idle w tw Hcur Hp). eexists. split; [reflexivity|].
    split; [done|]. split; [by rewrite <- Hpl|]. split; [done|]. split; [done|].
    by eapply lookup_lt_Some.
Qed.

Lemma constructed_not_blank (tex : Texture) (width height : Q) :
  ¬ blank (Background.constructor (Some tex) width height).
Proof. unfold blank. discriminate. Qed.

Lemma Background_dispose_backgrounds (b : ref) (h : Heap) :
  backgrounds (snd (Background_dispose b h)) = backgrounds h.
Proof.
  unfold Background_dispose. cbn.
  destruct (backgrounds h !! b) as [bg|]; cbn; [|done].
  by destruct (map (material (Background._plane bg))).
Qed.

Lemma dispose_backgrounds (w : World) :
  Inv w -> Textured w ->
  backgrounds (heap (snd (dispose w))) = backgrounds (heap w).
Proof.
  intros HI HT. rewrite dispose_eq.
  destruct (Textured_stop w HI HT) as (w1 & -> & Hb & _).
  pose proof (Background_dispose_backgrounds (_prevBackground (this w1)) (heap w1)) as Hd.
  rewrite Hb in Hd.
  destruct (Background_dispose (_prevBackground (this w1)) (heap w1)) as [[[]|err] h2];
    cbn [snd] in *; [|done].
  cbn zeta. destruct (_transitionEffect (this w1)) as [e|]; [|done].
  change (effects (log ?ev h2)) with (effects h2).
  by destruct (effects h2 !! e).
Qed.

Lemma finished_playing (w : World) (tw : Tween.t) :
  current w = Some tw -> playing (finished w) = false.
Proof.
  unfold playing, current, finished. cbn. intros H.
  by rewrite list_lookup_alter_eq, H.
Qed.

Lemma exec_Textured (op : Op) (w : World) :
  Inv w -> Textured w -> allowed op w -> supplied op -> Textured (snd (exec op w)).
Proof.
  intros HI HT Hop Hsu.
  destruct (playing_current w HI) as (tw & Hcur & Hpl & _ & Hc).
  destruct (Textured_prev w HI HT) as (bg & Hbg & Hm).
  destruct op as [texture width height|width height|unit k config|wb rb|b| |time];
    cbn [exec].
  - destruct Hsu as [tex ->]. unfold Background_new. cbn. split.
    + intros b bg' H. apply lookup_snoc_Some in H.
      destruct H as [[_ ->]|[_ H]]; [apply constructed_not_blank|].
      by apply (tex_store w HT b).
    + apply (tex_target w HT).
  - rewrite (setSize_eq w width height bg Hbg). cbn. split.
    + intros b bg' H. cbn in H. apply lookup_alter_Some in H.
      destruct H as [[_ (bg0 & H0 & ->)]|[_ H]]; [|by apply (tex_store w HT b)].
      pose proof (tex_store w HT _ _ H0) as Hn. done.
    + apply (tex_target w HT).
  - destruct Hsu as [u ->]. rewrite transition_eq, begin_eq.
    pose proof (drawn_Inv k config w HI) as HI0.
    destruct (drawn_world k config w) as (Hc0 & Hp0 & Hb0 & _).
    cbn zeta in *. set (w0 := {| this := this w; heap := drawn k config (heap w) |}) in *.
    assert (Textured w0) as HT0 by (apply (Textured_same w); auto).
    destruct (Textured_stop w0 HI0 HT0) as (w1 & -> & Hb1 & _). cbn [snd].
    destruct (begun_heap (resolved (Some u) k config (heap w)) w1)
      as (_ & _ & Hb & _).
    split.
    + unfold textured_store. rewrite Hb, Hb1, Hb0. apply (tex_store w HT).
    + intros tw' c'. rewrite begun_current. intros [= <-] _. cbn. intros [= <-].
      rewrite closure_background_resolve. by eexists.
  - destruct (render_frame w wb rb bg HI Hbg) as (_ & Hb & Hcu). cbn zeta in *. split.
    + intros b bg' H. rewrite Hb in H. destruct (playing w); [|by apply (tex_store w HT b)].
      apply lookup_alter_Some in H.
      destruct H as [[_ (bg0 & H0 & ->)]|[_ H]]; [|by apply (tex_store w HT b)].
      pose proof (tex_store w HT _ _ H0) as Hn. done.
    + rewrite Hcu. apply (tex_target w HT).
  - cbn. apply (Textured_same w); auto.
  - apply (Textured_same w); [done|by apply dispose_backgrounds|right].
    apply (dispose_idle w HI).
  - destruct (Tween._isPlaying tw) eqn:Hp.
    + destruct (Qle_bool (Tween._startTime tw) time) eqn:Hle.
      * destruct (Hc (eq_sym Hpl)) as [c Hcb].
        destruct (Textured_target w tw c HI HT Hcur Hp Hcb) as (b & bg' & Hb & _).
        rewrite (tick_run w tw c time bg HI Hcur Hp Hcb Hle Hbg). cbn zeta.
        destruct (stepped_heap time tw c (at_time time w)) as (Hbs & _).
        pose proof (stepped_current time tw c (at_time time w) Hcur) as Hcur1.
        cbn zeta in *. set (w1 := stepped time tw c (at_time time w)) in *.
        destruct (adopted_frame OnComplete (closure_background c) w1)
          as (Hca & Hta & _ & _ & _ & _ & _ & _ & Hba & Htwa & _).
        rewrite Hb in *.
        destruct (map (material (Background._plane bg))); [|done].
        destruct (Qeq_bool (Tween.elapsed time tw) 1); cbn [snd].
        -- apply (Textured_same w); [done| |right].
           ++ change (backgrounds (heap (finished ?x))) with (backgrounds (heap x)).
              by rewrite Hba, Hbs.
           ++ apply (finished_playing _ _ (eq_trans Hca Hcur1)).
        -- split.
           ++ unfold textured_store. rewrite Hbs. apply (tex_store w HT).
           ++ intros tw' c'. rewrite Hcur1. intros [= <-] _. cbn. intros Hc'.
              assert (c' = c) as -> by congruence. rewrite Hb. by eexists.
      * rewrite (tick_waiting w tw time HI Hcur Hle). apply (Textured_same w); auto.
    + rewrite (tick_idle w time HI) by (by rewrite <- Hpl).
      apply (Textured_same w); auto.
Qed.

Lemma Supplied_Textured (w : World) : Supplied w -> Textured w.
Proof.
  induction 1 as [b width height h Hp Hs Hk|op w HS IH Hop Hsu].
  - destruct (fresh_idle (Some b) width height h) as (Hcur & _). cbn zeta in *. split.
    + done.
    + intros tw c H. rewrite Hcur in H. by injection H as <-.
  - apply exec_Textured; [|done|done|done].
    by apply Reachable_Inv, Supplied_Reachable.
Qed.

(** X22.  When the pass is constructed with a unit, every unit is made from
    a texture and every transition is given a unit, [setSize()],
    [transition()] and the update of the animation engine never raise.
    [render()] raises exactly while an animation plays and the pass has no
    effect yet, that is between the first [transition()] and the first
    update at or after its start time; [dispose()] raises exactly when the
    pass has no effect yet, that is before a transition has started. *)
Theorem supplied_runs_raise_only_before_start (op : Op) (w : World) :
  Supplied w -> allowed op w -> supplied op ->
  fst (exec op w) =
    match op with
    | Render _ _ =>
        if playing w
        then match _transitionEffect (this w) with
             | Some _ => Normal tt
             | None => Throw undefined_effect
             end
        else Normal tt
    | Dispose =>
        match _transitionEffect (this w) with
        | Some _ => Normal tt
        | None => Throw undefined_effect
        end
    | _ => Normal tt
    end.
Proof.
  intros HS Hop Hsu. pose proof (Supplied_Textured w HS) as HT.
  pose proof (Reachable_Inv w (Supplied_Reachable w HS)) as HI.
  destruct (playing_current w HI) as (tw & Hcur & Hpl & _ & Hc).
  destruct (Textured_prev w HI HT) as (bg & Hbg & Hm).
  assert (∀ e, _transitionEffect (this w) = Some e -> is_Some (effects (heap w) !! e))
    as Hvalid.
  { intros e He. pose proof HI as [[_ _ HF _] _].
    apply lookup_lt_is_Some_2, (fx_valid _ _ _ HF e He). }
  destruct op as [texture width height|width height|unit k config|wb rb|b| |time];
    cbn [exec].
  - done.
  - by rewrite (setSize_eq w width height bg Hbg).
  - rewrite transition_eq, begin_eq.
    pose proof (drawn_Inv k config w HI) as HI0.
    destruct (drawn_world k config w) as (Hc0 & Hp0 & Hb0 & _).
    cbn zeta in *. set (w0 := {| this := this w; heap := drawn k config (heap w) |}) in *.
    assert (Textured w0) as HT0 by (apply (Textured_same w); auto).
    by destruct (Textured_stop w0 HI0 HT0) as (w1 & -> & _).
  - rewrite (render_run w wb rb bg HI Hbg).
    destruct (playing w); [|done]. cbn zeta.
    by destruct (_transitionEffect (this w)).
  - done.
  - rewrite dispose_eq.
    destruct (Textured_stop w HI HT) as (w1 & -> & Hb1 & _ & He1 & Hef1 & Hlt1).
    destruct (lookup_lt_is_Some_2 _ _ Hlt1) as [bg1 Hbg1].
    rewrite (Background_dispose_textured _ _ bg1 Hbg1).
    2:{ apply (tex_store w HT (_prevBackground (this w1))). by rewrite <- Hb1. }
    cbn zeta. rewrite He1.
    destruct (_transitionEffect (this w)) as [e|] eqn:He; [|done].
    change (effects (log ?ev (log_all ?es ?h))) with (effects h). rewrite Hef1.
    destruct (Hvalid e eq_refl) as [fx Hfx]. by rewrite Hfx.
  - destruct (Tween._isPlaying tw) eqn:Hp.
    + destruct (Qle_bool (Tween._startTime tw) time) eqn:Hle.
      * destruct (Hc (eq_sym Hpl)) as [c Hcb].
        rewrite (tick_run w tw c time bg HI Hcur Hp Hcb Hle Hbg). cbn zeta.
        destruct (map (material (Background._plane bg))); [|done].
        by destruct (Qeq_bool (Tween.elapsed time tw) 1).
      * by rewrite (tick_waiting w tw time HI Hcur Hle).
    + by rewrite (tick_idle w time HI) by (by rewrite <- Hpl).
Qed.

End SuppliedLemmas.

(** ** A whole transition *)

Section WholeTransition.
Local Open Scope Q_scope.



End WholeTransition.

(** ** What [render()] advances and what it leaves alone *)

Section RenderFrame.

Lemma unit_render_events_render (bg : Background.t) (b : ref) (out : option Target) :
  forallb is_render_event (unit_render_events bg b out) = true.
Proof. unfold unit_render_events. by destruct (EffectPass_hasEffects _). Qed.

Lemma render_step (w : World) (writeBuffer : option Target) (readBuffer : Target)
    (bg : Background.t) :
  Inv w -> backgrounds (heap w) !! _prevBackground (this w) = Some bg ->
  let w' := snd (render writeBuffer readBuffer w) in
  ∃ events,
    this w' = this w
    ∧ backgrounds (heap w')
      = <[_prevBackground (this w) := if playing w then Background.advanced bg else bg]>
          (backgrounds (heap w))
    ∧ playing w' = playing w
    ∧ effects (heap w') = effects (heap w) ∧ vectors (heap w') = vectors (heap w)
    ∧ tweens (heap w') = tweens (heap w) ∧ group (heap w') = group (heap w)
    ∧ now (heap w') = now (heap w) ∧ draws (heap w') = draws (heap w)
    ∧ trace (heap w') = trace (heap w) ++ events
    ∧ forallb is_render_event events = true.
Proof.
  intros HI Hbg. cbn zeta. rewrite (render_run w writeBuffer readBuffer bg HI Hbg).
  destruct (playing w) eqn:Hp.
  - cbn zeta.
    assert (alter Background.advanced (_prevBackground (this w)) (backgrounds (heap w))
            = <[_prevBackground (this w) := Background.advanced bg]> (backgrounds (heap w)))
      as Hal.
    { rewrite list_insert_alter. by apply (alter_at _ _ _ _ bg). }
    pose proof (unit_render_events_render bg (_prevBackground (this w))
                  (Some IntermediateBuffer)) as Hev.
    destruct (_transitionEffect (this w)) as [e|]; cbn [snd].
    + exists (unit_render_events bg (_prevBackground (this w)) (Some IntermediateBuffer)
              ++ [EffectRender e (if renderToScreen (this w) then None else writeBuffer)
                    IntermediateBuffer readBuffer]).
      split; [done|]. split; [exact Hal|]. split; [exact Hp|].
      do 6 (split; [reflexivity|]).
      split; [symmetry; apply app_assoc|]. by rewrite forallb_app, Hev.
    + exists (unit_render_events bg (_prevBackground (this w)) (Some IntermediateBuffer)).
      split; [done|]. split; [exact Hal|]. split; [exact Hp|].
      do 6 (split; [reflexivity|]). split; [reflexivity|exact Hev].
  - exists []. cbn [snd]. split; [done|]. rewrite list_insert_id by done.
    split; [done|]. split; [exact Hp|]. repeat (split; [done|]).
    by rewrite app_nil_r.
Qed.

Lemma advanced_iter (n : nat) (bg : Background.t) :
  let bg' := Nat.iter n Background.advanced bg in
  cam_updates (Background._camera bg') = n + cam_updates (Background._camera bg)
  ∧ p_updates (Background._particles bg') = n + p_updates (Background._particles bg)
  ∧ cam_width (Background._camera bg') = cam_width (Background._camera bg)
  ∧ cam_height (Background._camera bg') = cam_height (Background._camera bg)
  ∧ Background._buffer bg' = Background._buffer bg
  ∧ Background._plane bg' = Background._plane bg
  ∧ Background._effects bg' = Background._effects bg.
Proof.
  cbn zeta. induction n as [|n (H1 & H2 & H3 & H4 & H5 & H6 & H7)]; [done|].
  rewrite Nat.iter_succ. cbn. rewrite H1, H2, H3, H4, H5, H6, H7. done.
Qed.

Lemma render_frames_run (frames : list (option Target * Target)) (w : World)
    (bg : Background.t) :
  Inv w -> backgrounds (heap w) !! _prevBackground (this w) = Some bg ->
  let w' := render_frames frames w in
  let n := if playing w then length frames else 0 in
  ∃ events,
    this w' = this w
    ∧ backgrounds (heap w')
      = <[_prevBackground (this w) := Nat.iter n Background.advanced bg]>
          (backgrounds (heap w))
    ∧ effects (heap w') = effects (heap w) ∧ vectors (heap w') = vectors (heap w)
    ∧ tweens (heap w') = tweens (heap w) ∧ group (heap w') = group (heap w)
    ∧ now (heap w') = now (heap w) ∧ draws (heap w') = draws (heap w)
    ∧ trace (heap w') = trace (heap w) ++ events
    ∧ forallb is_render_event events = true.
Proof.
  revert w bg. induction frames as [|[wb rb] frames IH]; intros w bg HI Hbg; cbn zeta.
  - exists []. cbn. split; [done|].
    split; [destruct (playing w); by rewrite list_insert_id|].
    repeat (split; [done|]). by rewrite app_nil_r.
  - unfold render_frames. cbn [fold_left fst snd].
    destruct (render_step w wb rb bg HI Hbg)
      as (ev1 & Hth & Hb & Hp & He & Hv & Ht & Hg & Hn & Hd & Htr & Hf).
    cbn zeta in *. set (w1 := snd (render wb rb w)) in *.
    assert (backgrounds (heap w1) !! _prevBackground (this w1)
            = Some (if playing w then Background.advanced bg else bg)) as Hbg1.
    { rewrite Hth, Hb. apply list_lookup_insert_eq. by eapply lookup_lt_Some. }
    destruct (IH w1 _ (render_Inv w wb rb HI) Hbg1)
      as (ev2 & Hth2 & Hb2 & He2 & Hv2 & Ht2 & Hg2 & Hn2 & Hd2 & Htr2 & Hf2).
    cbn zeta in *. fold (render_frames frames w1) in *.
    exists (ev1 ++ ev2). split; [congruence|]. split.
    { rewrite Hb2, Hth, Hb, Hp, list_insert_insert_eq.
      destruct (playing w); [|done]. cbn [length]. by rewrite Nat.iter_succ_r. }
    repeat (split; [congruence|]).
    split; [by rewrite Htr2, Htr, app_assoc|]. by rewrite forallb_app, Hf, Hf2.
Qed.

(** X24.  [render()] advances the previous unit and draws, and does
    nothing else.  Over any number of [render()] calls from a reachable
    state, each call made while the animation of the pass plays advances
    the camera and the particles of the previous unit once (also a call
    that raises for want of an effect), so that [n] calls advance them
    [n] times; no call is held back when a frame is rendered twice.
    While no animation plays the calls change nothing.  In either case
    the calls change no field of the pass, no other unit, not the size,
    the buffer or the backdrop plane of the previous unit, no effect,
    vector or tween, neither the engine's group nor its clock, and
    consume no random number; they append render events to the trace and
    nothing else: no release, no call of a callback. *)
Theorem render_advances_previous_unit (w : World)
    (frames : list (option Target * Target)) :
  Reachable w ->
  let w' := render_frames frames w in
  let prev := _prevBackground (this w) in
  let n := if playing w then length frames else 0 in
  ∃ bg bg' events,
    backgrounds (heap w) !! prev = Some bg
    ∧ this w' = this w
    ∧ backgrounds (heap w') = <[prev := bg']> (backgrounds (heap w))
    ∧ bg' = Nat.iter n Background.advanced bg
    ∧ cam_updates (Background._camera bg') = n + cam_updates (Background._camera bg)
    ∧ p_updates (Background._particles bg') = n + p_updates (Background._particles bg)
    ∧ cam_width (Background._camera bg') = cam_width (Background._camera bg)
    ∧ cam_height (Background._camera bg') = cam_height (Background._camera bg)
    ∧ Background._buffer bg' = Background._buffer bg
    ∧ Background._plane bg' = Background._plane bg
    ∧ effects (heap w') = effects (heap w) ∧ vectors (heap w') = vectors (heap w)
    ∧ tweens (heap w') = tweens (heap w) ∧ group (heap w') = group (heap w)
    ∧ now (heap w') = now (heap w) ∧ draws (heap w') = draws (heap w)
    ∧ trace (heap w') = trace (heap w) ++ events
    ∧ forallb is_render_event events = true.
Proof.
  intros HR. pose proof (Reachable_Inv w HR) as HI. cbn zeta.
  destruct (Inv_prev w HI) as [bg Hbg].
  destruct (render_frames_run frames w bg HI Hbg)
    as (events & Hth & Hb & He & Hv & Ht & Hg & Hn & Hd & Htr & Hf).
  cbn zeta in *.
  destruct (advanced_iter (if playing w then length frames else 0) bg)
    as (H1 & H2 & H3 & H4 & H5 & H6 & H7).
  cbn zeta in *.
  exists bg, (Nat.iter (if playing w then length frames else 0) Background.advanced bg),
    events.
  repeat (split; [done|]). done.
Qed.

End RenderFrame.

(** ** Example runs of the last properties *)

Section LastScenarios.
Import Example Scenario.

Lemma store_textured : textured_store store.
Proof.
  intros b bg H. destruct b as [|[|[|b]]]; cbn in H; try discriminate H;
    injection H as <-; apply constructed_not_blank.
Qed.

Lemma pass_supplied : Supplied pass.
Proof. apply supplied_new; [done|apply store_textured|cbn; lia]. Qed.

Lemma pending_supplied : Supplied pending.
Proof. apply (supplied_step _ pass); [apply pass_supplied|cbn; lia|by eexists]. Qed.

Lemma blank_previous_unit_is_never_replaced_witness :
  _prevBackground (this (after (Tick 1000) blank_active)) = 3.
Proof.
  apply (blank_previous_unit_is_never_replaced blank_pass (after (Tick 1000) blank_active)
           (Background.constructor None 800 600) blank_pass_reachable).
  - vm_compute; reflexivity.
  - reflexivity.
  - unfold after, blank_active, after.
    apply follows_step; [|done]. apply follows_step; [|done].
    apply follows_step; [apply follows_here|cbn; lia].
Defined.

Lemma supplied_runs_raise_only_before_start_witness :
  fst (exec (Tick 0) pending) = Normal tt
  ∧ fst (exec (Render None (CallerBuffer 0)) pending) = Throw undefined_effect.
Proof.
  split.
  - apply (supplied_runs_raise_only_before_start (Tick 0) pending pending_supplied);
      done.
  - rewrite (supplied_runs_raise_only_before_start (Render None (CallerBuffer 0)) pending
               pending_supplied); [vm_compute; reflexivity|done|done].
Defined.

Lemma render_advances_previous_unit_witness :
  ∃ bg',
    backgrounds (heap (render_frames [(None, CallerBuffer 0); (None, CallerBuffer 0)] active))
      !! _prevBackground (this active) = Some bg'
    ∧ cam_updates (Background._camera bg') = 2
    ∧ p_updates (Background._particles bg') = 2.
Proof.
  destruct (render_advances_previous_unit active
              [(None, CallerBuffer 0); (None, CallerBuffer 0)] active_reachable)
    as (bg & bg' & events & Hbg & _ & Hb & _ & Hc & Hp & _).
  exists bg'. split.
  - rewrite Hb. apply list_lookup_insert_eq. vm_compute. lia.
  - vm_compute in Hbg. injection Hbg as <-. split; [exact Hc|exact Hp].
Defined.


End LastScenarios.
